(** * Cyclone Awareness Dashboard: the data-freshness and access-control core

    A shallow embedding of the client-side services of the dashboard
    (severity scorer, cache manager, rate limiter, API client, data
    provider and storage manager) and of the parts of their callers
    that decide what the user sees of them (the freshness indicator,
    the colours of the mock data, the language of the interface),
    together with the properties that its design document states about
    them and further properties that the code shows.

    Conventions.
    - JavaScript numbers that hold milliseconds, lengths or counters are
      integers in the program and are modelled as [Z].
    - The severity scorer computes in the binary64 numbers of
      JavaScript.  Its model [SeverityCalculator] computes as the
      program does, over the numbers of [Binary64], in which every
      operation rounds.  The module [Severity] gives the formula of the
      scorer in exact arithmetic, where [0.4] and [3.9] are the fractions
      4/10 and 39/10; it is used where the rounding plays no part: for
      the design's scenario at the maximal inputs, where binary64 gives
      the same, and for the two classifications, which only compare.
      [SeverityBinary64] runs the scorer on the primitive floats of
      Rocq.
    - [Date.now()] is an explicit argument [now] of every operation
      that reads the clock; a synchronous method call is one turn of the
      event loop and all its readings of the clock are the same [now].
    - Exceptions are values of type [js_error]; an operation that may
      throw returns a [result]. *)

From Corelib Require Import PrimFloat FloatOps SpecFloat.
From Stdlib Require Import ZArith QArith Qround Qminmax Qpower Lia Lqa.
From stdpp Require Import gmap strings list sorting pretty.
From Equations Require Import Equations.

Local Open Scope Z_scope.

(** ** Types shared by the services (src/types/index.ts) *)

Inductive RiskLevel := low | moderate | high.
Inductive SeverityColor := yellow | orange | red.

(** ['fresh' | 'stale-yellow' | 'stale-orange' | 'stale-red'] *)
Inductive FreshnessLevel := fresh | stale_yellow | stale_orange | stale_red.

Inductive ErrorType :=
| NETWORK_ERROR
| API_ERROR
| RATE_LIMIT_ERROR
| VALIDATION_ERROR
| STORAGE_ERROR
| UNKNOWN_ERROR.

(** [class DashboardError extends Error]: a type, a message and the
    [retryable] flag. *)
Record DashboardError := mkDashboardError {
  err_type : ErrorType;
  err_message : string;
  retryable : bool
}.

(** ** Severity scorer (services/severity/calculator.ts)

    The formula of the scorer in exact arithmetic. *)

Module Severity.

Local Open Scope Q_scope.

Record SeverityResult := mkSeverityResult {
  score : Q;
  color : SeverityColor;
  level : RiskLevel
}.

Definition RAINFALL_MAX : Q := 500.
Definition WIND_SPEED_MAX : Q := 200.
Definition SCORE_MAX : Q := 10.

Definition WEIGHTS_rainfall : Q := 4 # 10.
Definition WEIGHTS_wind : Q := 3 # 10.
Definition WEIGHTS_flooding : Q := 3 # 10.

Definition RISK_LEVEL_SCORES (r : RiskLevel) : Q :=
  match r with
  | low => 2
  | moderate => 5
  | high => 9
  end.

Definition SEVERITY_THRESHOLDS_yellow_max : Q := 39 # 10.
Definition SEVERITY_THRESHOLDS_orange_max : Q := 69 # 10.

(** The comparisons [a < b], [a > b] and [a <= b] of the source. *)
Definition Qltb (a b : Q) : bool := negb (Qle_bool b a).

(** [Math.round]: the nearest integer, halves towards plus infinity. *)
Definition Math_round (x : Q) : Z := Qfloor (x + (1 # 2)).

Definition normalizeRainfall (rainfall : Q) : Q :=
  if Qltb rainfall 0 then 0
  else if Qltb RAINFALL_MAX rainfall then SCORE_MAX
  else (rainfall / RAINFALL_MAX) * SCORE_MAX.

Definition normalizeWindSpeed (windSpeed : Q) : Q :=
  if Qltb windSpeed 0 then 0
  else if Qltb WIND_SPEED_MAX windSpeed then SCORE_MAX
  else (windSpeed / WIND_SPEED_MAX) * SCORE_MAX.

Definition riskLevelToScore (riskLevel : RiskLevel) : Q :=
  RISK_LEVEL_SCORES riskLevel.

Definition getSeverityColor (score : Q) : SeverityColor :=
  if Qltb score 0 then yellow
  else if Qltb SCORE_MAX score then red
  else if Qle_bool score SEVERITY_THRESHOLDS_yellow_max then yellow
  else if Qle_bool score SEVERITY_THRESHOLDS_orange_max then orange
  else red.

Definition scoreToRiskLevel (score : Q) : RiskLevel :=
  if Qle_bool score SEVERITY_THRESHOLDS_yellow_max then low
  else if Qle_bool score SEVERITY_THRESHOLDS_orange_max then moderate
  else high.

(** The weighted sum before clamping and rounding. *)
Definition weightedScore (rainfall windSpeed : Q) (floodingRisk : RiskLevel) : Q :=
  normalizeRainfall rainfall * WEIGHTS_rainfall +
  normalizeWindSpeed windSpeed * WEIGHTS_wind +
  riskLevelToScore floodingRisk * WEIGHTS_flooding.

Definition calculateDistrictSeverity
    (rainfall windSpeed : Q) (floodingRisk : RiskLevel) : SeverityResult :=
  let rainfallNormalized := normalizeRainfall rainfall in
  let windNormalized := normalizeWindSpeed windSpeed in
  let floodingScore := riskLevelToScore floodingRisk in
  let score :=
    rainfallNormalized * WEIGHTS_rainfall +
    windNormalized * WEIGHTS_wind +
    floodingScore * WEIGHTS_flooding in
  let clampedScore := Qmax 0 (Qmin SCORE_MAX score) in
  let roundedScore := inject_Z (Math_round (clampedScore * 10)) / 10 in
  {| score := roundedScore;
     color := getSeverityColor roundedScore;
     level := scoreToRiskLevel roundedScore |}.

End Severity.

(** ** The numbers of JavaScript

    A [number] of the program is a binary64 value.  ECMAScript defines
    its arithmetic through the exact result: [a + b], [a * b] and
    [a / b] are the real sum, product and quotient, rounded to the
    nearest value that binary64 represents, a tie going to the value
    with the even last place, and replaced by an infinity when the
    rounded magnitude reaches 2^1024.  The model follows that
    definition.  A finite number is the rational it denotes, and the
    rounding is written out: [round] keeps 53 significant bits and no
    bit below 2^-1074.

    The numbers that binary64 represents are the [Finite q] with
    [round q == q], the infinities and [NaN].  The properties below hold
    of every [number], so of these.

    The model has one zero.  The two zeros of binary64 compare equal
    and differ only in the sign that a division by them yields; the code
    modelled here divides by 500, by 200, by 10, and by a sum of weights
    that it has compared with zero before. *)

Module Binary64.
Local Open Scope Q_scope.

Inductive number :=
| NaN
| Infinity
| NegInfinity
| Finite (q : Q).

(** The exponent of a positive rational [x]: the [e] with
    [2^e <= x < 2^(e+1)]. *)
Definition exponent (x : Q) : Z :=
  let e := (Z.log2 (Qnum x) - Z.log2 (Z.pos (Qden x)))%Z in
  if Qle_bool (2 ^ e) x then e else (e - 1)%Z.

(** The exponent of the last place of the binary64 values around a
    positive [x]: 53 significant bits, and no place below 2^-1074. *)
Definition quantum (x : Q) : Z := Z.max (exponent x - 52) (-1074).

(** The nearest integer, a half going to the even neighbour. *)
Definition roundHalfEven (x : Q) : Z :=
  let n := Qfloor x in
  match Qcompare (x - inject_Z n) (1 # 2) with
  | Lt => n
  | Gt => (n + 1)%Z
  | Eq => if Z.even n then n else (n + 1)%Z
  end.

Definition roundPositive (x : Q) : Q :=
  inject_Z (roundHalfEven (x / 2 ^ quantum x)) * 2 ^ quantum x.

(** Rounding to nearest, ties to even, before the range is looked
    at. *)
Definition round (x : Q) : Q :=
  match Qcompare x 0 with
  | Eq => 0
  | Gt => Qred (roundPositive x)
  | Lt => Qred (- roundPositive (- x))
  end.

(** The number that results from an operation whose exact value is
    [x]. *)
Definition rounded (x : Q) : number :=
  let r := round x in
  if Qle_bool (2 ^ 1024) r then Infinity
  else if Qle_bool r (- 2 ^ 1024) then NegInfinity
  else Finite r.

(** A decimal literal of the source denotes the number nearest to
    it. *)
Definition literal (x : Q) : number := rounded x.

Definition Qlt_bool (x y : Q) : bool := negb (Qle_bool y x).

(** [a + b] *)
Definition add (a b : number) : number :=
  match a, b with
  | Finite x, Finite y => rounded (x + y)
  | NaN, _ | _, NaN => NaN
  | Infinity, NegInfinity | NegInfinity, Infinity => NaN
  | Infinity, _ | _, Infinity => Infinity
  | NegInfinity, _ | _, NegInfinity => NegInfinity
  end.

(** [a * b] *)
Definition mul (a b : number) : number :=
  match a, b with
  | Finite x, Finite y => rounded (x * y)
  | NaN, _ | _, NaN => NaN
  | Finite x, Infinity | Infinity, Finite x =>
      match Qcompare x 0 with Gt => Infinity | Lt => NegInfinity | Eq => NaN end
  | Finite x, NegInfinity | NegInfinity, Finite x =>
      match Qcompare x 0 with Gt => NegInfinity | Lt => Infinity | Eq => NaN end
  | Infinity, Infinity | NegInfinity, NegInfinity => Infinity
  | Infinity, NegInfinity | NegInfinity, Infinity => NegInfinity
  end.

(** [a / b]; a zero divisor counts as [+0]. *)
Definition div (a b : number) : number :=
  match a, b with
  | Finite x, Finite y =>
      match Qcompare y 0 with
      | Eq => match Qcompare x 0 with Eq => NaN | Gt => Infinity | Lt => NegInfinity end
      | _ => rounded (x / y)
      end
  | NaN, _ | _, NaN => NaN
  | Finite _, _ => Finite 0
  | Infinity, Finite y => if Qle_bool 0 y then Infinity else NegInfinity
  | NegInfinity, Finite y => if Qle_bool 0 y then NegInfinity else Infinity
  | _, _ => NaN
  end.

(** [a < b], [a <= b], [a > b] and [a === b]; each is false when an
    operand is [NaN]. *)
Definition ltb (a b : number) : bool :=
  match a, b with
  | Finite x, Finite y => Qlt_bool x y
  | NaN, _ | _, NaN => false
  | _, NegInfinity | Infinity, _ => false
  | _, _ => true
  end.

Definition leb (a b : number) : bool :=
  match a, b with
  | Finite x, Finite y => Qle_bool x y
  | NaN, _ | _, NaN => false
  | NegInfinity, _ | _, Infinity => true
  | _, _ => false
  end.

Definition gtb (a b : number) : bool := ltb b a.

Definition eqb (a b : number) : bool :=
  match a, b with
  | Finite x, Finite y => Qeq_bool x y
  | Infinity, Infinity | NegInfinity, NegInfinity => true
  | _, _ => false
  end.

(** [Math.min] and [Math.max]: [NaN] when an argument is. *)
Definition Math_min (a b : number) : number :=
  match a, b with
  | NaN, _ | _, NaN => NaN
  | _, _ => if leb a b then a else b
  end.

Definition Math_max (a b : number) : number :=
  match a, b with
  | NaN, _ | _, NaN => NaN
  | _, _ => if leb a b then b else a
  end.

(** [Math.round]: the nearest integer, a half going up; exact. *)
Definition Math_round (a : number) : number :=
  match a with
  | Finite x => Finite (inject_Z (Qfloor (x + (1 # 2))))
  | _ => a
  end.

(** The number that a value of the primitive binary64 type of Rocq
    denotes, to compare the model with that arithmetic on samples. *)
Definition of_float (f : float) : number :=
  match Prim2SF f with
  | S754_zero _ => Finite 0
  | S754_infinity false => Infinity
  | S754_infinity true => NegInfinity
  | S754_nan => NaN
  | S754_finite s m e =>
      Finite (Qred (inject_Z (if s then Z.neg m else Z.pos m) * 2 ^ e))
  end.

End Binary64.

(** ** Severity scorer in binary64 (services/severity/calculator.ts)

    The scorer as the program computes it: every [+], [*] and [/] of
    the source is an operation of [Binary64], and [0.4], [0.3], [3.9] and
    [6.9] are the numbers that these literals denote. *)

Module SeverityCalculator.
Import Binary64.

Record SeverityResult := mkSeverityResult {
  score : number;
  color : SeverityColor;
  level : RiskLevel
}.

Definition RAINFALL_MAX : number := Finite 500.
Definition WIND_SPEED_MAX : number := Finite 200.
Definition SCORE_MAX : number := Finite 10.

Definition WEIGHTS_rainfall : number := literal (4 # 10).
Definition WEIGHTS_wind : number := literal (3 # 10).
Definition WEIGHTS_flooding : number := literal (3 # 10).

Definition RISK_LEVEL_SCORES (r : RiskLevel) : number :=
  match r with
  | low => Finite 2
  | moderate => Finite 5
  | high => Finite 9
  end.

Definition SEVERITY_THRESHOLDS_yellow_max : number := literal (39 # 10).
Definition SEVERITY_THRESHOLDS_orange_max : number := literal (69 # 10).

Definition normalizeRainfall (rainfall : number) : number :=
  if ltb rainfall (Finite 0) then Finite 0
  else if gtb rainfall RAINFALL_MAX then SCORE_MAX
  else mul (div rainfall RAINFALL_MAX) SCORE_MAX.

Definition normalizeWindSpeed (windSpeed : number) : number :=
  if ltb windSpeed (Finite 0) then Finite 0
  else if gtb windSpeed WIND_SPEED_MAX then SCORE_MAX
  else mul (div windSpeed WIND_SPEED_MAX) SCORE_MAX.

Definition riskLevelToScore (riskLevel : RiskLevel) : number :=
  RISK_LEVEL_SCORES riskLevel.

Definition getSeverityColor (score : number) : SeverityColor :=
  if ltb score (Finite 0) then yellow
  else if gtb score SCORE_MAX then red
  else if leb score SEVERITY_THRESHOLDS_yellow_max then yellow
  else if leb score SEVERITY_THRESHOLDS_orange_max then orange
  else red.

Definition scoreToRiskLevel (score : number) : RiskLevel :=
  if leb score SEVERITY_THRESHOLDS_yellow_max then low
  else if leb score SEVERITY_THRESHOLDS_orange_max then moderate
  else high.

Definition calculateDistrictSeverity
    (rainfall windSpeed : number) (floodingRisk : RiskLevel) : SeverityResult :=
  let rainfallNormalized := normalizeRainfall rainfall in
  let windNormalized := normalizeWindSpeed windSpeed in
  let floodingScore := riskLevelToScore floodingRisk in
  let score :=
    add (add (mul rainfallNormalized WEIGHTS_rainfall)
             (mul windNormalized WEIGHTS_wind))
        (mul floodingScore WEIGHTS_flooding) in
  let clampedScore := Math_max (Finite 0) (Math_min SCORE_MAX score) in
  let roundedScore := div (Math_round (mul clampedScore (Finite 10))) (Finite 10) in
  {| score := roundedScore;
     color := getSeverityColor roundedScore;
     level := scoreToRiskLevel roundedScore |}.

(** [interface RiskFactor] *)
Inductive RiskFactorType := rainfall | wind | flooding.

Record RiskFactor := mkRiskFactor {
  type : RiskFactorType;
  value : number;
  weight : number
}.

(** [combineRiskFactors]; [reduce] folds from the left, starting at 0. *)
Definition combineRiskFactors (factors : list RiskFactor) : number :=
  if decide (length factors = 0%nat) then Finite 0
  else
    let totalWeight :=
      foldl (λ sum factor, add sum (weight factor)) (Finite 0) factors in
    if eqb totalWeight (Finite 0) then Finite 0
    else
      let weightedSum :=
        foldl (λ sum factor, add sum (mul (value factor) (weight factor)))
          (Finite 0) factors in
      let score := div weightedSum totalWeight in
      let clampedScore := Math_max (Finite 0) (Math_min SCORE_MAX score) in
      div (Math_round (mul clampedScore (Finite 10))) (Finite 10).

End SeverityCalculator.

(** *** The colours of the mock data (utils/mockDataGenerator.ts)

    In mock mode the API client serves generated districts.  Their
    severity score is computed from a draw [baseSeverity] of
    [Math.random()], and their colour by a function of the generator's
    own. *)

Module MockData.
Import Binary64.

Definition getSeverityColor (score : number) : SeverityColor :=
  if ltb score (Finite 4) then yellow
  else if ltb score (Finite 7) then orange
  else red.

(** The fields [severityScore] and [severityColor] of a district of
    [generateDistricts]. *)
Definition severityScore (baseSeverity : number) : number :=
  div (Math_round (mul (mul baseSeverity (Finite 10)) (Finite 10))) (Finite 10).

Definition severityColor (baseSeverity : number) : SeverityColor :=
  getSeverityColor (severityScore baseSeverity).

End MockData.

(** *** The scorer on primitive floats

    The same functions over the primitive binary64 type of Rocq, to
    evaluate the scorer at given inputs. *)

Module SeverityBinary64.

Local Open Scope float_scope.
Local Set Warnings "-inexact-float".

Record SeverityResult := mkSeverityResult {
  score : float;
  color : SeverityColor;
  level : RiskLevel
}.

Definition RAINFALL_MAX : float := 500.
Definition WIND_SPEED_MAX : float := 200.
Definition SCORE_MAX : float := 10.

Definition WEIGHTS_rainfall : float := 0.4.
Definition WEIGHTS_wind : float := 0.3.
Definition WEIGHTS_flooding : float := 0.3.

Definition RISK_LEVEL_SCORES (r : RiskLevel) : float :=
  match r with
  | low => 2
  | moderate => 5
  | high => 9
  end.

Definition SEVERITY_THRESHOLDS_yellow_max : float := 3.9.
Definition SEVERITY_THRESHOLDS_orange_max : float := 6.9.

(** [Math.min] and [Math.max] on numbers that are not NaN. *)
Definition Math_min (a b : float) : float := if a <? b then a else b.
Definition Math_max (a b : float) : float := if a <? b then b else a.

(** [Math.round] for an argument from 0 to 2^51, which covers the
    clamped score times ten: adding and subtracting 2^52 rounds to an
    integer, one step down gives the floor, and a fraction of one half
    or more goes up. *)
Definition Math_round (x : float) : float :=
  let nearest := (x + 4503599627370496) - 4503599627370496 in
  let floor := if x <? nearest then nearest - 1 else nearest in
  if 0.5 <=? x - floor then floor + 1 else floor.

Definition normalizeRainfall (rainfall : float) : float :=
  if rainfall <? 0 then 0
  else if RAINFALL_MAX <? rainfall then SCORE_MAX
  else (rainfall / RAINFALL_MAX) * SCORE_MAX.

Definition normalizeWindSpeed (windSpeed : float) : float :=
  if windSpeed <? 0 then 0
  else if WIND_SPEED_MAX <? windSpeed then SCORE_MAX
  else (windSpeed / WIND_SPEED_MAX) * SCORE_MAX.

Definition riskLevelToScore (riskLevel : RiskLevel) : float :=
  RISK_LEVEL_SCORES riskLevel.

Definition getSeverityColor (score : float) : SeverityColor :=
  if score <? 0 then yellow
  else if SCORE_MAX <? score then red
  else if score <=? SEVERITY_THRESHOLDS_yellow_max then yellow
  else if score <=? SEVERITY_THRESHOLDS_orange_max then orange
  else red.

Definition scoreToRiskLevel (score : float) : RiskLevel :=
  if score <=? SEVERITY_THRESHOLDS_yellow_max then low
  else if score <=? SEVERITY_THRESHOLDS_orange_max then moderate
  else high.

Definition calculateDistrictSeverity
    (rainfall windSpeed : float) (floodingRisk : RiskLevel) : SeverityResult :=
  let rainfallNormalized := normalizeRainfall rainfall in
  let windNormalized := normalizeWindSpeed windSpeed in
  let floodingScore := riskLevelToScore floodingRisk in
  let score :=
    rainfallNormalized * WEIGHTS_rainfall +
    windNormalized * WEIGHTS_wind +
    floodingScore * WEIGHTS_flooding in
  let clampedScore := Math_max 0 (Math_min SCORE_MAX score) in
  let roundedScore := Math_round (clampedScore * 10) / 10 in
  {| score := roundedScore;
     color := getSeverityColor roundedScore;
     level := scoreToRiskLevel roundedScore |}.

End SeverityBinary64.

(** *** Samples for the arithmetic

    Pairs of binary64 values on which the model of the numbers is
    compared with the primitive arithmetic of Rocq: ties, overflow and
    underflow, the subnormal range, zero, the infinities and [NaN]. *)

Module Binary64Samples.
Import Binary64.
Local Set Warnings "-inexact-float".

(** Equality of results; two [NaN] are the same result. *)
Definition same (a b : number) : bool :=
  match a, b with
  | NaN, NaN => true
  | _, _ => eqb a b
  end.

(** The model gives the sum, the product, the quotient and the
    comparisons of the primitive arithmetic. *)
Definition agrees (p : float * float) : bool :=
  let '(a, b) := p in
  same (of_float (a + b)) (add (of_float a) (of_float b))
  && same (of_float (a * b)) (mul (of_float a) (of_float b))
  && same (of_float (a / b)) (div (of_float a) (of_float b))
  && Bool.eqb (PrimFloat.ltb a b) (ltb (of_float a) (of_float b))
  && Bool.eqb (PrimFloat.leb a b) (leb (of_float a) (of_float b))
  && Bool.eqb (PrimFloat.eqb a b) (eqb (of_float a) (of_float b)).

Definition samples : list (float * float) :=
  [ (0.1, 0.2); (1, 3); (2, 3);
    (9007199254740993, 1); (9007199254740992, 3); (0.5, 4503599627370497);
    (1e308, 1e308); (1.7976931348623157e308, 1e292); (-1.7976931348623157e308, 1e-10);
    (5e-324, 5e-324); (5e-324, 2); (1.5e-323, 4);
    (2.2250738585072014e-308, 0.5); (-2.2250738585072014e-308, 3); (1e-200, 1e-200);
    (-1e-200, 1e-200); (1e200, 1e-200); (500, 500);
    (2.5, 500); (0.005, 10); (123.456, 200);
    (0, 0); (1, 0); (-1, 0);
    (0, 7); (infinity, 1); (infinity, -2);
    (neg_infinity, 3); (infinity, neg_infinity); (infinity, infinity);
    (0, infinity); (4, neg_infinity); (nan, 1);
    (1, nan); (nan, infinity); (2.1168064555968866e-308, 5.325205124453069e-49);
    (-119223790.75449552, 445.3); (-1.517819552450997e+306, 1.6151919067758892e-307); (7.570857919970625e+306, 3.3286091872529176e-261);
    (-5.750131306009292e-308, -2.508543512549237e+48); (-4.511581877805079e-24, 397.9388637006387); (57348.80632966384, 10.069149205419285);
    (-4.2271268146260104e+188, 2.5534708136062916e+306); (4624542.681932224, 0.0036802859643718404); (1.296591799736277e-307, 1.844456424540022e-153);
    (8, -3149711.2937260694); (4.441178215675609e-127, 1.4735708739206034e-307) ]%float.

End Binary64Samples.


(** ** Exceptions

    A thrown value is either a built-in [Error] with its message (a
    [TypeError], a [SyntaxError] of [JSON.parse], a [DOMException] of the
    storage host), or a [DashboardError]. *)

Inductive js_error :=
| JsError (message : string)
| Dashboard (e : DashboardError).

(** [error instanceof Error ? error.message : fallback]; both kinds of
    thrown value are instances of [Error]. *)
Definition error_message (e : js_error) : string :=
  match e with
  | JsError m => m
  | Dashboard d => err_message d
  end.

Inductive result (A : Type) :=
| Ok (a : A)
| Throw (e : js_error).
Arguments Ok {A} a.
Arguments Throw {A} e.

(** ** Cache manager (services/cache/manager.ts)

    The [Map] of the class is a [gmap]; its operations do not throw, so
    the [catch] blocks of the class are never entered and every method
    is a total function of the cache and the clock. *)

Module Cache.
Section WithData.
Context {T : Type}.

Record CacheEntry := mkCacheEntry {
  data : T;
  timestamp : Z;   (* [timestamp.getTime()] *)
  ttl : Z
}.

Definition CACHE_CONFIG_cycloneData : Z := 5 * 60 * 1000.
Definition CACHE_CONFIG_districtRainfall : Z := 5 * 60 * 1000.
Definition CACHE_CONFIG_updates : Z := 5 * 60 * 1000.
Definition CACHE_CONFIG_travelRoute : Z := 10 * 60 * 1000.

Definition isValid (cache : gmap string CacheEntry) (now : Z) (key : string) : bool :=
  match cache !! key with
  | None => false
  | Some entry =>
      let age := now - timestamp entry in
      bool_decide (age < ttl entry)
  end.

(** [get] returns the entry (or [None] for [null]) and the cache after
    the call: an expired entry is deleted. *)
Definition get (cache : gmap string CacheEntry) (now : Z) (key : string)
    : option CacheEntry * gmap string CacheEntry :=
  match cache !! key with
  | None => (None, cache)
  | Some entry =>
      if negb (isValid cache now key) then (None, delete key cache)
      else (Some entry, cache)
  end.

Definition set (cache : gmap string CacheEntry) (now : Z)
    (key : string) (d : T) (ttl : Z) : gmap string CacheEntry :=
  <[key := {| data := d; timestamp := now; ttl := ttl |}]> cache.

(** [clear(key?)]: an absent or empty key clears the whole map. *)
Definition clear (cache : gmap string CacheEntry) (key : option string)
    : gmap string CacheEntry :=
  match key with
  | Some k => if decide (k = "") then ∅ else delete k cache
  | None => ∅
  end.

Definition getAge (cache : gmap string CacheEntry) (now : Z) (key : string) : option Z :=
  match cache !! key with
  | None => None
  | Some entry => Some (now - timestamp entry)
  end.

Definition FRESHNESS_THRESHOLDS_fresh : Z := 15 * 60 * 1000.
Definition FRESHNESS_THRESHOLDS_yellow : Z := 30 * 60 * 1000.
Definition FRESHNESS_THRESHOLDS_orange : Z := 60 * 60 * 1000.

Definition getFreshness (cache : gmap string CacheEntry) (now : Z) (key : string)
    : FreshnessLevel :=
  match cache !! key with
  | None => stale_red
  | Some entry =>
      let age := now - timestamp entry in
      if bool_decide (age < FRESHNESS_THRESHOLDS_fresh) then fresh
      else if bool_decide (age < FRESHNESS_THRESHOLDS_yellow) then stale_yellow
      else if bool_decide (age < FRESHNESS_THRESHOLDS_orange) then stale_orange
      else stale_red
  end.

(** [this.cache.size] *)
Definition getSize (cache : gmap string CacheEntry) : Z := Z.of_nat (size cache).

(** Two caches answer every read of a key alike, at any time. *)
Definition sameReads (cache cache' : gmap string CacheEntry) (key : string) : Prop :=
  forall now,
    (get cache' now key).1 = (get cache now key).1
    /\ isValid cache' now key = isValid cache now key
    /\ getAge cache' now key = getAge cache now key
    /\ getFreshness cache' now key = getFreshness cache now key.

End WithData.
Arguments CacheEntry : clear implicits.
End Cache.

(** *** The freshness indicator (components/DataFreshnessIndicator)

    The value [dataFreshness] that the component computes from the
    cache when it renders; the call of [get] in it may evict the entry,
    so the cache after the computation is part of the result. *)

Module DataFreshnessIndicator.
Section WithData.
Context {T : Type}.

Record DataFreshness := mkDataFreshness {
  indicator : FreshnessLevel;
  timestamp : Z;
  ageMinutes : Z
}.

Definition dataFreshness (cache : gmap string (Cache.CacheEntry T)) (now : Z)
    (cacheKey : string) (fallbackTimestamp : option Z)
    : DataFreshness * gmap string (Cache.CacheEntry T) :=
  let freshness := Cache.getFreshness cache now cacheKey in
  let '(cacheEntry, cache) := Cache.get cache now cacheKey in
  match cacheEntry with
  | None =>
      ({| indicator := fresh;
          timestamp := default now fallbackTimestamp;
          ageMinutes := 0 |}, cache)
  | Some cacheEntry =>
      let ageMinutes := (now - Cache.timestamp cacheEntry) / (1000 * 60) in
      ({| indicator := freshness;
          timestamp := Cache.timestamp cacheEntry;
          ageMinutes := ageMinutes |}, cache)
  end.

End WithData.
End DataFreshnessIndicator.

(** ** Rate limiter (services/ratelimit/manager.ts) *)

Module RateLimit.

Definition RATE_LIMIT_CONFIG_maxRequests : Z := 12.
Definition RATE_LIMIT_CONFIG_windowMs : Z := 60 * 60 * 1000.

Record RequestRecord := mkRequestRecord { timestamp : Z }.

Record RateLimiter := mkRateLimiter {
  requests : gmap string (list RequestRecord);
  maxRequests : Z;
  windowMs : Z
}.

Definition with_requests (rl : RateLimiter) (m : gmap string (list RequestRecord))
    : RateLimiter :=
  {| requests := m; maxRequests := maxRequests rl; windowMs := windowMs rl |}.

(** [new RateLimiter(maxRequests, windowMs)] and the exported singleton. *)
Definition new (maxRequests windowMs : Z) : RateLimiter :=
  {| requests := ∅; maxRequests := maxRequests; windowMs := windowMs |}.

Definition rateLimiter : RateLimiter :=
  new RATE_LIMIT_CONFIG_maxRequests RATE_LIMIT_CONFIG_windowMs.

(** [this.requests.get(endpoint) || []] *)
Definition endpointRequests (rl : RateLimiter) (endpoint : string) : list RequestRecord :=
  default [] (requests rl !! endpoint).

Definition cleanupOldRequests (rl : RateLimiter) (now : Z) (endpoint : string)
    : RateLimiter :=
  match requests rl !! endpoint with
  | None => rl
  | Some endpointRequests =>
      let validRequests :=
        filter (λ record, now - timestamp record < windowMs rl) endpointRequests in
      if decide (length validRequests = 0%nat)
      then with_requests rl (delete endpoint (requests rl))
      else with_requests rl (<[endpoint := validRequests]> (requests rl))
  end.

Definition canMakeRequest (rl : RateLimiter) (now : Z) (endpoint : string)
    : bool * RateLimiter :=
  let rl := cleanupOldRequests rl now endpoint in
  let endpointRequests := endpointRequests rl endpoint in
  (bool_decide (Z.of_nat (length endpointRequests) < maxRequests rl), rl).

Definition recordRequest (rl : RateLimiter) (now : Z) (endpoint : string)
    : RateLimiter :=
  let rl := cleanupOldRequests rl now endpoint in
  let endpointRequests := endpointRequests rl endpoint in
  let endpointRequests := endpointRequests ++ [ {| timestamp := now |} ] in
  with_requests rl (<[endpoint := endpointRequests]> (requests rl)).

Definition getRemainingRequests (rl : RateLimiter) (now : Z) (endpoint : string)
    : Z * RateLimiter :=
  let rl := cleanupOldRequests rl now endpoint in
  let endpointRequests := endpointRequests rl endpoint in
  (Z.max 0 (maxRequests rl - Z.of_nat (length endpointRequests)), rl).

(** Message of the [TypeError] raised by reading [timestamp] of
    [undefined]; its text is the engine's. *)
Definition undefined_timestamp_message : string :=
  "Cannot read properties of undefined (reading 'timestamp')".

(** [handleRateLimitError] logs and throws. *)
Definition handleRateLimitError (error : js_error) (operation : string) : js_error :=
  Dashboard {|
    err_type := RATE_LIMIT_ERROR;
    err_message :=
      "Rate limit operation failed: " +:+ operation +:+ " - " +:+ error_message error;
    retryable := false |}.

(** Reading [endpointRequests[0].timestamp] of an empty array throws;
    this needs a limit of zero or less, since the list is only read at
    index 0 when its length is at least the limit. *)
Definition getTimeUntilNextRequest (rl : RateLimiter) (now : Z) (endpoint : string)
    : result Z * RateLimiter :=
  let rl := cleanupOldRequests rl now endpoint in
  let endpointRequests := endpointRequests rl endpoint in
  if bool_decide (Z.of_nat (length endpointRequests) < maxRequests rl) then (Ok 0, rl)
  else
    match endpointRequests !! 0%nat with
    | None =>
        (Throw (handleRateLimitError (JsError undefined_timestamp_message)
                  "getTimeUntilNextRequest"), rl)
    | Some oldestRequest =>
        let timeUntilExpiry := (timestamp oldestRequest + windowMs rl) - now in
        (Ok (Z.max 0 timeUntilExpiry), rl)
    end.

(** [reset(endpoint?)]: an absent or empty endpoint resets every one. *)
Definition reset (rl : RateLimiter) (endpoint : option string) : RateLimiter :=
  match endpoint with
  | Some e =>
      if decide (e = "") then with_requests rl ∅
      else with_requests rl (delete e (requests rl))
  | None => with_requests rl ∅
  end.

(** Two limiters answer every question about an endpoint alike, at any
    time. *)
Definition sameAnswers (rl rl' : RateLimiter) (endpoint : string) : Prop :=
  forall now,
    (canMakeRequest rl' now endpoint).1 = (canMakeRequest rl now endpoint).1
    /\ (getRemainingRequests rl' now endpoint).1
       = (getRemainingRequests rl now endpoint).1
    /\ (getTimeUntilNextRequest rl' now endpoint).1
       = (getTimeUntilNextRequest rl now endpoint).1.

End RateLimit.

(** *** Histories of the rate limiter

    The public methods as calls, each made at one reading of the clock,
    and the states that a sequence of calls reaches from a fresh limiter
    when the clock never runs backwards. *)

Module RateLimitRun.
Import RateLimit.

Inductive call :=
| CanMakeRequest (endpoint : string)
| RecordRequest (endpoint : string)
| GetRemainingRequests (endpoint : string)
| GetTimeUntilNextRequest (endpoint : string)
| Reset (endpoint : option string)
| GetEndpoints.

Definition run (rl : RateLimiter) (now : Z) (c : call) : RateLimiter :=
  match c with
  | CanMakeRequest e => (canMakeRequest rl now e).2
  | RecordRequest e => recordRequest rl now e
  | GetRemainingRequests e => (getRemainingRequests rl now e).2
  | GetTimeUntilNextRequest e => (getTimeUntilNextRequest rl now e).2
  | Reset e => reset rl e
  | GetEndpoints => rl
  end.

(** [reachable max win t rl]: [rl] is the state of a limiter built with
    [new max win] after some calls, the last of them not later than [t]. *)
Inductive reachable (max win : Z) : Z -> RateLimiter -> Prop :=
| reachable_new t : reachable max win t (new max win)
| reachable_call t t' rl c :
    reachable max win t rl -> t <= t' -> reachable max win t' (run rl t' c).

(** [recordRequest] called once for each time of the list, in order. *)
Definition recordAll (rl : RateLimiter) (endpoint : string) (times : list Z)
    : RateLimiter :=
  foldl (λ rl t, recordRequest rl t endpoint) rl times.

(** [ordered now rl]: every list is sorted by time, oldest first, and
    holds no time after [now]. *)
Definition older (a b : RequestRecord) : Prop := timestamp a <= timestamp b.

Definition ordered (now : Z) (rl : RateLimiter) : Prop :=
  forall endpoint l,
    requests rl !! endpoint = Some l ->
    StronglySorted older l /\ Forall (λ record, timestamp record <= now) l.

End RateLimitRun.

(** ** API client (services/api/client.ts)

    One top-level call of [fetchWithRetry] issues at most one request for
    each retry count; [transport n] is what the network does with the
    request issued at retry count [n]: it fails (no response, or the
    timeout aborts the request), or it answers with a status and a body.
    A run is the list of the requests, log entries and pauses, in order,
    with the value returned or the error thrown. *)

Module APIClient.

Record RetryConfig := mkRetryConfig {
  maxRetries : Z;
  initialDelayMs : Z;
  maxDelayMs : Z;
  backoffMultiplier : Z
}.

Definition DEFAULT_RETRY_CONFIG : RetryConfig :=
  {| maxRetries := 3;
     initialDelayMs := 2000;
     maxDelayMs := 30000;
     backoffMultiplier := 2 |}.

Inductive event :=
| Requested (endpoint : string)
| Logged (operation message context : string)
| Slept (ms : Z).

Section WithData.
Context {T : Type}.

(** What [response.json()] finds in the body. *)
Inductive Body :=
| BodyData (data : T)
| BodyNull                           (* [null] *)
| BodyUnparsable (message : string)  (* [json()] rejects *).

Record Response := mkResponse { status : Z; body : Body }.

Inductive FetchOutcome :=
| NetworkFailure (error : js_error)
| Responded (response : Response).

Definition Run : Type := list event * result T.

Definition emit (events : list event) (r : Run) : Run := (events ++ r.1, r.2).

(** [response.ok] *)
Definition ok (response : Response) : bool :=
  bool_decide (200 <= status response) && bool_decide (status response <= 299).

Definition json (b : Body) : result (option T) :=
  match b with
  | BodyData d => Ok (Some d)
  | BodyNull => Ok None
  | BodyUnparsable m => Throw (JsError m)
  end.

(** [validateResponse] throws on [null] and [undefined]; the value that
    passes is the one returned [as T]. *)
Definition validateResponse (data : option T) (endpoint : string) : result T :=
  match data with
  | None =>
      Throw (Dashboard {|
        err_type := VALIDATION_ERROR;
        err_message :=
          "Invalid response from " +:+ endpoint +:+ ": data is null or undefined";
        retryable := false |})
  | Some d => Ok d
  end.

Definition calculateBackoffDelay (cfg : RetryConfig) (retryCount : Z) : Z :=
  let delay := initialDelayMs cfg * backoffMultiplier cfg ^ retryCount in
  Z.min delay (maxDelayMs cfg).

Definition logError (operation : string) (error : js_error) (context : string) : event :=
  Logged operation (error_message error) context.

(** [handleHTTPError]; [retry] stands for the recursive call
    [this.fetchWithRetry(endpoint, options, retryCount + 1)], made only
    under the test [retryCount < maxRetries]. *)
Definition handleHTTPError (cfg : RetryConfig) (response : Response)
    (endpoint : string) (retryCount : Z)
    (retry : retryCount < maxRetries cfg -> Run) : Run :=
  let statusCode := status response in
  let failed : Run :=
    ([], Throw (Dashboard {|
           err_type := API_ERROR;
           err_message :=
             "API request failed with status " +:+ pretty statusCode
               +:+ ": " +:+ endpoint;
           retryable := bool_decide (500 <= statusCode) |})) in
  emit [logError "HTTP Error" (JsError ("HTTP " +:+ pretty statusCode)) endpoint]
    (if bool_decide (500 <= statusCode) && bool_decide (statusCode < 600) then
       match decide (retryCount < maxRetries cfg) with
       | left H => emit [Slept (calculateBackoffDelay cfg retryCount)] (retry H)
       | right _ => failed
       end
     else failed).

Definition handleFetchError (cfg : RetryConfig) (error : js_error)
    (endpoint : string) (retryCount : Z)
    (retry : retryCount < maxRetries cfg -> Run) : Run :=
  emit [logError "Fetch Error" error endpoint]
    match decide (retryCount < maxRetries cfg) with
    | left H => emit [Slept (calculateBackoffDelay cfg retryCount)] (retry H)
    | right _ =>
        let message := error_message error in
        ([], Throw (Dashboard {|
               err_type := NETWORK_ERROR;
               err_message :=
                 "Network request failed after " +:+ pretty retryCount
                   +:+ " retries: " +:+ endpoint +:+ " - " +:+ message;
               retryable := true |}))
    end.

(** [fetchWithRetry].  The promise of [handleHTTPError] is returned
    without [await], so its rejection is not caught by the [catch] of
    this call; what [this.fetch], [response.json()] and
    [validateResponse] throw is caught and goes to [handleFetchError]. *)
Equations? fetchWithRetry (cfg : RetryConfig) (transport : Z -> FetchOutcome)
    (endpoint : string) (retryCount : Z) : Run
    by wf (Z.to_nat (maxRetries cfg - retryCount)) lt :=
  fetchWithRetry cfg transport endpoint retryCount :=
    let retry := fun (H : retryCount < maxRetries cfg) =>
      fetchWithRetry cfg transport endpoint (retryCount + 1) in
    emit [Requested endpoint]
      match transport retryCount with
      | NetworkFailure error =>
          handleFetchError cfg error endpoint retryCount retry
      | Responded response =>
          if negb (ok response) then
            handleHTTPError cfg response endpoint retryCount retry
          else
            match json (body response) with
            | Throw error => handleFetchError cfg error endpoint retryCount retry
            | Ok data =>
                match validateResponse data endpoint with
                | Throw error =>
                    handleFetchError cfg error endpoint retryCount retry
                | Ok data => ([], Ok data)
                end
            end
      end.
Proof. lia. Qed.

(** The number of requests issued in a run, and its pauses. *)
Definition attempts (r : Run) : nat :=
  length (omap (λ e, match e with Requested endpoint => Some endpoint | _ => None end) r.1).

Definition pauses (r : Run) : list Z :=
  omap (λ e, match e with Slept ms => Some ms | _ => None end) r.1.

(** An outcome after which [fetchWithRetry] tries again while retries
    are left: no response, a 5xx status, or a success status with a
    body that does not parse or is [null]. *)
Definition transient (outcome : FetchOutcome) : Prop :=
  match outcome with
  | NetworkFailure _ => True
  | Responded response =>
      500 <= status response < 600
      \/ (ok response = true /\ forall data, body response ≠ BodyData data)
  end.

(** How a run ends, in terms of the request that it issued last, the
    one of retry count [last]: a value returned is the body of the
    response to that request; an error thrown is a [NETWORK_ERROR] when
    no retry was left, or an [API_ERROR] for the status of the response
    to that request, a 5xx status only when no retry was left. *)
Definition endsWith (cfg : RetryConfig) (transport : Z -> FetchOutcome)
    (last : Z) (r : Run) : Prop :=
  match r.2 with
  | Ok data =>
      exists response,
        transport last = Responded response
        /\ ok response = true /\ body response = BodyData data
  | Throw e =>
      exists d,
        e = Dashboard d
        /\ ((err_type d = NETWORK_ERROR /\ retryable d = true
             /\ maxRetries cfg <= last)
            \/ (err_type d = API_ERROR
                /\ exists response,
                     transport last = Responded response
                     /\ ok response = false
                     /\ retryable d = bool_decide (500 <= status response)
                     /\ (status response < 500 \/ 600 <= status response
                         \/ maxRetries cfg <= last)))
  end.

(** The shape of a run that started at [retryCount]: at least one
    request; the pauses are the backoff delays of the retry counts from
    [retryCount] on, one before each further request; and the end is
    that of the last request. *)
Definition shaped (cfg : RetryConfig) (transport : Z -> FetchOutcome)
    (retryCount : Z) (r : Run) : Prop :=
  (1 <= attempts r)%nat
  /\ pauses r =
       ((λ i : nat, calculateBackoffDelay cfg (retryCount + Z.of_nat i))
          <$> seq 0 (attempts r - 1))
  /\ endsWith cfg transport (retryCount + Z.of_nat (attempts r) - 1) r.

End WithData.
Arguments Body : clear implicits.
Arguments Response : clear implicits.
Arguments FetchOutcome : clear implicits.
Arguments Run : clear implicits.
End APIClient.

(** ** Data provider (contexts/DataContext.tsx)

    [fetchWithCacheAndRateLimit] runs its first part at time [now]; if it
    awaits [fetchFn], the rest runs at time [later], when the promise has
    settled.  The cache and the limiter are the two singletons. *)

Module DataContext.

Section WithData.
Context {T : Type}.
(** Truthiness of a payload, for [cached?.data || null]. *)
Variable truthy : T -> bool.

Record Services := mkServices {
  cacheManager : gmap string (Cache.CacheEntry T);
  rateLimiter : RateLimit.RateLimiter
}.

(** How the promise of [fetchFn()] settles. *)
Inductive Settled :=
| Fulfilled (data : T)
| Rejected (err : js_error).

(** The result is [Ok (Some data)], [Ok None] for [null], or the error
    thrown to the caller. *)
Definition fetchWithCacheAndRateLimit (s : Services) (now later : Z)
    (endpoint : string) (fetchFn : Settled) (ttl : Z)
    : result (option T) * Services :=
  let '(cached, cache) := Cache.get (cacheManager s) now endpoint in
  if bool_decide (is_Some cached) && Cache.isValid cache now endpoint then
    (Ok (Cache.data <$> cached),
     {| cacheManager := cache; rateLimiter := rateLimiter s |})
  else
    let '(allowed, limiter) :=
      RateLimit.canMakeRequest (rateLimiter s) now endpoint in
    if negb allowed then
      (Ok match cached with
          | Some entry =>
              if truthy (Cache.data entry) then Some (Cache.data entry) else None
          | None => None
          end,
       {| cacheManager := cache; rateLimiter := limiter |})
    else
      match fetchFn with
      | Fulfilled data =>
          let limiter := RateLimit.recordRequest limiter later endpoint in
          let cache := Cache.set cache later endpoint data ttl in
          (Ok (Some data), {| cacheManager := cache; rateLimiter := limiter |})
      | Rejected err =>
          let '(cached, cache) := Cache.get cache later endpoint in
          match cached with
          | Some entry =>
              (Ok (Some (Cache.data entry)),
               {| cacheManager := cache; rateLimiter := limiter |})
          | None =>
              (Throw err, {| cacheManager := cache; rateLimiter := limiter |})
          end
      end.

(** No endpoint has more requests on record than the limiter allows. *)
Definition withinLimit (s : Services) : Prop :=
  forall endpoint,
    Z.of_nat (length (RateLimit.endpointRequests (rateLimiter s) endpoint))
    <= RateLimit.maxRequests (rateLimiter s).

End WithData.
Arguments Services : clear implicits.
Arguments Settled : clear implicits.
End DataContext.

(** ** Storage manager (services/storage/manager.ts)

    [localStorage] is modelled for the four keys of the manager.  The
    text stored under a key is either the serialisation of a
    [StoredData] record of the type that the manager writes under that
    key, or a text that [JSON.parse] rejects.  The host may refuse a kind
    of call (reading, writing, removing) with a [DOMException]. *)

Module Storage.

Record SavedRoute := mkSavedRoute {
  id : string;
  source : string;
  destination : string;
  savedAt : Z
}.

Record ChecklistState := mkChecklistState {
  items : gmap string bool;
  lastUpdated : Z
}.

Inductive Language := en | ta.

Definition STORAGE_CONFIG_maxAgeMs : Z := 30 * 24 * 60 * 60 * 1000.
Definition STORAGE_CONFIG_maxSizeBytes : Z := 5 * 1024 * 1024.

Inductive StorageKey :=
| LAST_CYCLONE
| SAVED_ROUTES
| CHECKLIST_STATE
| LANGUAGE_PREFERENCE.

#[global] Instance StorageKey_eq_dec : EqDecision StorageKey.
Proof. solve_decision. Defined.

Definition STORAGE_KEYS (key : StorageKey) : string :=
  match key with
  | LAST_CYCLONE => "cyclone_last_viewed"
  | SAVED_ROUTES => "cyclone_saved_routes"
  | CHECKLIST_STATE => "cyclone_checklist_state"
  | LANGUAGE_PREFERENCE => "cyclone_language_preference"
  end.

(** [Object.values(STORAGE_KEYS)], in the order of the declaration. *)
Definition STORAGE_KEYS_values : list StorageKey :=
  [LAST_CYCLONE; SAVED_ROUTES; CHECKLIST_STATE; LANGUAGE_PREFERENCE].

(** The type of the data that the manager writes under each key. *)
Definition payload (key : StorageKey) : Type :=
  match key with
  | LAST_CYCLONE => string
  | SAVED_ROUTES => list SavedRoute
  | CHECKLIST_STATE => ChecklistState
  | LANGUAGE_PREFERENCE => Language
  end.

Record StoredData (A : Type) := mkStoredData {
  data : A;
  timestamp : Z
}.
Arguments mkStoredData {A} data timestamp.
Arguments data {A} s.
Arguments timestamp {A} s.

(** A stored text: [Written stored] is [JSON.stringify(stored)];
    [Unparsable n message] is a text of [n] characters on which
    [JSON.parse] throws a [SyntaxError] with that message. *)
Inductive Item (A : Type) :=
| Written (stored : StoredData A)
| Unparsable (text_length : N) (message : string).
Arguments Written {A} stored.
Arguments Unparsable {A} text_length message.

Inductive HostCall := GetItem | SetItem | RemoveItem.

Record LocalStorage := mkLocalStorage {
  last_cyclone : option (Item string);
  saved_routes : option (Item (list SavedRoute));
  checklist_state : option (Item ChecklistState);
  language_preference : option (Item Language);
  (** the message of the exception with which a kind of call is refused *)
  refuses : HostCall -> option string
}.

Definition slot (ls : LocalStorage) (key : StorageKey) : option (Item (payload key)) :=
  match key with
  | LAST_CYCLONE => last_cyclone ls
  | SAVED_ROUTES => saved_routes ls
  | CHECKLIST_STATE => checklist_state ls
  | LANGUAGE_PREFERENCE => language_preference ls
  end.

Definition put (ls : LocalStorage) (key : StorageKey)
    : option (Item (payload key)) -> LocalStorage :=
  match key with
  | LAST_CYCLONE => λ v,
      {| last_cyclone := v; saved_routes := saved_routes ls;
         checklist_state := checklist_state ls;
         language_preference := language_preference ls; refuses := refuses ls |}
  | SAVED_ROUTES => λ v,
      {| last_cyclone := last_cyclone ls; saved_routes := v;
         checklist_state := checklist_state ls;
         language_preference := language_preference ls; refuses := refuses ls |}
  | CHECKLIST_STATE => λ v,
      {| last_cyclone := last_cyclone ls; saved_routes := saved_routes ls;
         checklist_state := v;
         language_preference := language_preference ls; refuses := refuses ls |}
  | LANGUAGE_PREFERENCE => λ v,
      {| last_cyclone := last_cyclone ls; saved_routes := saved_routes ls;
         checklist_state := checklist_state ls;
         language_preference := v; refuses := refuses ls |}
  end.

(** The state that the manager acts on: the storage and the console. *)
Record World := mkWorld {
  localStorage : LocalStorage;
  console : list string
}.

(** Computations that read and change the world and may throw; what
    was changed before a throw stays changed. *)
Definition M (A : Type) : Type := World -> result A * World.

#[global] Instance M_ret : MRet M := λ A a w, (Ok a, w).
#[global] Instance M_bind : MBind M := λ A B f m w,
  match m w with
  | (Ok a, w') => f a w'
  | (Throw e, w') => (Throw e, w')
  end.

Definition throw {A} (e : js_error) : M A := λ w, (Throw e, w).

(** [try { m } catch (error) { handler error }] *)
Definition try_catch {A} (m : M A) (handler : js_error -> M A) : M A := λ w,
  match m w with
  | (Ok a, w') => (Ok a, w')
  | (Throw e, w') => handler e w'
  end.

Definition console_error (line : string) : M unit := λ w,
  (Ok tt, {| localStorage := localStorage w; console := console w ++ [line] |}).

Definition getItem (key : StorageKey) : M (option (Item (payload key))) := λ w,
  match refuses (localStorage w) GetItem with
  | Some message => (Throw (JsError message), w)
  | None => (Ok (slot (localStorage w) key), w)
  end.

Definition setItem (key : StorageKey) (value : Item (payload key)) : M unit := λ w,
  match refuses (localStorage w) SetItem with
  | Some message => (Throw (JsError message), w)
  | None =>
      (Ok tt, {| localStorage := put (localStorage w) key (Some value);
                 console := console w |})
  end.

Definition removeItem (key : StorageKey) : M unit := λ w,
  match refuses (localStorage w) RemoveItem with
  | Some message => (Throw (JsError message), w)
  | None =>
      (Ok tt, {| localStorage := put (localStorage w) key None;
                 console := console w |})
  end.

Section WithSerializer.
(** [JSON_length key stored] is the number of characters of
    [JSON.stringify(stored)]. *)
Variable JSON_length : forall key, StoredData (payload key) -> N.

(** [item.length] *)
Definition item_length {key} (item : Item (payload key)) : N :=
  match item with
  | Written stored => JSON_length key stored
  | Unparsable n _ => n
  end.

(** [!item] for a string: the empty text. *)
Definition falsy {key} (item : Item (payload key)) : bool :=
  bool_decide (item_length item = 0%N).

Definition JSON_parse {A} (item : Item A) : M (StoredData A) :=
  match item with
  | Written stored => mret stored
  | Unparsable _ message => throw (JsError message)
  end.

(** The line that [handleStorageError] logs and the error that it
    throws, for an operation and the error that it caught. *)
Definition storageLogLine (operation : string) (error : js_error) : string :=
  let message := error_message error in
  "StorageManager." +:+ operation +:+ " error: " +:+ message.

Definition storageError (operation : string) (error : js_error) : js_error :=
  let message := error_message error in
  Dashboard {|
    err_type := STORAGE_ERROR;
    err_message :=
      "Storage operation failed: " +:+ operation +:+ " - " +:+ message;
    retryable := false |}.

(** [handleStorageError] logs the message and throws. *)
Definition handleStorageError {A} (error : js_error) (operation : string) : M A :=
  console_error (storageLogLine operation error) ;;
  throw (storageError operation error).

Definition isExpired (now timestamp maxAge : Z) : bool :=
  bool_decide (now - timestamp > maxAge).

Definition deleteItem (key : StorageKey) : M unit :=
  try_catch (removeItem key) (λ error, handleStorageError error "deleteItem").

Definition saveLastCyclone (now : Z) (cycloneId : string) : M unit :=
  try_catch
    (let stored := {| data := cycloneId; timestamp := now |} in
     setItem LAST_CYCLONE (Written stored))
    (λ error, handleStorageError error "saveLastCyclone").

Definition getLastCyclone (now : Z) : M (option string) :=
  try_catch
    (item ← getItem LAST_CYCLONE;
     match item with
     | None => mret None
     | Some item =>
         if falsy (key := LAST_CYCLONE) item then mret None
         else
           stored ← JSON_parse item;
           if isExpired now (timestamp stored) STORAGE_CONFIG_maxAgeMs then
             deleteItem LAST_CYCLONE ;; mret None
           else mret (Some (data stored))
     end)
    (λ error, handleStorageError error "getLastCyclone").

Definition getSavedRoutes (now : Z) : M (list SavedRoute) :=
  try_catch
    (item ← getItem SAVED_ROUTES;
     match item with
     | None => mret []
     | Some item =>
         if falsy (key := SAVED_ROUTES) item then mret []
         else
           stored ← JSON_parse item;
           if isExpired now (timestamp stored) STORAGE_CONFIG_maxAgeMs then
             deleteItem SAVED_ROUTES ;; mret []
           else mret (data stored)
     end)
    (λ error, handleStorageError error "getSavedRoutes").

(** [getStorageSize]: the loop over the keys, with the running total. *)
Fixpoint sumSizes (keys : list StorageKey) (totalSize : Z) : M Z :=
  match keys with
  | [] => mret totalSize
  | key :: keys =>
      item ← getItem key;
      match item with
      | Some item =>
          if falsy item then sumSizes keys totalSize
          else sumSizes keys (totalSize + Z.of_N (item_length item) * 2)
      | None => sumSizes keys totalSize
      end
  end.

Definition getStorageSize : M Z :=
  try_catch (sumSizes STORAGE_KEYS_values 0)
    (λ error, handleStorageError error "getStorageSize").

(** The entries of the array [items] of [manageStorageQuota]. *)
Record QuotaItem := mkQuotaItem {
  quota_key : StorageKey;
  quota_timestamp : Z;
  quota_size : Z
}.

(** The first loop of [manageStorageQuota]. *)
Fixpoint collectItems (keys : list StorageKey) (items : list QuotaItem)
    : M (list QuotaItem) :=
  match keys with
  | [] => mret items
  | key :: keys =>
      if decide (key = LANGUAGE_PREFERENCE) then collectItems keys items
      else
        item ← getItem key;
        match item with
        | None => collectItems keys items
        | Some item =>
            if falsy item then collectItems keys items
            else
              items ←
                try_catch
                  (stored ← JSON_parse item;
                   mret (items ++ [ {| quota_key := key;
                                       quota_timestamp := timestamp stored;
                                       quota_size := Z.of_N (item_length item) * 2 |} ]))
                  (λ _, removeItem key ;; mret items);
              collectItems keys items
        end
  end.

(** [items.sort((a, b) => a.timestamp - b.timestamp)]: a stable sort. *)
Fixpoint insertByTimestamp (item : QuotaItem) (sorted : list QuotaItem)
    : list QuotaItem :=
  match sorted with
  | [] => [item]
  | other :: rest =>
      if bool_decide (quota_timestamp item <= quota_timestamp other)
      then item :: other :: rest
      else other :: insertByTimestamp item rest
  end.

Definition sortByTimestamp (items : list QuotaItem) : list QuotaItem :=
  foldr insertByTimestamp [] items.

(** The second loop of [manageStorageQuota]. *)
Fixpoint removeOldest (currentSize : Z) (items : list QuotaItem) (removedSize : Z)
    : M unit :=
  match items with
  | [] => mret tt
  | item :: items =>
      if bool_decide (currentSize - removedSize <= STORAGE_CONFIG_maxSizeBytes)
      then mret tt
      else
        removeItem (quota_key item) ;;
        removeOldest currentSize items (removedSize + quota_size item)
  end.

Definition manageStorageQuota : M unit :=
  try_catch
    (currentSize ← getStorageSize;
     if bool_decide (currentSize > STORAGE_CONFIG_maxSizeBytes) then
       items ← collectItems STORAGE_KEYS_values [];
       let items := sortByTimestamp items in
       removeOldest currentSize items 0
     else mret tt)
    (λ error, handleStorageError error "manageStorageQuota").

(** [routes.findIndex(r => r.source === route.source &&
    r.destination === route.destination)] *)
Definition findRoute (route : SavedRoute) (routes : list SavedRoute) : option nat :=
  fst <$> list_find
    (λ r, source r = source route /\ destination r = destination route) routes.

(** The array after [routes[existingIndex] = route] or
    [routes.push(route)]. *)
Definition withRoute (route : SavedRoute) (routes : list SavedRoute) : list SavedRoute :=
  let existingIndex := findRoute route routes in
  match existingIndex with
  | Some existingIndex => <[existingIndex := route]> routes
  | None => routes ++ [route]
  end.

Definition saveRoute (now : Z) (route : SavedRoute) : M unit :=
  try_catch
    (routes ← getSavedRoutes now;
     let routes := withRoute route routes in
     let stored := {| data := routes; timestamp := now |} in
     setItem SAVED_ROUTES (Written stored) ;;
     manageStorageQuota)
    (λ error, handleStorageError error "saveRoute").

Definition deleteRoute (now : Z) (routeId : string) : M unit :=
  try_catch
    (routes ← getSavedRoutes now;
     let filteredRoutes := filter (λ r, id r ≠ routeId) routes in
     let stored := {| data := filteredRoutes; timestamp := now |} in
     setItem SAVED_ROUTES (Written stored))
    (λ error, handleStorageError error "deleteRoute").

Definition saveChecklistState (now : Z) (state : ChecklistState) : M unit :=
  try_catch
    (let stored := {| data := state; timestamp := now |} in
     setItem CHECKLIST_STATE (Written stored) ;;
     manageStorageQuota)
    (λ error, handleStorageError error "saveChecklistState").

(** [{ items: {}, lastUpdated: new Date() }] *)
Definition defaultChecklistState (now : Z) : ChecklistState :=
  {| items := ∅; lastUpdated := now |}.

Definition getChecklistState (now : Z) : M ChecklistState :=
  try_catch
    (item ← getItem CHECKLIST_STATE;
     match item with
     | None => mret (defaultChecklistState now)
     | Some item =>
         if falsy (key := CHECKLIST_STATE) item then mret (defaultChecklistState now)
         else
           stored ← JSON_parse item;
           if isExpired now (timestamp stored) STORAGE_CONFIG_maxAgeMs then
             deleteItem CHECKLIST_STATE ;; mret (defaultChecklistState now)
           else mret (data stored)
     end)
    (λ error, handleStorageError error "getChecklistState").

Definition saveLanguagePreference (now : Z) (lang : Language) : M unit :=
  try_catch
    (let stored := {| data := lang; timestamp := now |} in
     setItem LANGUAGE_PREFERENCE (Written stored))
    (λ error, handleStorageError error "saveLanguagePreference").

Definition getLanguagePreference : M (option Language) :=
  try_catch
    (item ← getItem LANGUAGE_PREFERENCE;
     match item with
     | None => mret None
     | Some item =>
         if falsy (key := LANGUAGE_PREFERENCE) item then mret None
         else
           stored ← JSON_parse item;
           mret (Some (data stored))
     end)
    (λ error, handleStorageError error "getLanguagePreference").

(** *** The public operations as calls *)

Inductive call :=
| SaveLastCyclone (cycloneId : string)
| GetLastCyclone
| SaveRoute (route : SavedRoute)
| GetSavedRoutes
| DeleteRoute (routeId : string)
| SaveChecklistState (state : ChecklistState)
| GetChecklistState
| SaveLanguagePreference (lang : Language)
| GetLanguagePreference.

Inductive answer :=
| Done                                   (* [void] *)
| CycloneId (cycloneId : option string)
| Routes (routes : list SavedRoute)
| Checklist (state : ChecklistState)
| Lang (lang : option Language).

Definition invoke (now : Z) (c : call) : M answer :=
  match c with
  | SaveLastCyclone cycloneId => saveLastCyclone now cycloneId ;; mret Done
  | GetLastCyclone => cycloneId ← getLastCyclone now; mret (CycloneId cycloneId)
  | SaveRoute route => saveRoute now route ;; mret Done
  | GetSavedRoutes => routes ← getSavedRoutes now; mret (Routes routes)
  | DeleteRoute routeId => deleteRoute now routeId ;; mret Done
  | SaveChecklistState state => saveChecklistState now state ;; mret Done
  | GetChecklistState => state ← getChecklistState now; mret (Checklist state)
  | SaveLanguagePreference lang => saveLanguagePreference now lang ;; mret Done
  | GetLanguagePreference => lang ← getLanguagePreference; mret (Lang lang)
  end.

(** The name under which a call reports its errors. *)
Definition operationName (c : call) : string :=
  match c with
  | SaveLastCyclone _ => "saveLastCyclone"
  | GetLastCyclone => "getLastCyclone"
  | SaveRoute _ => "saveRoute"
  | GetSavedRoutes => "getSavedRoutes"
  | DeleteRoute _ => "deleteRoute"
  | SaveChecklistState _ => "saveChecklistState"
  | GetChecklistState => "getChecklistState"
  | SaveLanguagePreference _ => "saveLanguagePreference"
  | GetLanguagePreference => "getLanguagePreference"
  end.

(** The first call that an operation makes to the host. *)
Definition firstHostCall (c : call) : HostCall :=
  match c with
  | SaveLastCyclone _ | SaveChecklistState _ | SaveLanguagePreference _ => SetItem
  | _ => GetItem
  end.

(** The key whose text an operation parses, if it parses one. *)
Definition parsedKey (c : call) : option StorageKey :=
  match c with
  | GetLastCyclone => Some LAST_CYCLONE
  | GetSavedRoutes | SaveRoute _ | DeleteRoute _ => Some SAVED_ROUTES
  | GetChecklistState => Some CHECKLIST_STATE
  | GetLanguagePreference => Some LANGUAGE_PREFERENCE
  | _ => None
  end.

(** The empty or default result of a call: [null], the empty list, the
    default checklist state. *)
Definition defaultAnswer (now : Z) (c : call) : answer :=
  match c with
  | GetLastCyclone => CycloneId None
  | GetSavedRoutes => Routes []
  | GetChecklistState => Checklist (defaultChecklistState now)
  | GetLanguagePreference => Lang None
  | _ => Done
  end.

(** A call absorbs a failure when it returns its empty or default
    result instead of throwing. *)
Definition absorbsFailure (now : Z) (c : call) (w : World) : Prop :=
  (invoke now c w).1 = Ok (defaultAnswer now c).

(** *** Vocabulary for the quota *)

(** The host accepts every call. *)
Definition cooperative (ls : LocalStorage) : Prop :=
  forall c, refuses ls c = None.

(** Every text under an evictable key is empty or parses. *)
Definition parseable (ls : LocalStorage) : Prop :=
  forall key n message,
    key ≠ LANGUAGE_PREFERENCE ->
    slot ls key = Some (Unparsable n message) -> n = 0%N.

(** The bytes that a key contributes to [getStorageSize]. *)
Definition slotSize (ls : LocalStorage) (key : StorageKey) : Z :=
  match slot ls key with
  | Some item => Z.of_N (item_length item) * 2
  | None => 0
  end.

Definition slotSizes (ls : LocalStorage) (keys : list StorageKey) : Z :=
  foldr (λ key total, slotSize ls key + total) 0 keys.

Definition totalSize (ls : LocalStorage) : Z :=
  slotSizes ls STORAGE_KEYS_values.

(** The entry that the first loop of [manageStorageQuota] makes for a
    key: none for the language preference, for an absent or empty text,
    and for a text that does not parse. *)
Definition quotaItemOf (ls : LocalStorage) (key : StorageKey) : option QuotaItem :=
  if decide (key = LANGUAGE_PREFERENCE) then None
  else
    match slot ls key with
    | Some item =>
        if falsy item then None
        else
          match item with
          | Written stored =>
              Some {| quota_key := key;
                      quota_timestamp := timestamp stored;
                      quota_size := Z.of_N (item_length item) * 2 |}
          | Unparsable _ _ => None
          end
    | None => None
    end.

Definition candidates (ls : LocalStorage) : list QuotaItem :=
  omap (quotaItemOf ls) STORAGE_KEYS_values.

Definition removeKeys (ls : LocalStorage) (keys : list StorageKey) : LocalStorage :=
  foldl (λ ls key, put ls key None) ls keys.

Definition sizeOf (items : list QuotaItem) : Z :=
  foldr (λ item total, quota_size item + total) 0 items.

Definition olderItem (a b : QuotaItem) : Prop :=
  quota_timestamp a <= quota_timestamp b.

(** From [ls] to [ls'] nothing was written: the host behaves as before,
    the language preference is as before, and every other text is as
    before or gone. *)
Definition onlyDeletes (ls ls' : LocalStorage) : Prop :=
  refuses ls' = refuses ls
  /\ slot ls' LANGUAGE_PREFERENCE = slot ls LANGUAGE_PREFERENCE
  /\ forall key, slot ls' key = slot ls key \/ slot ls' key = None.

(** A computation that, whatever it returns or throws, only deletes. *)
Definition deleting {A} (m : M A) : Prop :=
  forall w, onlyDeletes (localStorage w) (localStorage (m w).2).

(** One eviction, from [ls] to [ls'], described by what was removed:
    the entries of the evictable records, oldest first, split into those
    removed and those kept; each removal was made while the total still
    exceeded the quota; and the removals stop when the total is within
    the quota or nothing evictable is left. *)
Definition evictsOldestFirst (ls ls' : LocalStorage) : Prop :=
  exists removed kept,
    sortByTimestamp (candidates ls) = removed ++ kept
    /\ StronglySorted olderItem (removed ++ kept)
    /\ ls' = removeKeys ls (quota_key <$> removed)
    /\ totalSize ls' = totalSize ls - sizeOf removed
    /\ (forall before item after,
          removed = before ++ item :: after ->
          totalSize ls - sizeOf before > STORAGE_CONFIG_maxSizeBytes)
    /\ (kept = [] \/ totalSize ls' <= STORAGE_CONFIG_maxSizeBytes).

(** The ninth testable property of the design, on the states before
    and after an eviction: the language preference stays; a record is
    kept as it is or deleted; deleted records are not newer than kept
    ones; the eviction ends within the quota unless nothing evictable is
    left; and it does not go on once the quota is met, so that keeping
    the last record deleted would exceed the quota. *)
Definition quotaProperty (ls ls' : LocalStorage) : Prop :=
  slot ls' LANGUAGE_PREFERENCE = slot ls LANGUAGE_PREFERENCE
  /\ (forall key, slot ls' key = slot ls key \/ slot ls' key = None)
  /\ (forall key key' stored stored',
        slot ls key = Some (Written stored) -> slot ls' key = None ->
        slot ls' key' = Some (Written stored') ->
        key' ≠ LANGUAGE_PREFERENCE ->
        0 < slotSize ls key -> 0 < slotSize ls key' ->
        timestamp stored <= timestamp stored')
  /\ (totalSize ls' <= STORAGE_CONFIG_maxSizeBytes
      \/ forall key, key ≠ LANGUAGE_PREFERENCE -> slotSize ls' key = 0)
  /\ ((exists key, slot ls key ≠ None /\ slot ls' key = None) ->
      exists key, slot ls key ≠ None /\ slot ls' key = None
                  /\ totalSize ls' + slotSize ls key > STORAGE_CONFIG_maxSizeBytes).

(** *** Clearing *)

(** The loop of [clearOldData].  The inner [try] covers the parsing
    and the removal of an expired record; its [catch] removes the
    record. *)
Fixpoint clearOld (now maxAgeMs : Z) (keys : list StorageKey) : M unit :=
  match keys with
  | [] => mret tt
  | key :: keys =>
      if decide (key = LANGUAGE_PREFERENCE) then clearOld now maxAgeMs keys
      else
        item ← getItem key;
        match item with
        | None => clearOld now maxAgeMs keys
        | Some item =>
            if falsy item then clearOld now maxAgeMs keys
            else
              try_catch
                (stored ← JSON_parse item;
                 if isExpired now (timestamp stored) maxAgeMs
                 then removeItem key
                 else mret tt)
                (λ _, removeItem key) ;;
              clearOld now maxAgeMs keys
        end
  end.

(** [clearOldData(maxAgeMs = STORAGE_CONFIG.maxAgeMs)] *)
Definition clearOldData (now : Z) (maxAgeMs : option Z) : M unit :=
  let maxAgeMs := default STORAGE_CONFIG_maxAgeMs maxAgeMs in
  try_catch (clearOld now maxAgeMs STORAGE_KEYS_values)
    (λ error, handleStorageError error "clearOldData").

(** What [clearOldData] leaves of a stored text: nothing of a record
    that is expired and of a text that is not empty and does not parse,
    and the text as it is otherwise. *)
Definition swept {A} (now maxAgeMs : Z) (item : option (Item A)) : option (Item A) :=
  match item with
  | Some (Written stored) =>
      if isExpired now (timestamp stored) maxAgeMs then None else item
  | Some (Unparsable n _) => if decide (n = 0%N) then item else None
  | None => None
  end.

(** The loop of [clearAll]. *)
Fixpoint removeAll (keys : list StorageKey) : M unit :=
  match keys with
  | [] => mret tt
  | key :: keys => removeItem key ;; removeAll keys
  end.

Definition clearAll : M unit :=
  try_catch (removeAll STORAGE_KEYS_values)
    (λ error, handleStorageError error "clearAll").

(** *** The language of the interface (contexts/LanguageContext.tsx)

    [navigator] is absent outside a browser; its [language] and the
    older [userLanguage] may each be missing. *)

Record Navigator := mkNavigator {
  language : option string;
  userLanguage : option string
}.

(** Truthiness of a string that may be [undefined]. *)
Definition truthyString (s : option string) : bool :=
  match s with
  | Some s => negb (String.eqb s "")
  | None => false
  end.

Definition detectBrowserLanguage (navigator : option Navigator) : Language :=
  match navigator with
  | None => en
  | Some navigator =>
      let browserLang :=
        if truthyString (language navigator) then language navigator
        else userLanguage navigator in
      match browserLang with
      | Some lang =>
          if truthyString browserLang
             && (String.prefix "ta" lang || String.eqb lang "ta-IN")
          then ta
          else en
      | None => en
      end
  end.

(** The initial state of [LanguageProvider]. *)
Definition initialLanguage (navigator : option Navigator) : M Language :=
  savedLanguage ← getLanguagePreference;
  match savedLanguage with
  | Some savedLanguage => mret savedLanguage
  | None => mret (detectBrowserLanguage navigator)
  end.

(** [setLanguage] of the provider, as far as the storage goes. *)
Definition setLanguage (now : Z) (lang : Language) : M unit :=
  saveLanguagePreference now lang.

(** *** Sessions

    The public methods of the class are the nine calls above,
    [clearOldData], [clearAll] and [getStorageSize].  A session is a
    sequence of them, each at its time.  A method that throws leaves the
    storage as it has made it, and the session goes on with the next
    one. *)

Inductive operation :=
| Call (c : call)
| ClearOldData (maxAgeMs : option Z)
| ClearAll
| GetStorageSize.

Definition perform (now : Z) (op : operation) : M unit :=
  match op with
  | Call c => invoke now c ;; mret tt
  | ClearOldData maxAgeMs => clearOldData now maxAgeMs
  | ClearAll => clearAll
  | GetStorageSize => getStorageSize ;; mret tt
  end.

(** The two methods that write or remove the language preference. *)
Definition touchesLanguage (op : operation) : bool :=
  match op with
  | Call (SaveLanguagePreference _) | ClearAll => true
  | _ => false
  end.

Definition session (ops : list (Z * operation)) (w : World) : World :=
  foldl (λ w op, (perform op.1 op.2 w).2) w ops.

(** A computation that leaves the language preference alone, and the
    host as willing as before. *)
Definition sparesLanguage {A} (m : M A) : Prop :=
  forall w,
    refuses (localStorage (m w).2) = refuses (localStorage w)
    /\ slot (localStorage (m w).2) LANGUAGE_PREFERENCE
       = slot (localStorage w) LANGUAGE_PREFERENCE.

End WithSerializer.
End Storage.

(** *** Sample states of the storage

    A length for the serialised records, close to what [JSON.stringify]
    produces for them, and three states used in the examples. *)

Module StorageSamples.
Import Storage.

Definition sampleLength (key : StorageKey) : StoredData (payload key) -> N :=
  match key with
  | LAST_CYCLONE => λ stored,
      (37 + N.of_nat (String.length (data stored)))%N
  | SAVED_ROUTES => λ stored,
      foldr (λ route total,
               (86 + N.of_nat (String.length (id route)
                               + String.length (source route)
                               + String.length (destination route))
                + total)%N)
            37%N (data stored)
  | CHECKLIST_STATE => λ stored,
      (90 + 24 * N.of_nat (size (items (data stored))))%N
  | LANGUAGE_PREFERENCE => λ _, 39%N
  end.

Definition accepting : HostCall -> option string := λ _, None.

Definition chennaiToMadurai : SavedRoute :=
  {| id := "r1"; source := "Chennai"; destination := "Madurai"; savedAt := 4000 |}.

Definition chennaiToSalem : SavedRoute :=
  {| id := "r2"; source := "Chennai"; destination := "Salem"; savedAt := 5000 |}.

(** Two texts of 1.5 million characters that do not parse, no routes,
    and the language preference. *)
Definition damaged : World :=
  {| localStorage :=
       {| last_cyclone := Some (Unparsable 1500000 "Unexpected token");
          saved_routes := None;
          checklist_state := Some (Unparsable 1500000 "Unexpected end of JSON input");
          language_preference := Some (Written {| data := ta; timestamp := 1000 |});
          refuses := accepting |};
     console := [] |}.

(** The state [damaged] right after the route [chennaiToSalem] has been
    written at time 5000, before the quota is looked at. *)
Definition damagedWithRoute : World :=
  {| localStorage :=
       put (localStorage damaged) SAVED_ROUTES
         (Some (Written {| data := [chennaiToSalem]; timestamp := 5000 |}));
     console := [] |}.

(** Every text parses; the routes record, with thirty thousand routes,
    is larger than the quota by itself. *)
Definition crowded : World :=
  {| localStorage :=
       {| last_cyclone := Some (Written {| data := "Fengal"; timestamp := 1000 |});
          saved_routes :=
            Some (Written {| data := replicate (Z.to_nat 30000) chennaiToMadurai;
                             timestamp := 3000 |});
          checklist_state :=
            Some (Written {| data := {| items := {[ "torch" := true ]};
                                        lastUpdated := 2000 |};
                             timestamp := 2000 |});
          language_preference := Some (Written {| data := en; timestamp := 1000 |});
          refuses := accepting |};
     console := [] |}.

(** A small state in which every text parses. *)
Definition tidy : World :=
  {| localStorage :=
       {| last_cyclone := Some (Written {| data := "Fengal"; timestamp := 1000 |});
          saved_routes :=
            Some (Written {| data := [chennaiToMadurai]; timestamp := 4000 |});
          checklist_state := None;
          language_preference := Some (Written {| data := en; timestamp := 1000 |});
          refuses := accepting |};
     console := [] |}.

(** The state [tidy] with a routes text that does not parse. *)
Definition garbled : World :=
  {| localStorage :=
       put (localStorage tidy) SAVED_ROUTES (Some (Unparsable 17 "Unexpected token"));
     console := [] |}.

(** The state [tidy] on a host that refuses every call, as a browser
    does when access to the storage is denied. *)
Definition denied : World :=
  {| localStorage :=
       {| last_cyclone := last_cyclone (localStorage tidy);
          saved_routes := saved_routes (localStorage tidy);
          checklist_state := checklist_state (localStorage tidy);
          language_preference := language_preference (localStorage tidy);
          refuses := λ _, Some "The operation is insecure." |};
     console := [] |}.

End StorageSamples.

(** * Part II. Properties *)

(** ** Properties of the severity scorer *)

Module SeverityFacts.
Import Severity.
Local Open Scope Q_scope.
Local Set Warnings "-inexact-float".

Lemma Qltb_true (a b : Q) : Qltb a b = true <-> a < b.
Proof.
  unfold Qltb. rewrite negb_true_iff, <- not_true_iff_false, Qle_bool_iff.
  split; [apply Qnot_le_lt | apply Qlt_not_le].
Qed.

Lemma Qltb_false (a b : Q) : Qltb a b = false <-> b <= a.
Proof.
  unfold Qltb. rewrite negb_false_iff. apply Qle_bool_iff.
Qed.

(** Case analysis on a comparison of the source, leaving the
    corresponding order fact in the context. *)
Ltac case_cmp :=
  match goal with
  | |- context [Qltb ?a ?b] =>
      let E := fresh "E" in
      destruct (Qltb a b) eqn:E;
      [apply Qltb_true in E | apply Qltb_false in E]
  | |- context [Qle_bool ?a ?b] =>
      let E := fresh "E" in
      destruct (Qle_bool a b) eqn:E;
      [apply Qle_bool_iff in E
      |apply not_true_iff_false in E; rewrite Qle_bool_iff in E;
       apply Qnot_le_lt in E]
  end.

(** C4, as stated, fails: at the maximal inputs the score is not 10. *)
Lemma maximal_input_score_is_not_ten :
  ~ (score (calculateDistrictSeverity 500 200 high) == 10
     /\ color (calculateDistrictSeverity 500 200 high) = red
     /\ level (calculateDistrictSeverity 500 200 high) = high).
Proof. intros [H _]. vm_compute in H. discriminate H. Qed.

(** C4 (amended): [calculateDistrictSeverity 500 200 high] has score 9.7
    (the weighted sum 0.4*10 + 0.3*10 + 0.3*9, which the clamp to [0,10]
    leaves alone and the rounding to one decimal keeps), color red and
    level high. *)
Theorem maximal_input_severity :
  score (calculateDistrictSeverity 500 200 high) == 97 # 10
  /\ weightedScore 500 200 high == 97 # 10
  /\ color (calculateDistrictSeverity 500 200 high) = red
  /\ level (calculateDistrictSeverity 500 200 high) = high.
Proof. repeat split. Qed.

(** The same evaluation in binary64: the score is the number written
    9.7 and not 10, with rainfall and wind far above their maxima as
    well; the third scenario of the design gives 0.6. *)
Example maximal_input_severity_binary64 :
  let result := SeverityBinary64.calculateDistrictSeverity 500 200 high in
  PrimFloat.eqb (SeverityBinary64.score result) 9.7%float = true
  /\ PrimFloat.eqb (SeverityBinary64.score result) 10%float = false
  /\ SeverityBinary64.color result = red
  /\ SeverityBinary64.level result = high
  /\ PrimFloat.eqb
       (SeverityBinary64.score (SeverityBinary64.calculateDistrictSeverity 0 0 low))
       0.6%float = true
  /\ PrimFloat.eqb
       (SeverityBinary64.score (SeverityBinary64.calculateDistrictSeverity 900 450 high))
       9.7%float = true.
Proof. vm_compute. repeat split. Qed.

End SeverityFacts.

(** ** Further properties of the severity scorer *)

Module SeverityLaws.
Import Severity SeverityFacts.
Local Open Scope Q_scope.

(** X2: [getSeverityColor] and [scoreToRiskLevel] classify every
    score alike, the scores outside the scale included: yellow goes
    with low, orange with moderate and red with high.  So the colour
    and the level of a result of [calculateDistrictSeverity] always
    correspond. *)
Theorem color_matches_level :
  (forall s : Q,
     match getSeverityColor s, scoreToRiskLevel s with
     | yellow, low | orange, moderate | red, high => True
     | _, _ => False
     end)
  /\ (forall (r w : Q) (f : RiskLevel),
        match color (calculateDistrictSeverity r w f),
              level (calculateDistrictSeverity r w f) with
        | yellow, low | orange, moderate | red, high => True
        | _, _ => False
        end).
Proof.
  assert (H : forall s : Q,
             match getSeverityColor s, scoreToRiskLevel s with
             | yellow, low | orange, moderate | red, high => True
             | _, _ => False
             end).
  { intros s. unfold getSeverityColor, scoreToRiskLevel, SCORE_MAX,
      SEVERITY_THRESHOLDS_yellow_max, SEVERITY_THRESHOLDS_orange_max.
    repeat case_cmp; try exact I; lra. }
  split; [exact H |]. intros r w f. apply H.
Qed.

End SeverityLaws.

(** ** Properties of the numbers *)

Module Binary64Facts.
Import Binary64.
Local Open Scope Q_scope.

(** *** Powers of two *)

Lemma pow2_pos (z : Z) : 0 < 2 ^ z.
Proof. by apply Qpower_0_lt. Qed.

Lemma pow2_le (n m : Z) : (n <= m)%Z -> 2 ^ n <= 2 ^ m.
Proof. intros H. by apply Qpower_le_compat_l. Qed.

Lemma pow2_Z (n : Z) : (0 <= n)%Z -> inject_Z (2 ^ n) == 2 ^ n.
Proof. intros H. by rewrite Zpower_Qpower. Qed.

Lemma exponent_spec (x : Q) :
  0 < x -> 2 ^ exponent x <= x /\ x < 2 ^ (exponent x + 1).
Proof.
  intros Hx. destruct x as [n d]. unfold exponent. cbn [Qnum Qden].
  assert (Hn : (0 < n)%Z).
  { unfold Qlt in Hx. cbn in Hx. lia. }
  set (a := Z.log2 n). set (b := Z.log2 (Z.pos d)).
  destruct (Z.log2_spec n Hn) as [Ha1 Ha2]. fold a in Ha1, Ha2.
  destruct (Z.log2_spec (Z.pos d) eq_refl) as [Hb1 Hb2]. fold b in Hb1, Hb2.
  assert (Ha0 : (0 <= a)%Z) by apply Z.log2_nonneg.
  assert (Hb0 : (0 <= b)%Z) by apply Z.log2_nonneg.
  assert (Hx' : n # d == inject_Z n / inject_Z (Z.pos d)) by apply Qmake_Qdiv.
  assert (Hd : 0 < inject_Z (Z.pos d)) by (unfold Qlt; cbn; lia).
  assert (Hlo : 2 ^ (a - b - 1) < n # d).
  { rewrite Hx'. apply Qlt_shift_div_l; [exact Hd |].
    apply Qlt_le_trans with (2 ^ (a - b - 1) * 2 ^ (b + 1)).
    - apply Qmult_lt_l; [apply pow2_pos |].
      rewrite <- pow2_Z by lia. rewrite <- Zlt_Qlt.
      replace (b + 1)%Z with (Z.succ b) by lia. exact Hb2.
    - rewrite <- Qpower_plus by discriminate.
      replace (a - b - 1 + (b + 1))%Z with a by lia.
      rewrite <- pow2_Z by lia. rewrite <- Zle_Qle. exact Ha1. }
  assert (Hhi : n # d < 2 ^ (a - b + 1)).
  { rewrite Hx'. apply Qlt_shift_div_r; [exact Hd |].
    apply Qlt_le_trans with (2 ^ (a + 1)).
    - rewrite <- pow2_Z by lia. rewrite <- Zlt_Qlt.
      replace (a + 1)%Z with (Z.succ a) by lia. exact Ha2.
    - replace (a + 1)%Z with (a - b + 1 + b)%Z by lia.
      rewrite Qpower_plus by discriminate.
      apply Qmult_le_l; [apply pow2_pos |].
      rewrite <- pow2_Z by lia. rewrite <- Zle_Qle. exact Hb1. }
  destruct (Qle_bool (2 ^ (a - b)) (n # d)) eqn:E.
  - apply Qle_bool_iff in E. split; [exact E | exact Hhi].
  - apply not_true_iff_false in E. rewrite Qle_bool_iff in E.
    apply Qnot_le_lt in E. split.
    + by apply Qlt_le_weak.
    + by replace (a - b - 1 + 1)%Z with (a - b)%Z by lia.
Qed.

Lemma exponent_mono (x y : Q) : 0 < x -> x <= y -> (exponent x <= exponent y)%Z.
Proof.
  intros Hx Hxy.
  assert (Hy : 0 < y) by (eapply Qlt_le_trans; [exact Hx | exact Hxy]).
  destruct (exponent_spec x Hx) as [H1 _], (exponent_spec y Hy) as [_ H2].
  assert (exponent x < exponent y + 1)%Z; [| lia].
  apply (Qpower_lt_compat_l_inv 2); [| reflexivity].
  eapply Qle_lt_trans; [exact H1 |]. eapply Qle_lt_trans; [exact Hxy | exact H2].
Qed.

(** *** Rounding to an integer *)

Lemma roundHalfEven_cases (x : Q) :
  let n := Qfloor x in
  (roundHalfEven x = n /\ x - inject_Z n <= 1 # 2
   /\ (x - inject_Z n == 1 # 2 -> Z.even n = true))
  \/ (roundHalfEven x = (n + 1)%Z /\ 1 # 2 <= x - inject_Z n
      /\ (x - inject_Z n == 1 # 2 -> Z.even n = false)).
Proof.
  cbv zeta. unfold roundHalfEven.
  destruct (Qcompare_spec (x - inject_Z (Qfloor x)) (1 # 2)) as [E | E | E].
  - destruct (Z.even (Qfloor x)) eqn:Ev.
    + left. split; [done |]. split; [by rewrite E | done].
    + right. split; [done |]. split; [by rewrite E | done].
  - left. split; [done |]. split; [by apply Qlt_le_weak |].
    intros E'. rewrite E' in E. by apply Qlt_irrefl in E.
  - right. split; [done |]. split; [by apply Qlt_le_weak |].
    intros E'. rewrite E' in E. by apply Qlt_irrefl in E.
Qed.

Lemma roundHalfEven_mono (x y : Q) : x <= y -> (roundHalfEven x <= roundHalfEven y)%Z.
Proof.
  intros Hxy. pose proof (Qfloor_resp_le x y Hxy) as Hf.
  destruct (roundHalfEven_cases x) as [(-> & Hx & Ex) | (-> & Hx & Ex)];
    destruct (roundHalfEven_cases y) as [(-> & Hy & Ey) | (-> & Hy & Ey)];
    try lia.
  destruct (Z.eq_dec (Qfloor x) (Qfloor y)) as [E | NE]; [| lia].
  exfalso. rewrite E in *.
  assert (Ex' : x - inject_Z (Qfloor y) == 1 # 2) by (apply Qle_antisym; lra).
  assert (Ey' : y - inject_Z (Qfloor y) == 1 # 2) by (apply Qle_antisym; lra).
  specialize (Ex Ex'). specialize (Ey Ey'). congruence.
Qed.

Lemma roundHalfEven_Z (k : Z) : roundHalfEven (inject_Z k) = k.
Proof.
  unfold roundHalfEven. rewrite Qfloor_Z.
  assert (E : inject_Z k - inject_Z k == 0) by ring.
  destruct (Qcompare_spec (inject_Z k - inject_Z k) (1 # 2)) as [H | H | H];
    rewrite E in H; try done.
Qed.

Lemma roundHalfEven_le (x : Q) (k : Z) : x <= inject_Z k -> (roundHalfEven x <= k)%Z.
Proof. intros H. rewrite <- (roundHalfEven_Z k). by apply roundHalfEven_mono. Qed.

Lemma roundHalfEven_ge (x : Q) (k : Z) : inject_Z k <= x -> (k <= roundHalfEven x)%Z.
Proof. intros H. rewrite <- (roundHalfEven_Z k). by apply roundHalfEven_mono. Qed.

(** *** Rounding to binary64 *)

(** A power of two that the places around [x] can express is a bound
    of [x] before and after the rounding alike. *)
Lemma roundPositive_le_pow2 (x : Q) (b : Z) :
  0 < x -> (quantum x <= b)%Z -> x <= 2 ^ b -> roundPositive x <= 2 ^ b.
Proof.
  intros Hx Hq Hb. unfold roundPositive.
  set (q := quantum x) in *.
  assert (E : 2 ^ b == inject_Z (2 ^ (b - q)) * 2 ^ q).
  { rewrite pow2_Z by lia. rewrite <- Qpower_plus by discriminate.
    by replace (b - q + q)%Z with b by lia. }
  rewrite E. apply Qmult_le_compat_r; [| apply Qlt_le_weak, pow2_pos].
  rewrite <- Zle_Qle. apply roundHalfEven_le.
  apply Qle_shift_div_r; [apply pow2_pos |]. by rewrite <- E.
Qed.

Lemma roundPositive_ge_pow2 (x : Q) (a : Z) :
  0 < x -> (quantum x <= a)%Z -> 2 ^ a <= x -> 2 ^ a <= roundPositive x.
Proof.
  intros Hx Hq Ha. unfold roundPositive.
  set (q := quantum x) in *.
  assert (E : 2 ^ a == inject_Z (2 ^ (a - q)) * 2 ^ q).
  { rewrite pow2_Z by lia. rewrite <- Qpower_plus by discriminate.
    by replace (a - q + q)%Z with a by lia. }
  rewrite E. apply Qmult_le_compat_r; [| apply Qlt_le_weak, pow2_pos].
  rewrite <- Zle_Qle. apply roundHalfEven_ge.
  apply Qle_shift_div_l; [apply pow2_pos |]. by rewrite <- E.
Qed.

Lemma roundPositive_nonneg (x : Q) : 0 < x -> 0 <= roundPositive x.
Proof.
  intros Hx. unfold roundPositive.
  apply Qmult_le_0_compat; [| apply Qlt_le_weak, pow2_pos].
  change 0 with (inject_Z 0). rewrite <- Zle_Qle. apply roundHalfEven_ge.
  apply Qle_shift_div_l; [apply pow2_pos |]. change (inject_Z 0) with 0. lra.
Qed.

Lemma roundPositive_mono (x y : Q) :
  0 < x -> x <= y -> roundPositive x <= roundPositive y.
Proof.
  intros Hx Hxy.
  assert (Hy : 0 < y) by (eapply Qlt_le_trans; [exact Hx | exact Hxy]).
  pose proof (exponent_mono x y Hx Hxy) as He.
  destruct (Z.eq_dec (quantum x) (quantum y)) as [E | NE].
  - unfold roundPositive. rewrite E.
    apply Qmult_le_compat_r; [| apply Qlt_le_weak, pow2_pos].
    rewrite <- Zle_Qle. apply roundHalfEven_mono.
    apply Qmult_le_compat_r; [exact Hxy |].
    apply Qlt_le_weak, Qinv_lt_0_compat, pow2_pos.
  - destruct (exponent_spec x Hx) as [_ Hx2], (exponent_spec y Hy) as [Hy1 _].
    assert (Hlt : (exponent x < exponent y)%Z) by (unfold quantum in *; lia).
    apply Qle_trans with (2 ^ exponent y).
    + apply roundPositive_le_pow2; [exact Hx | unfold quantum in *; lia |].
      apply Qlt_le_weak. eapply Qlt_le_trans; [exact Hx2 |]. apply pow2_le. lia.
    + apply roundPositive_ge_pow2; [exact Hy | unfold quantum in *; lia | exact Hy1].
Qed.

Lemma roundPositive_comp (x y : Q) : 0 < x -> x == y -> roundPositive x == roundPositive y.
Proof.
  intros Hx E. apply Qle_antisym; apply roundPositive_mono;
    rewrite ?E; try apply Qle_refl; by rewrite <- ?E.
Qed.

Lemma round_pos (x : Q) : 0 < x -> round x = Qred (roundPositive x).
Proof.
  intros H. unfold round.
  destruct (Qcompare_spec x 0) as [E | E | E]; [| | done].
  - rewrite E in H. by apply Qlt_irrefl in H.
  - exfalso. lra.
Qed.

Lemma round_neg (x : Q) : x < 0 -> round x = Qred (- roundPositive (- x)).
Proof.
  intros H. unfold round.
  destruct (Qcompare_spec x 0) as [E | E | E]; [| done |].
  - rewrite E in H. by apply Qlt_irrefl in H.
  - exfalso. lra.
Qed.

Lemma round_zero (x : Q) : x == 0 -> round x = 0.
Proof.
  intros H. unfold round.
  destruct (Qcompare_spec x 0) as [E | E | E]; [done | |]; rewrite H in E;
    by apply Qlt_irrefl in E.
Qed.

Lemma round_nonneg (x : Q) : 0 <= x -> 0 <= round x.
Proof.
  intros H. destruct (Qlt_le_dec 0 x) as [Hx | Hx].
  - rewrite round_pos by done. rewrite Qred_correct. by apply roundPositive_nonneg.
  - rewrite round_zero; [apply Qle_refl | by apply Qle_antisym].
Qed.

Lemma round_nonpos (x : Q) : x <= 0 -> round x <= 0.
Proof.
  intros H. destruct (Qlt_le_dec x 0) as [Hx | Hx].
  - rewrite round_neg by done. rewrite Qred_correct.
    assert (0 <= roundPositive (- x)) by (apply roundPositive_nonneg; lra). lra.
  - rewrite round_zero; [apply Qle_refl | by apply Qle_antisym].
Qed.

Lemma round_mono (x y : Q) : x <= y -> round x <= round y.
Proof.
  intros Hxy.
  destruct (Qlt_le_dec 0 x) as [Hx | Hx].
  - rewrite !round_pos by lra. rewrite !Qred_correct. by apply roundPositive_mono.
  - destruct (Qlt_le_dec y 0) as [Hy | Hy].
    + rewrite !round_neg by lra. rewrite !Qred_correct.
      assert (roundPositive (- y) <= roundPositive (- x))
        by (apply roundPositive_mono; lra).
      lra.
    + apply Qle_trans with 0; [by apply round_nonpos | by apply round_nonneg].
Qed.

Lemma round_comp (x y : Q) : x == y -> round x = round y.
Proof.
  intros E. destruct (Qlt_le_dec 0 x) as [Hx | Hx].
  - rewrite !round_pos by lra. apply Qred_complete. by apply roundPositive_comp.
  - destruct (Qlt_le_dec x 0) as [Hx' | Hx'].
    + rewrite !round_neg by lra. apply Qred_complete.
      rewrite (roundPositive_comp (- x) (- y)); [reflexivity | lra | by rewrite E].
    + rewrite !round_zero; [done | | by apply Qle_antisym].
      rewrite <- E. by apply Qle_antisym.
Qed.


(** *** Order of the numbers *)

Lemma Qlt_bool_true (x y : Q) : Qlt_bool x y = true <-> x < y.
Proof.
  unfold Qlt_bool. rewrite negb_true_iff, <- not_true_iff_false, Qle_bool_iff.
  split; [apply Qnot_le_lt | apply Qlt_not_le].
Qed.

Lemma Qlt_bool_false (x y : Q) : Qlt_bool x y = false <-> y <= x.
Proof. unfold Qlt_bool. rewrite negb_false_iff. apply Qle_bool_iff. Qed.

Lemma Qle_bool_false (x y : Q) : Qle_bool x y = false <-> y < x.
Proof.
  rewrite <- not_true_iff_false, Qle_bool_iff.
  split; [apply Qnot_le_lt | apply Qlt_not_le].
Qed.

Lemma leb_Finite (x y : Q) : leb (Finite x) (Finite y) = true <-> x <= y.
Proof. apply Qle_bool_iff. Qed.

Lemma leb_Finite_false (x y : Q) : leb (Finite x) (Finite y) = false <-> y < x.
Proof. apply Qle_bool_false. Qed.

Lemma leb_refl (a : number) : a ≠ NaN -> leb a a = true.
Proof. destruct a; try done. intros _. apply leb_Finite, Qle_refl. Qed.

Lemma leb_trans (a b c : number) : leb a b = true -> leb b c = true -> leb a c = true.
Proof.
  destruct a, b, c; try done. rewrite !leb_Finite. apply Qle_trans.
Qed.

Lemma leb_total (a b : number) :
  a ≠ NaN -> b ≠ NaN -> leb a b = false -> leb b a = true.
Proof.
  destruct a as [| | |x], b as [| | |y]; try done. intros _ _ H.
  apply leb_Finite_false in H. apply leb_Finite. by apply Qlt_le_weak.
Qed.

Lemma leb_not_NaN (a b : number) : leb a b = true -> a ≠ NaN /\ b ≠ NaN.
Proof. by destruct a, b. Qed.

Lemma leb_NegInfinity (a : number) : a ≠ NaN -> leb NegInfinity a = true.
Proof. by destruct a. Qed.

Lemma leb_Infinity (a : number) : a ≠ NaN -> leb a Infinity = true.
Proof. by destruct a. Qed.

(** A number between two finite numbers is finite. *)
Lemma leb_between (lo hi : Q) (a : number) :
  leb (Finite lo) a = true -> leb a (Finite hi) = true ->
  exists x, a = Finite x /\ lo <= x /\ x <= hi.
Proof.
  destruct a as [| | |x]; try done. rewrite !leb_Finite. by exists x.
Qed.

(** *** The result of an operation *)

Lemma rounded_cases (x : Q) :
  (rounded x = Infinity /\ 2 ^ 1024 <= round x)
  \/ (rounded x = NegInfinity /\ round x <= - 2 ^ 1024)
  \/ (rounded x = Finite (round x)
      /\ - 2 ^ 1024 < round x /\ round x < 2 ^ 1024).
Proof.
  unfold rounded. cbv zeta.
  destruct (Qle_bool (2 ^ 1024) (round x)) eqn:E1.
  { left. by apply Qle_bool_iff in E1. }
  destruct (Qle_bool (round x) (- 2 ^ 1024)) eqn:E2.
  { right. left. by apply Qle_bool_iff in E2. }
  right. right. apply Qle_bool_false in E1, E2. done.
Qed.

Lemma rounded_not_NaN (x : Q) : rounded x ≠ NaN.
Proof. by destruct (rounded_cases x) as [[-> _] | [[-> _] | [-> _]]]. Qed.

Lemma rounded_mono (x y : Q) : x <= y -> leb (rounded x) (rounded y) = true.
Proof.
  intros H. apply round_mono in H.
  destruct (rounded_cases x) as [[-> Hx] | [[-> Hx] | [-> [Hx1 Hx2]]]];
    destruct (rounded_cases y) as [[-> Hy] | [[-> Hy] | [-> [Hy1 Hy2]]]];
    try done; try (exfalso; lra).
  by apply leb_Finite.
Qed.

Lemma rounded_comp (x y : Q) : x == y -> rounded x = rounded y.
Proof. intros E. unfold rounded. by rewrite (round_comp x y E). Qed.

(** *** Monotonicity of the operations *)

Lemma Qcompare_Gt (c : Q) : 0 < c -> Qcompare c 0 = Gt.
Proof. intros H. by apply Qgt_alt. Qed.

Lemma mul_mono (a b : number) (c : Q) :
  0 < c -> leb a b = true -> leb (mul a (Finite c)) (mul b (Finite c)) = true.
Proof.
  intros Hc H. pose proof (Qcompare_Gt c Hc) as E.
  destruct a as [| | |x], b as [| | |y]; try done; cbn [mul]; rewrite ?E; try done;
    try (apply leb_NegInfinity, rounded_not_NaN);
    try (apply leb_Infinity, rounded_not_NaN).
  apply rounded_mono. apply leb_Finite in H.
  apply Qmult_le_compat_r; [exact H | by apply Qlt_le_weak].
Qed.

Lemma div_mono (a b : number) (c : Q) :
  0 < c -> leb a b = true -> leb (div a (Finite c)) (div b (Finite c)) = true.
Proof.
  intros Hc H. pose proof (Qcompare_Gt c Hc) as E.
  assert (E' : Qle_bool 0 c = true) by (apply Qle_bool_iff; by apply Qlt_le_weak).
  destruct a as [| | |x], b as [| | |y]; try done; cbn [div]; rewrite ?E, ?E'; try done;
    try (apply leb_NegInfinity, rounded_not_NaN);
    try (apply leb_Infinity, rounded_not_NaN).
  apply rounded_mono. apply leb_Finite in H.
  apply Qmult_le_compat_r; [exact H |].
  by apply Qlt_le_weak, Qinv_lt_0_compat.
Qed.

(** Sums of numbers that are not negative: no [NaN] arises. *)
Lemma add_mono (a b c d : number) :
  leb (Finite 0) a = true -> leb (Finite 0) c = true ->
  leb a b = true -> leb c d = true ->
  leb (add a c) (add b d) = true.
Proof.
  intros Ha Hc Hab Hcd.
  destruct a as [| | |x], b as [| | |y]; try done;
    destruct c as [| | |z], d as [| | |t]; try done; cbn [add];
    try (apply leb_Infinity, rounded_not_NaN).
  apply rounded_mono. apply leb_Finite in Hab, Hcd. lra.
Qed.

Lemma add_nonneg (a c : number) :
  leb (Finite 0) a = true -> leb (Finite 0) c = true ->
  leb (Finite 0) (add a c) = true.
Proof.
  intros Ha Hc.
  destruct a as [| | |x], c as [| | |z]; try done. cbn [add].
  apply leb_Finite in Ha, Hc.
  change (Finite 0) with (Finite (round 0)).
  destruct (rounded_cases (x + z)) as [[-> _] | [[-> H] | [-> _]]]; [done | |].
  - exfalso. assert (0 <= round (x + z)) by (apply round_nonneg; lra).
    assert (0 < 2 ^ 1024) by apply pow2_pos. lra.
  - apply leb_Finite. apply round_mono. lra.
Qed.

Lemma mul_nonneg (a : number) (c : Q) :
  0 < c -> leb (Finite 0) a = true -> leb (Finite 0) (mul a (Finite c)) = true.
Proof.
  intros Hc Ha. apply leb_trans with (mul (Finite 0) (Finite c)); [| by apply mul_mono].
  cbn [mul]. rewrite (rounded_comp (0 * c) 0) by ring. done.
Qed.

Lemma Math_min_mono (c a b : number) :
  c ≠ NaN -> leb a b = true -> leb (Math_min c a) (Math_min c b) = true.
Proof.
  intros Hc H. destruct (leb_not_NaN a b H) as [Ha Hb].
  assert (E : forall x, x ≠ NaN -> Math_min c x = if leb c x then c else x).
  { intros x Hx. by destruct c, x. }
  rewrite !E by done.
  destruct (leb c a) eqn:E1, (leb c b) eqn:E2; try done.
  - by apply leb_refl.
  - rewrite (leb_trans c a b E1 H) in E2. discriminate E2.
  - by apply leb_total.
Qed.

Lemma Math_max_mono (c a b : number) :
  c ≠ NaN -> leb a b = true -> leb (Math_max c a) (Math_max c b) = true.
Proof.
  intros Hc H. destruct (leb_not_NaN a b H) as [Ha Hb].
  assert (E : forall x, x ≠ NaN -> Math_max c x = if leb c x then x else c).
  { intros x Hx. by destruct c, x. }
  rewrite !E by done.
  destruct (leb c a) eqn:E1, (leb c b) eqn:E2; try done.
  - rewrite (leb_trans c a b E1 H) in E2. discriminate E2.
  - by apply leb_refl.
Qed.

Lemma Math_round_mono (a b : number) :
  leb a b = true -> leb (Math_round a) (Math_round b) = true.
Proof.
  destruct a as [| | |x], b as [| | |y]; try done. cbn [Math_round].
  rewrite !leb_Finite. intros H. rewrite <- Zle_Qle. apply Qfloor_resp_le. lra.
Qed.

(** *** Comparisons *)

Lemma ltb_false_leb (a b : number) :
  a ≠ NaN -> b ≠ NaN -> ltb a b = false -> leb b a = true.
Proof.
  destruct a as [| | |x], b as [| | |y]; try done. cbn [ltb]. intros _ _ H.
  apply Qlt_bool_false in H. by apply leb_Finite.
Qed.

Lemma ltb_leb_trans (a b c : number) :
  ltb a b = true -> leb b c = true -> ltb a c = true.
Proof.
  destruct a as [| | |x], b as [| | |y], c as [| | |z]; try done. cbn [ltb].
  rewrite leb_Finite, !Qlt_bool_true. apply Qlt_le_trans.
Qed.

Lemma ltb_not_leb (a b : number) : ltb a b = true -> leb b a = true -> False.
Proof.
  destruct a as [| | |x], b as [| | |y]; try done. cbn [ltb].
  rewrite leb_Finite, Qlt_bool_true. intros H1 H2. lra.
Qed.

Lemma Math_round_Finite (a : number) (x : Q) :
  Math_round a = Finite x -> exists k : Z, x = inject_Z k.
Proof. destruct a; try done. cbn [Math_round]. intros [= <-]. by eexists. Qed.

End Binary64Facts.

(** ** Properties of the severity scorer in binary64 *)

Module SeverityCalculatorFacts.
Import Binary64 SeverityCalculator Binary64Facts.
Local Open Scope Q_scope.
Local Set Warnings "-inexact-float".

(** The two normalisations have one shape. *)
Section Normalisation.
Variables (normalize : number -> number) (m : Q).
Hypothesis shape : forall x,
  normalize x =
    if ltb x (Finite 0) then Finite 0
    else if gtb x (Finite m) then SCORE_MAX
    else mul (div x (Finite m)) SCORE_MAX.
Hypothesis positive : 0 < m.
Hypothesis at_zero : mul (div (Finite 0) (Finite m)) SCORE_MAX = Finite 0.
Hypothesis at_max : mul (div (Finite m) (Finite m)) SCORE_MAX = SCORE_MAX.

Lemma scale_mono (a b : number) :
  leb a b = true ->
  leb (mul (div a (Finite m)) SCORE_MAX) (mul (div b (Finite m)) SCORE_MAX) = true.
Proof. intros H. apply mul_mono; [done |]. by apply div_mono. Qed.

Lemma normalize_range (x : number) :
  x ≠ NaN ->
  leb (Finite 0) (normalize x) = true /\ leb (normalize x) SCORE_MAX = true.
Proof.
  intros Hx. rewrite shape. unfold gtb.
  destruct (ltb x (Finite 0)) eqn:E1; [done |].
  destruct (ltb (Finite m) x) eqn:E2; [done |].
  apply ltb_false_leb in E1; [| done..]. apply ltb_false_leb in E2; [| done..].
  split.
  - rewrite <- at_zero. by apply scale_mono.
  - rewrite <- at_max at 2. by apply scale_mono.
Qed.

Lemma normalize_mono (a b : number) :
  leb a b = true -> leb (normalize a) (normalize b) = true.
Proof.
  intros H. destruct (leb_not_NaN a b H) as [Ha Hb].
  destruct (normalize_range a Ha) as [Ha0 Ha1], (normalize_range b Hb) as [Hb0 Hb1].
  rewrite (shape a) in *. destruct (ltb a (Finite 0)) eqn:E1; [done |].
  rewrite (shape b) in *. unfold gtb in *.
  destruct (ltb (Finite m) a) eqn:E2.
  - assert (E3 : ltb (Finite m) b = true) by (by eapply ltb_leb_trans).
    rewrite E3.
    destruct (ltb b (Finite 0)) eqn:E4; [| done].
    exfalso. apply (ltb_not_leb _ _ E4). apply ltb_false_leb in E1; [| done..].
    exact (leb_trans _ _ _ E1 H).
  - destruct (ltb b (Finite 0)) eqn:E4.
    { exfalso. apply (ltb_not_leb _ _ E4). apply ltb_false_leb in E1; [| done..].
      exact (leb_trans _ _ _ E1 H). }
    destruct (ltb (Finite m) b) eqn:E5; [done |]. by apply scale_mono.
Qed.

End Normalisation.

Lemma normalizeRainfall_range (x : number) :
  x ≠ NaN ->
  leb (Finite 0) (normalizeRainfall x) = true
  /\ leb (normalizeRainfall x) SCORE_MAX = true.
Proof. by apply (normalize_range normalizeRainfall 500). Qed.

Lemma normalizeRainfall_mono (a b : number) :
  leb a b = true -> leb (normalizeRainfall a) (normalizeRainfall b) = true.
Proof. by apply (normalize_mono normalizeRainfall 500). Qed.

Lemma normalizeWindSpeed_range (x : number) :
  x ≠ NaN ->
  leb (Finite 0) (normalizeWindSpeed x) = true
  /\ leb (normalizeWindSpeed x) SCORE_MAX = true.
Proof. by apply (normalize_range normalizeWindSpeed 200). Qed.

Lemma normalizeWindSpeed_mono (a b : number) :
  leb a b = true -> leb (normalizeWindSpeed a) (normalizeWindSpeed b) = true.
Proof. by apply (normalize_mono normalizeWindSpeed 200). Qed.

(** The weights are positive numbers. *)
Lemma weights_positive :
  (exists c, WEIGHTS_rainfall = Finite c /\ 0 < c)
  /\ (exists c, WEIGHTS_wind = Finite c /\ 0 < c)
  /\ (exists c, WEIGHTS_flooding = Finite c /\ 0 < c).
Proof.
  split; [| split]; eexists; (split; [vm_compute; reflexivity | reflexivity]).
Qed.

Lemma riskLevelToScore_nonneg (f : RiskLevel) :
  leb (Finite 0) (riskLevelToScore f) = true.
Proof. by destruct f. Qed.

(** The weighted sum, and the clamp and the rounding to tenths that
    both scoring functions apply to theirs. *)
Local Abbreviation weighted r w f :=
  (add (add (mul (normalizeRainfall r) WEIGHTS_rainfall)
            (mul (normalizeWindSpeed w) WEIGHTS_wind))
       (mul (riskLevelToScore f) WEIGHTS_flooding)).

Local Abbreviation tenths s :=
  (Math_round (mul (Math_max (Finite 0) (Math_min SCORE_MAX s)) (Finite 10))).

Lemma weighted_mono (r1 r2 w1 w2 : number) (f1 f2 : RiskLevel) :
  leb r1 r2 = true -> leb w1 w2 = true ->
  leb (riskLevelToScore f1) (riskLevelToScore f2) = true ->
  leb (weighted r1 w1 f1) (weighted r2 w2 f2) = true.
Proof.
  intros Hr Hw Hf.
  destruct weights_positive as ((cr & -> & Hcr) & (cw & -> & Hcw) & (cf & -> & Hcf)).
  destruct (leb_not_NaN _ _ Hr) as [Hr1 _], (leb_not_NaN _ _ Hw) as [Hw1 _].
  apply add_mono.
  - apply add_nonneg; apply mul_nonneg; try done.
    + by apply normalizeRainfall_range.
    + by apply normalizeWindSpeed_range.
  - apply mul_nonneg; [done | apply riskLevelToScore_nonneg].
  - apply add_mono.
    + apply mul_nonneg; [done | by apply normalizeRainfall_range].
    + apply mul_nonneg; [done | by apply normalizeWindSpeed_range].
    + apply mul_mono; [done | by apply normalizeRainfall_mono].
    + apply mul_mono; [done | by apply normalizeWindSpeed_mono].
  - by apply mul_mono.
Qed.

Lemma tenths_mono (s1 s2 : number) :
  leb s1 s2 = true -> leb (tenths s1) (tenths s2) = true.
Proof.
  intros H. apply Math_round_mono, mul_mono; [done |].
  apply Math_max_mono; [done |]. by apply Math_min_mono.
Qed.

Lemma score_mono (r1 r2 w1 w2 : number) (f1 f2 : RiskLevel) :
  leb r1 r2 = true -> leb w1 w2 = true ->
  leb (riskLevelToScore f1) (riskLevelToScore f2) = true ->
  leb (score (calculateDistrictSeverity r1 w1 f1))
      (score (calculateDistrictSeverity r2 w2 f2)) = true.
Proof.
  intros Hr Hw Hf. unfold calculateDistrictSeverity. cbn [score].
  apply div_mono; [done |]. by apply tenths_mono, weighted_mono.
Qed.

(** C8: with wind speed and flooding risk fixed, the score never
    decreases when rainfall grows, over all rainfall values that are
    numbers (negative ones, values above 500 and the infinities
    included); and the same holds for wind speed with rainfall and
    flooding risk fixed.  The score is the binary64 value that the
    program computes, and the order is its [<=]. *)
Theorem severity_monotone :
  (forall (r1 r2 w : number) (f : RiskLevel),
      leb r1 r2 = true -> w ≠ NaN ->
      leb (score (calculateDistrictSeverity r1 w f))
          (score (calculateDistrictSeverity r2 w f)) = true)
  /\
  (forall (r w1 w2 : number) (f : RiskLevel),
      leb w1 w2 = true -> r ≠ NaN ->
      leb (score (calculateDistrictSeverity r w1 f))
          (score (calculateDistrictSeverity r w2 f)) = true).
Proof.
  split.
  - intros r1 r2 w f H Hw. apply score_mono; [done | by apply leb_refl |].
    apply leb_refl. by destruct f.
  - intros r w1 w2 f H Hr. apply score_mono; [by apply leb_refl | done |].
    apply leb_refl. by destruct f.
Qed.


(** The thresholds of the colours, as numbers: the number written 3.9
    lies below 4 and the number written 6.9 below 7, and the tenths 4.0
    and 7.0 are 4 and 7. *)
Lemma thresholds :
  exists q39 q69 : Q,
    literal (39 # 10) = Finite q39
    /\ literal (69 # 10) = Finite q69
    /\ 3 < q39 /\ q39 < 4 /\ 6 < q69 /\ q69 < 7
    /\ literal (inject_Z 40 / 10) = Finite 4
    /\ literal (inject_Z 70 / 10) = Finite 7.
Proof. eexists _, _. vm_compute. repeat split. Qed.

(** Case analysis on a comparison of two finite numbers, leaving the
    order fact in the context. *)
Ltac case_order :=
  match goal with
  | |- context [Qlt_bool ?a ?b] =>
      let E := fresh "E" in
      destruct (Qlt_bool a b) eqn:E;
      [apply Qlt_bool_true in E | apply Qlt_bool_false in E]
  | |- context [Qle_bool ?a ?b] =>
      let E := fresh "E" in
      destruct (Qle_bool a b) eqn:E;
      [apply Qle_bool_iff in E | apply Qle_bool_false in E]
  end.

(** The classifications, with the thresholds as finite numbers. *)
Ltac classify :=
  unfold getSeverityColor, scoreToRiskLevel, MockData.getSeverityColor, gtb,
    SCORE_MAX, SEVERITY_THRESHOLDS_yellow_max, SEVERITY_THRESHOLDS_orange_max in *;
  destruct thresholds as (q39 & q69 & E39 & E69 & ? & ? & ? & ? & E4 & E7);
  rewrite ?E39, ?E69 in *.

Lemma getSeverityColor_mono (s1 s2 : number) :
  leb s1 s2 = true ->
  (getSeverityColor s1 = red -> getSeverityColor s2 = red)
  /\ (getSeverityColor s2 = yellow -> getSeverityColor s1 = yellow).
Proof.
  intros H. classify. clear E39 E69 E4 E7.
  destruct s1 as [| | |x], s2 as [| | |y]; try done; cbn [ltb leb];
    try apply leb_Finite in H;
    repeat case_order; split; intros; try reflexivity; try discriminate; lra.
Qed.

Lemma scoreToRiskLevel_mono (s1 s2 : number) :
  leb s1 s2 = true ->
  (scoreToRiskLevel s1 = high -> scoreToRiskLevel s2 = high)
  /\ (scoreToRiskLevel s2 = low -> scoreToRiskLevel s1 = low).
Proof.
  intros H. classify. clear E39 E69 E4 E7.
  destruct s1 as [| | |x], s2 as [| | |y]; try done; cbn [ltb leb];
    try apply leb_Finite in H;
    repeat case_order; split; intros; try reflexivity; try discriminate; lra.
Qed.

(** The tenths of a score that is not [NaN] are a whole number from 0
    to 100. *)
Lemma tenths_range (s : number) :
  s ≠ NaN -> exists k : Z, (0 <= k <= 100)%Z /\ tenths s = Finite (inject_Z k).
Proof.
  intros Hs.
  assert (Hlo : leb (tenths NegInfinity) (tenths s) = true)
    by (by apply tenths_mono, leb_NegInfinity).
  assert (Hhi : leb (tenths s) (tenths Infinity) = true)
    by (by apply tenths_mono, leb_Infinity).
  assert (E0 : tenths NegInfinity = Finite (inject_Z 0)) by (vm_compute; reflexivity).
  assert (E100 : tenths Infinity = Finite (inject_Z 100)) by (vm_compute; reflexivity).
  rewrite E0 in Hlo. rewrite E100 in Hhi.
  destruct (leb_between _ _ _ Hlo Hhi) as (x & E & H0 & H1).
  destruct (Math_round_Finite _ _ E) as [k ->].
  exists k. split; [| exact E].
  rewrite <- Zle_Qle in H0, H1. lia.
Qed.

Lemma div_tenths (k : Z) : div (Finite (inject_Z k)) (Finite 10) = literal (inject_Z k / 10).
Proof. reflexivity. Qed.

Lemma score_unfold (r w : number) (f : RiskLevel) :
  score (calculateDistrictSeverity r w f) = div (tenths (weighted r w f)) (Finite 10).
Proof. reflexivity. Qed.

Lemma NaN_add_l (a : number) : add NaN a = NaN.
Proof. by destruct a. Qed.

Lemma NaN_add_r (a : number) : add a NaN = NaN.
Proof. by destruct a. Qed.

Lemma normalizeRainfall_NaN : normalizeRainfall NaN = NaN.
Proof. reflexivity. Qed.

Lemma normalizeWindSpeed_NaN : normalizeWindSpeed NaN = NaN.
Proof. reflexivity. Qed.

(** X1: whatever the rainfall and the wind speed, as long as they are
    numbers, and whatever the flooding risk, the score of
    [calculateDistrictSeverity] lies between the numbers written 0.6 and
    9.7 (hence within the scale from 0 to 10, whose ends it never
    reaches) and is the number written as a whole number of tenths.  The
    score is [NaN] when the rainfall or the wind speed is. *)
Theorem severity_score_range (r w : number) (f : RiskLevel) :
  let s := score (calculateDistrictSeverity r w f) in
  (r ≠ NaN -> w ≠ NaN ->
   leb (literal (6 # 10)) s = true
   /\ leb s (literal (97 # 10)) = true
   /\ exists k : Z, (6 <= k <= 97)%Z /\ s = literal (inject_Z k / 10))
  /\ (r = NaN \/ w = NaN -> s = NaN).
Proof.
  cbv zeta. split.
  - intros Hr Hw.
    assert (Hlo : leb (score (calculateDistrictSeverity NegInfinity NegInfinity low))
                    (score (calculateDistrictSeverity r w f)) = true).
    { apply score_mono; try (by apply leb_NegInfinity). by destruct f. }
    assert (Hhi : leb (score (calculateDistrictSeverity r w f))
                    (score (calculateDistrictSeverity Infinity Infinity high)) = true).
    { apply score_mono; try (by apply leb_Infinity). by destruct f. }
    split; [exact Hlo | split; [exact Hhi |]].
    assert (Hs : weighted r w f ≠ NaN).
    { apply (leb_not_NaN (weighted NegInfinity NegInfinity low)).
      apply weighted_mono; try (by apply leb_NegInfinity). by destruct f. }
    destruct (tenths_range _ Hs) as (k & Hk & E).
    exists k. rewrite score_unfold, E, div_tenths. split; [| done].
    assert (Hlo' : leb (tenths (weighted NegInfinity NegInfinity low))
                     (tenths (weighted r w f)) = true).
    { apply tenths_mono, weighted_mono; try (by apply leb_NegInfinity). by destruct f. }
    assert (Hhi' : leb (tenths (weighted r w f))
                     (tenths (weighted Infinity Infinity high)) = true).
    { apply tenths_mono, weighted_mono; try (by apply leb_Infinity). by destruct f. }
    rewrite E in Hlo', Hhi'.
    assert (E6 : tenths (weighted NegInfinity NegInfinity low) = Finite (inject_Z 6))
      by (by vm_compute).
    assert (E97 : tenths (weighted Infinity Infinity high) = Finite (inject_Z 97))
      by (by vm_compute).
    rewrite E6 in Hlo'. rewrite E97 in Hhi'.
    apply leb_Finite in Hlo', Hhi'. rewrite <- Zle_Qle in Hlo', Hhi'. lia.
  - intros [-> | ->]; rewrite score_unfold.
    + rewrite normalizeRainfall_NaN. cbn [mul]. by rewrite !NaN_add_l.
    + rewrite normalizeWindSpeed_NaN.
      replace (mul NaN WEIGHTS_wind) with NaN by done.
      by rewrite NaN_add_r, NaN_add_l.
Qed.

(** X3: the scorer is monotone in its three inputs together.  When
    rainfall and wind speed do not decrease and the flooding risk does
    not get a smaller numeric score, the severity score does not
    decrease, a red result stays red, a high level stays high, and
    conversely yellow and low are kept downwards. *)
Theorem severity_result_monotone (r1 r2 w1 w2 : number) (f1 f2 : RiskLevel) :
  leb r1 r2 = true -> leb w1 w2 = true ->
  leb (RISK_LEVEL_SCORES f1) (RISK_LEVEL_SCORES f2) = true ->
  let a := calculateDistrictSeverity r1 w1 f1 in
  let b := calculateDistrictSeverity r2 w2 f2 in
  leb (score a) (score b) = true
  /\ (color a = red -> color b = red)
  /\ (color b = yellow -> color a = yellow)
  /\ (level a = high -> level b = high)
  /\ (level b = low -> level a = low).
Proof.
  intros Hr Hw Hf a b.
  assert (Hs : leb (score a) (score b) = true) by (by apply score_mono).
  split; [exact Hs |].
  destruct (getSeverityColor_mono _ _ Hs), (scoreToRiskLevel_mono _ _ Hs).
  done.
Qed.

(** X31: in binary64 too, [getSeverityColor] and [scoreToRiskLevel]
    classify every number alike, the numbers outside the scale, the
    infinities and [NaN] included: yellow goes with low, orange with
    moderate and red with high.  So the colour and the level of a result
    of [calculateDistrictSeverity] always correspond. *)
Theorem colour_and_level_correspond :
  (forall s : number,
     match getSeverityColor s, scoreToRiskLevel s with
     | yellow, low | orange, moderate | red, high => True
     | _, _ => False
     end)
  /\ (forall (r w : number) (f : RiskLevel),
        match color (calculateDistrictSeverity r w f),
              level (calculateDistrictSeverity r w f) with
        | yellow, low | orange, moderate | red, high => True
        | _, _ => False
        end).
Proof.
  assert (H : forall s : number,
             match getSeverityColor s, scoreToRiskLevel s with
             | yellow, low | orange, moderate | red, high => True
             | _, _ => False
             end).
  { intros s. classify. clear E39 E69 E4 E7.
    destruct s as [| | |x]; try exact I; cbn [ltb leb].
    repeat case_order; try exact I; lra. }
  split; [exact H |]. intros r w f. apply H.
Qed.

(** *** The colours of the mock data *)

Lemma tenth_mono (a b : Z) :
  (a <= b)%Z -> leb (literal (inject_Z a / 10)) (literal (inject_Z b / 10)) = true.
Proof.
  intros Hab. apply rounded_mono. apply Qmult_le_compat_r; [| done].
  by rewrite <- Zle_Qle.
Qed.

Lemma colors_agree_on_tenths (t : number) :
  let v := div (Math_round t) (Finite 10) in
  MockData.getSeverityColor v = getSeverityColor v.
Proof.
  cbv zeta. destruct t as [| | |x]; [reflexivity.. |]. cbn [Math_round].
  set (k := Qfloor (x + (1 # 2))). rewrite div_tenths.
  classify.
  destruct (Z_le_gt_dec k 39) as [Hk | Hk].
  { pose proof (tenth_mono k 39 Hk) as Hhi.
    change (inject_Z 39 / 10) with (39 # 10) in Hhi. rewrite E39 in Hhi.
    clear E39 E69 E4 E7.
    destruct (literal (inject_Z k / 10)) as [| | |y];
      [discriminate Hhi | discriminate Hhi | reflexivity |].
    apply leb_Finite in Hhi. cbn [ltb leb]. repeat case_order; try reflexivity; lra. }
  destruct (Z_le_gt_dec k 69) as [Hk' | Hk'].
  { pose proof (tenth_mono 40 k ltac:(lia)) as Hlo. rewrite E4 in Hlo.
    pose proof (tenth_mono k 69 Hk') as Hhi.
    change (inject_Z 69 / 10) with (69 # 10) in Hhi. rewrite E69 in Hhi.
    clear E39 E69 E4 E7.
    destruct (literal (inject_Z k / 10)) as [| | |y];
      [discriminate Hhi | discriminate Hhi | discriminate Hlo |].
    apply leb_Finite in Hlo, Hhi. cbn [ltb leb].
    repeat case_order; try reflexivity; lra. }
  pose proof (tenth_mono 70 k ltac:(lia)) as Hlo. rewrite E7 in Hlo.
  clear E39 E69 E4 E7.
  destruct (literal (inject_Z k / 10)) as [| | |y];
    [discriminate Hlo | reflexivity | discriminate Hlo |].
  apply leb_Finite in Hlo. cbn [ltb leb]. repeat case_order; try reflexivity; lra.
Qed.

(** X7: the generator of mock data colours its districts with a
    function of its own (yellow below 4, orange below 7), and the scorer
    with another (yellow up to 3.9, orange up to 6.9).  The two agree on
    every score that the generator or the scorer produces, since these
    are numbers written as whole numbers of tenths, infinite or [NaN];
    they differ in between, at 3.95 for one. *)
Theorem mock_colors_agree :
  (forall baseSeverity : number,
     MockData.severityColor baseSeverity =
     getSeverityColor (MockData.severityScore baseSeverity))
  /\ (forall (r w : number) (f : RiskLevel),
        MockData.getSeverityColor (score (calculateDistrictSeverity r w f)) =
        color (calculateDistrictSeverity r w f))
  /\ MockData.getSeverityColor (literal (395 # 100)) = yellow
  /\ getSeverityColor (literal (395 # 100)) = orange.
Proof.
  split; [| split; [| by vm_compute]].
  - intros b. apply colors_agree_on_tenths.
  - intros r w f. apply colors_agree_on_tenths.
Qed.

(** *** Combining risk factors *)

(** X4: [combineRiskFactors] returns [NaN] or the number written as a
    whole number of tenths from 0 to 10, whatever the values and the
    weights; it returns 0 for an empty list.  [NaN] does occur for
    finite inputs: two weights of 1e308 sum to [Infinity], and so do the
    weighted values, and [Infinity / Infinity] is [NaN]. *)
Theorem combineRiskFactors_range (factors : list RiskFactor) :
  (combineRiskFactors factors = NaN
   \/ exists k : Z, (0 <= k <= 100)%Z
                    /\ combineRiskFactors factors = literal (inject_Z k / 10))
  /\ (factors = [] -> combineRiskFactors factors = Finite 0)
  /\ combineRiskFactors
       [ {| type := rainfall; value := Finite 8; weight := literal (10 ^ 308) |};
         {| type := wind; value := Finite 3; weight := literal (10 ^ 308) |} ] = NaN.
Proof.
  split; [| split; [by intros -> | by vm_compute]].
  assert (E0 : Finite 0 = literal (inject_Z 0 / 10)) by (vm_compute; reflexivity).
  unfold combineRiskFactors. case_decide.
  { right. exists 0%Z. split; [lia | exact E0]. }
  destruct (eqb _ (Finite 0)).
  { right. exists 0%Z. split; [lia | exact E0]. }
  match goal with |- context [Math_min SCORE_MAX ?x] => set (s := x) end.
  assert (Hs : s = NaN \/ s ≠ NaN) by (destruct s; auto).
  destruct Hs as [-> | Hs]; [by left |].
  right. destruct (tenths_range s Hs) as (k & Hk & ->).
  exists k. by rewrite div_tenths.
Qed.

(** *** On sample inputs *)

Lemma severity_monotone_witness :
  leb (score (calculateDistrictSeverity (Finite (-20)) (Finite 90) moderate))
      (score (calculateDistrictSeverity (Finite 730) (Finite 90) moderate)) = true
  /\
  leb (score (calculateDistrictSeverity (Finite 120) (Finite 35) low))
      (score (calculateDistrictSeverity (Finite 120) (Finite 260) low)) = true.
Proof.
  split.
  - apply (proj1 severity_monotone (Finite (-20)) (Finite 730) (Finite 90) moderate);
      [reflexivity | discriminate].
  - apply (proj2 severity_monotone (Finite 120) (Finite 35) (Finite 260) low);
      [reflexivity | discriminate].
Defined.

Lemma severity_score_range_witness :
  let s := score (calculateDistrictSeverity (Finite 120) (Finite 60) low) in
  leb (literal (6 # 10)) s = true
  /\ leb s (literal (97 # 10)) = true
  /\ exists k : Z, (6 <= k <= 97)%Z /\ s = literal (inject_Z k / 10).
Proof.
  apply (proj1 (severity_score_range (Finite 120) (Finite 60) low)); discriminate.
Defined.

Lemma severity_result_monotone_witness :
  let a := calculateDistrictSeverity (Finite 120) (Finite 60) low in
  let b := calculateDistrictSeverity (Finite 480) (Finite 190) high in
  leb (score a) (score b) = true
  /\ (color a = red -> color b = red)
  /\ (color b = yellow -> color a = yellow)
  /\ (level a = high -> level b = high)
  /\ (level b = low -> level a = low).
Proof.
  apply (severity_result_monotone (Finite 120) (Finite 480) (Finite 60) (Finite 190)
           low high); reflexivity.
Defined.

(** The model against the primitive binary64 arithmetic of Rocq: on
    every sample pair the sum, the product, the quotient and the
    comparisons are the same. *)
Example model_agrees_on_samples :
  forallb Binary64Samples.agrees Binary64Samples.samples = true.
Proof. by vm_compute. Qed.

(** Some of these in full, and the scorer on both. *)
Example model_agrees_with_primitive_floats :
  of_float 0.1 = literal (1 # 10)
  /\ of_float (0.1 + 0.2) = add (literal (1 # 10)) (literal (2 # 10))
  /\ of_float (0.1 * 3) = mul (literal (1 # 10)) (Finite 3)
  /\ of_float (1 / 3) = div (Finite 1) (Finite 3)
  /\ of_float (9007199254740993 + 1) = add (literal 9007199254740993) (Finite 1)
  /\ of_float (1e308 * 10) = mul (literal (10 ^ 308)) (Finite 10)
  /\ of_float (1e308 * 10) = Infinity
  /\ of_float (5e-324 / 2) = div (literal (2 ^ (-1074))) (Finite 2)
  /\ of_float (3e-320 / 7) = div (literal (3 * 10 ^ (-320))) (Finite 7)
  /\ of_float (SeverityBinary64.score
                 (SeverityBinary64.calculateDistrictSeverity (-20) 90 moderate))
     = score (calculateDistrictSeverity (Finite (-20)) (Finite 90) moderate)
  /\ of_float (SeverityBinary64.score
                 (SeverityBinary64.calculateDistrictSeverity 2.5 82 high))
     = score (calculateDistrictSeverity (literal (25 # 10)) (Finite 82) high)
  /\ of_float (SeverityBinary64.score
                 (SeverityBinary64.calculateDistrictSeverity 123.456 77.7 moderate))
     = score (calculateDistrictSeverity
                (literal (123456 # 1000)) (literal (777 # 10)) moderate)
  /\ of_float (SeverityBinary64.score
                 (SeverityBinary64.calculateDistrictSeverity 500 200 high))
     = score (calculateDistrictSeverity (Finite 500) (Finite 200) high).
Proof. vm_compute. repeat split. Qed.

(** What the rounding does to the scores.  At the maximal inputs the
    result is 9.7, red and high.  With rainfall -20, wind
    speed 90 and moderate flooding risk the weighted sum is just below
    2.85, and the score is 2.8; with 2.5, 82 and high it is just below
    3.95, and the result is 3.9, yellow and low.  The generator gives
    3.5 to a draw of 0.345.  [combineRiskFactors] gives 0.7 to two
    factors of value 0.75 with the weights 0.1 and 0.3, and 0.8 to one
    of them alone; it gives 0.4 to the values 0 and 0.7 with the weights
    1 and 1, and 0.3 with the weights 3 and 3. *)
Example scores_after_rounding :
  calculateDistrictSeverity (Finite 500) (Finite 200) high
    = {| score := literal (97 # 10); color := red; level := high |}
  /\ score (calculateDistrictSeverity (Finite (-20)) (Finite 90) moderate)
     = literal (28 # 10)
  /\ calculateDistrictSeverity (literal (25 # 10)) (Finite 82) high
     = {| score := literal (39 # 10); color := yellow; level := low |}
  /\ MockData.severityScore (literal (345 # 1000)) = literal (35 # 10)
  /\ combineRiskFactors
       [ {| type := rainfall; value := literal (75 # 100); weight := literal (1 # 10) |};
         {| type := wind; value := literal (75 # 100); weight := literal (3 # 10) |} ]
     = literal (7 # 10)
  /\ combineRiskFactors
       [ {| type := rainfall; value := literal (75 # 100); weight := literal (1 # 10) |} ]
     = literal (8 # 10)
  /\ combineRiskFactors
       [ {| type := rainfall; value := Finite 0; weight := Finite 1 |};
         {| type := wind; value := literal (7 # 10); weight := Finite 1 |} ]
     = literal (4 # 10)
  /\ combineRiskFactors
       [ {| type := rainfall; value := Finite 0; weight := Finite 3 |};
         {| type := wind; value := literal (7 # 10); weight := Finite 3 |} ]
     = literal (3 # 10).
Proof. vm_compute. repeat split. Qed.

End SeverityCalculatorFacts.

(** ** Properties of the cache manager *)

Module CacheFacts.
Import Cache.
Section WithData.
Context {T : Type}.
Implicit Types (cache : gmap string (CacheEntry T)) (key : string) (v : T).

Lemma isValid_set cache key v (TTL t0 now : Z) :
  isValid (set cache t0 key v TTL) now key = bool_decide (now - t0 < TTL).
Proof. unfold isValid, set. by rewrite lookup_insert_eq. Qed.

Lemma get_valid cache key (now : Z) (e : CacheEntry T) :
  cache !! key = Some e -> now - timestamp e < ttl e ->
  get cache now key = (Some e, cache).
Proof.
  intros Hk Hage. unfold get, isValid. rewrite Hk. cbn.
  by rewrite bool_decide_true.
Qed.

Lemma get_expired cache key (now : Z) (e : CacheEntry T) :
  cache !! key = Some e -> ttl e <= now - timestamp e ->
  get cache now key = (None, delete key cache).
Proof.
  intros Hk Hage. unfold get, isValid. rewrite Hk. cbn.
  rewrite bool_decide_false; [done | lia].
Qed.

Lemma get_absent cache key (now : Z) :
  cache !! key = None -> get cache now key = (None, cache).
Proof. intros Hk. unfold get. by rewrite Hk. Qed.

(** Whatever [get] returns is valid at the time of the call, and the
    cache it leaves holds no expired entry under that key. *)
Lemma get_Some_valid cache key (now : Z) (e : CacheEntry T) cache' :
  get cache now key = (Some e, cache') ->
  cache' = cache /\ cache !! key = Some e /\ now - timestamp e < ttl e.
Proof.
  unfold get, isValid. destruct (cache !! key) as [e'|] eqn:Hk; [| done].
  cbn. case_bool_decide; cbn; [| done]. intros [= <- <-]. done.
Qed.

Lemma get_None_gone cache key (now : Z) cache' :
  get cache now key = (None, cache') -> cache' !! key = None.
Proof.
  unfold get, isValid. destruct (cache !! key) as [e'|] eqn:Hk.
  - cbn. case_bool_decide; cbn; [done |]. intros [= <-]. apply lookup_delete_eq.
  - by intros [= <-].
Qed.

(** C7: a value stored by [set key v TTL] at time [t0] is returned
    unchanged by [get key] at time [t0 + t] whenever [t < TTL], the cache
    being left as it was; whenever [t >= TTL] the same [get] returns
    [null], deletes the entry, and [isValid] is false. *)
Theorem cache_ttl_semantics cache key v (TTL t0 t : Z) :
  let cache1 := set cache t0 key v TTL in
  (t < TTL ->
     get cache1 (t0 + t) key =
       (Some {| data := v; timestamp := t0; ttl := TTL |}, cache1))
  /\ (TTL <= t ->
        get cache1 (t0 + t) key = (None, delete key cache1)
        /\ (get cache1 (t0 + t) key).2 !! key = None
        /\ isValid cache1 (t0 + t) key = false).
Proof.
  intros cache1.
  assert (Hk : cache1 !! key = Some {| data := v; timestamp := t0; ttl := TTL |})
    by apply lookup_insert_eq.
  split.
  - intros Ht. apply get_valid; [exact Hk | cbn; lia].
  - intros Ht.
    assert (Hg : get cache1 (t0 + t) key = (None, delete key cache1))
      by (apply (get_expired _ _ _ _ Hk); cbn; lia).
    rewrite Hg. repeat split.
    + apply lookup_delete_eq.
    + unfold cache1. rewrite isValid_set. apply bool_decide_false. lia.
Qed.

End WithData.

(** The first end-to-end scenario: [set "cyclone" data 300000], then
    [get] four minutes later returns the data and six minutes later
    returns [null]. *)
Lemma cache_ttl_semantics_witness :
  let cache1 := set (∅ : gmap string (CacheEntry nat)) 1000 "cyclone" 7%nat 300000 in
  (get cache1 (1000 + 240000) "cyclone" =
     (Some {| data := 7%nat; timestamp := 1000; ttl := 300000 |}, cache1))
  /\ (get cache1 (1000 + 360000) "cyclone" = (None, delete "cyclone" cache1)
      /\ (get cache1 (1000 + 360000) "cyclone").2 !! "cyclone" = None
      /\ isValid cache1 (1000 + 360000) "cyclone" = false).
Proof.
  intros cache1. split.
  - apply (proj1 (cache_ttl_semantics ∅ "cyclone" 7%nat 300000 1000 240000)). lia.
  - apply (proj2 (cache_ttl_semantics ∅ "cyclone" 7%nat 300000 1000 360000)). lia.
Defined.

End CacheFacts.

(** ** Further properties of the cache manager *)

Module CacheLaws.
Import Cache CacheFacts.
Section WithData.
Context {T : Type}.
Implicit Types (cache : gmap string (CacheEntry T)) (key : string) (v : T).

(** Every read of a key is a function of the entry under that key. *)
Lemma sameReads_lookup cache cache' key :
  cache' !! key = cache !! key -> sameReads cache cache' key.
Proof.
  intros E now. unfold get, isValid, getAge, getFreshness. rewrite E.
  destruct (cache !! key) as [e|]; [| done].
  cbn. by case_bool_decide.
Qed.

Lemma getAge_None cache key (now : Z) :
  getAge cache now key = None <-> cache !! key = None.
Proof. unfold getAge. by destruct (cache !! key). Qed.

(** X8: the freshness of an entry is a matter of its age alone, not
    of its time to live.  An entry written by [set] reads [fresh] for
    15 minutes, [stale-yellow] up to 30 minutes, [stale-orange] up to
    60 minutes and [stale-red] from then on, also when its TTL has long
    run out; once a [get] has evicted it, the key reads [stale-red]
    at once. *)
Theorem freshness_after_set cache key v (TTL t0 t : Z) :
  let cache1 := set cache t0 key v TTL in
  (t < FRESHNESS_THRESHOLDS_fresh ->
     getFreshness cache1 (t0 + t) key = fresh)
  /\ (FRESHNESS_THRESHOLDS_fresh <= t < FRESHNESS_THRESHOLDS_yellow ->
        getFreshness cache1 (t0 + t) key = stale_yellow)
  /\ (FRESHNESS_THRESHOLDS_yellow <= t < FRESHNESS_THRESHOLDS_orange ->
        getFreshness cache1 (t0 + t) key = stale_orange)
  /\ (FRESHNESS_THRESHOLDS_orange <= t ->
        getFreshness cache1 (t0 + t) key = stale_red)
  /\ (TTL <= t ->
        getFreshness (get cache1 (t0 + t) key).2 (t0 + t) key = stale_red).
Proof.
  intros cache1.
  assert (Hk : cache1 !! key = Some {| data := v; timestamp := t0; ttl := TTL |})
    by apply lookup_insert_eq.
  unfold FRESHNESS_THRESHOLDS_fresh, FRESHNESS_THRESHOLDS_yellow,
    FRESHNESS_THRESHOLDS_orange.
  repeat split; intros Ht.
  1-4: unfold getFreshness, FRESHNESS_THRESHOLDS_fresh,
         FRESHNESS_THRESHOLDS_yellow, FRESHNESS_THRESHOLDS_orange;
       rewrite Hk; cbn [timestamp];
       repeat case_bool_decide; (done || lia).
  rewrite (get_expired _ _ _ _ Hk) by (cbn; lia). cbn [snd].
  unfold getFreshness. by rewrite lookup_delete_eq.
Qed.

(** X10: the keys of the cache are independent.  Writing, reading
    (with its eviction) or clearing one key changes nothing that a read
    of another key returns, at any time. *)
Theorem other_keys_untouched cache key other v (TTL t : Z) :
  key ≠ other ->
  sameReads cache (set cache t key v TTL) other
  /\ sameReads cache (get cache t key).2 other
  /\ (key ≠ "" -> sameReads cache (clear cache (Some key)) other).
Proof.
  intros Hne. split; [| split; [| intros Hk]]; apply sameReads_lookup.
  - unfold set. by rewrite lookup_insert_ne.
  - unfold get. destruct (cache !! key); [| done].
    destruct (negb _); cbn [snd]; [| done]. by rewrite lookup_delete_ne.
  - unfold clear. rewrite decide_False by done. by rewrite lookup_delete_ne.
Qed.

(** X11: [getSize] counts the entries.  [set] adds one for a key
    that is not held and none for a key that is; [get] takes one away
    exactly when it finds the entry expired, and leaves the cache as it
    is otherwise; after [clear()] the size is 0. *)
Theorem size_accounting cache key v (TTL now : Z) :
  0 <= getSize cache
  /\ (getAge cache now key = None ->
        getSize (set cache now key v TTL) = getSize cache + 1)
  /\ (getAge cache now key ≠ None ->
        getSize (set cache now key v TTL) = getSize cache)
  /\ (getAge cache now key ≠ None -> isValid cache now key = false ->
        getSize (get cache now key).2 = getSize cache - 1)
  /\ (getAge cache now key = None \/ isValid cache now key = true ->
        (get cache now key).2 = cache)
  /\ getSize (clear cache None) = 0.
Proof.
  unfold getSize. repeat split.
  - lia.
  - intros H. apply getAge_None in H. unfold set.
    rewrite map_size_insert_None by done. lia.
  - intros H. rewrite getAge_None in H. unfold set.
    rewrite map_size_insert_Some; [done |]. by apply not_eq_None_Some.
  - intros H Hv. rewrite getAge_None in H. apply not_eq_None_Some in H as He.
    destruct He as [e He]. unfold get. rewrite He, Hv. cbn.
    rewrite map_size_delete_Some by done.
    assert (size cache ≠ 0%nat).
    { intros E. apply map_size_empty_inv in E. by rewrite E in He. }
    lia.
  - intros [H | H].
    + apply getAge_None in H. unfold get. by rewrite H.
    + unfold get. destruct (cache !! key); [| done]. by rewrite H.
Qed.

(** X12: the eviction that [get] performs cannot be seen through
    [get] or [isValid] afterwards.  As long as the clock does not run
    backwards, every later [get] and [isValid] of the key answers as if
    the earlier [get] had not been made. *)
Theorem eviction_is_silent cache key (now later : Z) :
  now <= later ->
  let cache' := (get cache now key).2 in
  (get cache' later key).1 = (get cache later key).1
  /\ isValid cache' later key = isValid cache later key.
Proof.
  intros Hle cache'. unfold cache'.
  destruct (cache !! key) as [e|] eqn:Hk; [| by rewrite (get_absent cache key now Hk)].
  destruct (decide (now - timestamp e < ttl e)) as [Hv | Hx].
  - by rewrite (get_valid _ _ _ _ Hk Hv).
  - rewrite (get_expired _ _ _ _ Hk) by lia. cbn [snd].
    rewrite (get_expired _ _ later _ Hk) by lia. cbn [fst].
    unfold get, isValid. rewrite lookup_delete_eq, Hk. cbn.
    split; [done |]. symmetry. apply bool_decide_false. lia.
Qed.

End WithData.

Lemma freshness_after_set_witness :
  let cache1 := set (∅ : gmap string (CacheEntry nat)) 1000 "cyclone" 7%nat 300000 in
  getFreshness cache1 (1000 + 600000) "cyclone" = fresh
  /\ getFreshness cache1 (1000 + 1000000) "cyclone" = stale_yellow
  /\ getFreshness cache1 (1000 + 2000000) "cyclone" = stale_orange
  /\ getFreshness cache1 (1000 + 4000000) "cyclone" = stale_red
  /\ getFreshness (get cache1 (1000 + 600000) "cyclone").2 (1000 + 600000) "cyclone"
     = stale_red.
Proof.
  intros cache1.
  pose proof (freshness_after_set ∅ "cyclone" 7%nat 300000 1000 600000) as (H1 & _ & _ & _ & H5).
  pose proof (freshness_after_set ∅ "cyclone" 7%nat 300000 1000 1000000) as (_ & H2 & _).
  pose proof (freshness_after_set ∅ "cyclone" 7%nat 300000 1000 2000000) as (_ & _ & H3 & _).
  pose proof (freshness_after_set ∅ "cyclone" 7%nat 300000 1000 4000000) as (_ & _ & _ & H4 & _).
  split; [| split; [| split; [| split]]].
  - apply H1. reflexivity.
  - apply H2. split; [discriminate | reflexivity].
  - apply H3. split; [discriminate | reflexivity].
  - apply H4. discriminate.
  - apply H5. discriminate.
Defined.

Lemma other_keys_untouched_witness :
  let cache := set (∅ : gmap string (CacheEntry nat)) 1000 "districts" 3%nat 300000 in
  sameReads cache (set cache 2000 "cyclone" 7%nat 300000) "districts"
  /\ sameReads cache (get cache 2000 "cyclone").2 "districts"
  /\ sameReads cache (clear cache (Some "cyclone")) "districts".
Proof.
  intros cache.
  destruct (other_keys_untouched cache "cyclone" "districts" 7%nat 300000 2000)
    as (H1 & H2 & H3); [done |].
  split; [exact H1 | split; [exact H2 | by apply H3]].
Defined.

Lemma size_accounting_witness :
  let cache := set (∅ : gmap string (CacheEntry nat)) 1000 "cyclone" 7%nat 300000 in
  getSize (set cache 2000 "districts" 3%nat 300000) = getSize cache + 1
  /\ getSize (set cache 2000 "cyclone" 8%nat 300000) = getSize cache
  /\ getSize (get cache 400000 "cyclone").2 = getSize cache - 1
  /\ (get cache 2000 "cyclone").2 = cache.
Proof.
  intros cache.
  pose proof (size_accounting cache "districts" 3%nat 300000 2000) as (_ & H1 & _).
  pose proof (size_accounting cache "cyclone" 8%nat 300000 2000)
    as (_ & _ & H2 & _ & H4 & _).
  pose proof (size_accounting cache "cyclone" 8%nat 300000 400000)
    as (_ & _ & _ & H3 & _).
  split; [| split; [| split]].
  - by apply H1.
  - by apply H2.
  - by apply H3.
  - apply H4. by right.
Defined.

Lemma eviction_is_silent_witness :
  let cache := set (∅ : gmap string (CacheEntry nat)) 1000 "cyclone" 7%nat 300000 in
  let cache' := (get cache 400000 "cyclone").2 in
  (get cache' 500000 "cyclone").1 = (get cache 500000 "cyclone").1
  /\ isValid cache' 500000 "cyclone" = isValid cache 500000 "cyclone".
Proof.
  intros cache. apply (eviction_is_silent cache "cyclone" 400000 500000). lia.
Defined.

End CacheLaws.

(** ** Properties of the freshness indicator *)

Module DataFreshnessIndicatorLaws.
Import Cache CacheFacts DataFreshnessIndicator.
Section WithData.
Context {T : Type}.
Implicit Types (cache : gmap string (CacheEntry T)) (cacheKey : string).

(** X9: what the freshness indicator shows.  For a key without a
    valid entry it shows [fresh] with an age of 0 minutes and the
    fallback time (or the time of rendering), although [getFreshness]
    may say otherwise; for a valid entry it shows the entry's time and
    its age in whole minutes; and when the entry's time to live is at
    most 15 minutes, as are all those of [CACHE_CONFIG], it shows
    [fresh] in every case. *)
Theorem indicator_shows_fresh cache (now : Z) cacheKey (fallbackTimestamp : option Z) :
  let shown := (dataFreshness cache now cacheKey fallbackTimestamp).1 in
  (isValid cache now cacheKey = false ->
     shown = {| indicator := fresh;
                timestamp := default now fallbackTimestamp;
                ageMinutes := 0 |})
  /\ (forall entry,
        cache !! cacheKey = Some entry -> isValid cache now cacheKey = true ->
        timestamp shown = Cache.timestamp entry
        /\ ageMinutes shown = (now - Cache.timestamp entry) / 60000
        /\ ageMinutes shown * 60000 < ttl entry)
  /\ ((forall entry, cache !! cacheKey = Some entry ->
                     ttl entry <= FRESHNESS_THRESHOLDS_fresh) ->
      indicator shown = fresh).
Proof.
  cbv zeta. unfold dataFreshness.
  destruct (cache !! cacheKey) as [e|] eqn:Hk.
  - destruct (decide (now - Cache.timestamp e < ttl e)) as [Hv | Hx].
    + rewrite (get_valid _ _ _ _ Hk Hv). cbn [fst].
      assert (Hval : isValid cache now cacheKey = true).
      { unfold isValid. rewrite Hk. by apply bool_decide_true. }
      split; [by rewrite Hval |]. split.
      * intros entry [= <-] _. cbn [timestamp ageMinutes].
        split; [done |]. split; [done |].
        change (1000 * 60) with 60000.
        pose proof (Z.mul_div_le (now - Cache.timestamp e) 60000 eq_refl). lia.
      * intros Httl. specialize (Httl e eq_refl). cbn [indicator].
        unfold getFreshness. rewrite Hk. cbn. rewrite bool_decide_true; [done | lia].
    + rewrite (get_expired _ _ _ _ Hk) by lia. cbn [fst].
      assert (Hval : isValid cache now cacheKey = false).
      { unfold isValid. rewrite Hk. apply bool_decide_false. lia. }
      split; [done |]. split; [| done].
      intros entry _ Hv. by rewrite Hval in Hv.
  - rewrite (get_absent _ _ _ Hk). cbn [fst].
    split; [done |]. split; [| done]. intros entry [=].
Qed.

End WithData.

(** An entry written with the TTL of the cyclone data, seen two
    minutes later and eight minutes later. *)
Lemma indicator_shows_fresh_witness :
  let cache :=
    set (∅ : gmap string (CacheEntry nat)) 1000 "cyclone" 7%nat
      CACHE_CONFIG_cycloneData in
  (dataFreshness cache 481000 "cyclone" (Some 500)).1
    = {| indicator := fresh; timestamp := 500; ageMinutes := 0 |}
  /\ (timestamp (dataFreshness cache 121000 "cyclone" None).1 = 1000
      /\ ageMinutes (dataFreshness cache 121000 "cyclone" None).1
         = (121000 - 1000) / 60000
      /\ ageMinutes (dataFreshness cache 121000 "cyclone" None).1 * 60000 < 300000)
  /\ indicator (dataFreshness cache 121000 "cyclone" None).1 = fresh.
Proof.
  intros cache. split; [| split].
  - by apply (indicator_shows_fresh cache 481000 "cyclone" (Some 500)).
  - by apply (proj1 (proj2 (indicator_shows_fresh cache 121000 "cyclone" None))
                {| data := 7%nat; Cache.timestamp := 1000; ttl := 300000 |}).
  - apply (indicator_shows_fresh cache 121000 "cyclone" None).
    intros entry [= <-]. discriminate.
Defined.

End DataFreshnessIndicatorLaws.

(** ** Properties of the rate limiter *)

Module RateLimitFacts.
Import RateLimit RateLimitRun.
Implicit Types (rl : RateLimiter) (endpoint : string) (now : Z)
  (l : list RequestRecord).

(** The requests still inside the window that ends at [now]. *)
Abbreviation inWindow rl now :=
  (filter (λ record, now - timestamp record < windowMs rl)).

Lemma with_requests_id rl : with_requests rl (requests rl) = rl.
Proof. by destruct rl. Qed.

(** *** What pruning does *)

Lemma cleanup_lookup rl now endpoint :
  requests (cleanupOldRequests rl now endpoint) !! endpoint =
    match requests rl !! endpoint with
    | None => None
    | Some l => if decide (length (inWindow rl now l) = 0%nat) then None
                else Some (inWindow rl now l)
    end.
Proof.
  unfold cleanupOldRequests. destruct (requests rl !! endpoint) as [l|] eqn:Hl.
  - case_decide; cbn; [apply lookup_delete_eq | apply lookup_insert_eq].
  - exact Hl.
Qed.

Lemma cleanup_lookup_ne rl now endpoint other :
  endpoint ≠ other ->
  requests (cleanupOldRequests rl now endpoint) !! other = requests rl !! other.
Proof.
  intros Hne. unfold cleanupOldRequests.
  destruct (requests rl !! endpoint) as [l|]; [| done].
  case_decide; cbn; [by apply lookup_delete_ne | by apply lookup_insert_ne].
Qed.

Lemma cleanup_config rl now endpoint :
  maxRequests (cleanupOldRequests rl now endpoint) = maxRequests rl
  /\ windowMs (cleanupOldRequests rl now endpoint) = windowMs rl.
Proof.
  unfold cleanupOldRequests. destruct (requests rl !! endpoint); [| done].
  by case_decide.
Qed.

(** After pruning, the list of the endpoint is exactly the part of the
    old list that lies inside the window. *)
Lemma cleanup_endpointRequests rl now endpoint :
  endpointRequests (cleanupOldRequests rl now endpoint) endpoint =
    inWindow rl now (endpointRequests rl endpoint).
Proof.
  unfold endpointRequests. rewrite cleanup_lookup.
  destruct (requests rl !! endpoint) as [l|]; [| done].
  case_decide as Hlen; cbn; [| done].
  symmetry. by apply length_zero_iff_nil.
Qed.

Lemma inWindow_all rl now l :
  Forall (λ record, now - timestamp record < windowMs rl) l ->
  inWindow rl now l = l.
Proof.
  induction 1 as [|r l Hr _ IH]; [done |].
  rewrite filter_cons_True; [by rewrite IH | done].
Qed.

(** *** Recording several requests *)

Lemma recordRequest_endpointRequests rl now endpoint :
  endpointRequests (recordRequest rl now endpoint) endpoint =
    inWindow rl now (endpointRequests rl endpoint) ++ [ {| timestamp := now |} ].
Proof.
  unfold recordRequest. rewrite cleanup_endpointRequests.
  unfold endpointRequests at 1. cbn. by rewrite lookup_insert_eq.
Qed.

Lemma recordRequest_config rl now endpoint :
  maxRequests (recordRequest rl now endpoint) = maxRequests rl
  /\ windowMs (recordRequest rl now endpoint) = windowMs rl.
Proof. unfold recordRequest. cbn. apply cleanup_config. Qed.

Lemma recordAll_config rl endpoint times :
  maxRequests (recordAll rl endpoint times) = maxRequests rl
  /\ windowMs (recordAll rl endpoint times) = windowMs rl.
Proof.
  unfold recordAll. revert rl. induction times as [|t times IH]; intros rl; [done |].
  cbn. destruct (IH (recordRequest rl t endpoint)) as [-> ->].
  apply recordRequest_config.
Qed.

(** If every recorded time is at most [now] and still inside the window
    that ends at [now], no call of the sequence prunes anything, and the
    list of the endpoint is the list of the recorded times. *)
Lemma recordAll_endpointRequests rl endpoint times now :
  Forall (λ t, t <= now /\ now - t < windowMs rl) times ->
  Forall (λ record, now - timestamp record < windowMs rl)
         (endpointRequests rl endpoint) ->
  endpointRequests (recordAll rl endpoint times) endpoint =
    endpointRequests rl endpoint ++ (mkRequestRecord <$> times).
Proof.
  unfold recordAll. revert rl.
  induction times as [|t times IH]; intros rl Htimes Hold.
  - cbn. by rewrite app_nil_r.
  - apply Forall_cons in Htimes as [[Ht1 Ht2] Htimes]. cbn [foldl].
    assert (Hkeep : inWindow rl t (endpointRequests rl endpoint)
                    = endpointRequests rl endpoint).
    { apply inWindow_all. eapply Forall_impl; [exact Hold |].
      cbn. intros r Hr. lia. }
    destruct (recordRequest_config rl t endpoint) as [_ Hwin].
    rewrite IH.
    + rewrite recordRequest_endpointRequests, Hkeep, <- app_assoc. done.
    + by rewrite Hwin.
    + rewrite Hwin, recordRequest_endpointRequests, Hkeep.
      apply Forall_app. split; [exact Hold |].
      apply Forall_singleton. cbn. lia.
Qed.

Lemma canMakeRequest_spec rl now endpoint :
  (canMakeRequest rl now endpoint).1 =
    bool_decide
      (Z.of_nat (length (inWindow rl now (endpointRequests rl endpoint)))
       < maxRequests rl).
Proof.
  unfold canMakeRequest. cbn.
  rewrite cleanup_endpointRequests.
  by destruct (cleanup_config rl now endpoint) as [-> _].
Qed.

Lemma getRemainingRequests_spec rl now endpoint :
  (getRemainingRequests rl now endpoint).1 =
    Z.max 0 (maxRequests rl
             - Z.of_nat (length (inWindow rl now (endpointRequests rl endpoint)))).
Proof.
  unfold getRemainingRequests. cbn.
  rewrite cleanup_endpointRequests.
  by destruct (cleanup_config rl now endpoint) as [-> _].
Qed.

(** C6: for an endpoint without recorded requests, after [recordRequest]
    has been called once for each of [N] times that lie inside the one-hour
    window ending at [now], [canMakeRequest] at [now] is false exactly when
    [N >= 12].  At any later time the pruned list holds exactly the
    recorded requests that are still inside the window, and
    [getRemainingRequests] is [max 0 (12 - count)] for that count; in
    particular, once the oldest request is an hour old or more it is no
    longer in the list and the count is smaller than [N]. *)
Theorem sliding_window_rate_limit rl endpoint (times : list Z) now :
  maxRequests rl = 12 ->
  windowMs rl = 60 * 60 * 1000 ->
  requests rl !! endpoint = None ->
  Forall (λ t, t <= now /\ now - t < 60 * 60 * 1000) times ->
  let rl' := recordAll rl endpoint times in
  ((canMakeRequest rl' now endpoint).1 = false <-> (12 <= length times)%nat)
  /\ (forall later,
        let counted :=
          filter (λ t, later - t < 60 * 60 * 1000) times in
        endpointRequests (cleanupOldRequests rl' later endpoint) endpoint
          = mkRequestRecord <$> counted
        /\ (getRemainingRequests rl' later endpoint).1
             = Z.max 0 (12 - Z.of_nat (length counted))
        /\ (forall oldest rest,
              oldest :: rest = times -> 60 * 60 * 1000 <= later - oldest ->
              (oldest ∉ counted) /\ (length counted < length times)%nat)).
Proof.
  intros Hmax Hwin Hnone Htimes rl'.
  destruct (recordAll_config rl endpoint times) as [Hmax' Hwin'].
  fold rl' in Hmax', Hwin'.
  assert (Hlist : endpointRequests rl' endpoint = mkRequestRecord <$> times).
  { unfold rl'. rewrite (recordAll_endpointRequests rl endpoint times now).
    - unfold endpointRequests. by rewrite Hnone.
    - by rewrite Hwin.
    - unfold endpointRequests. rewrite Hnone. constructor. }
  assert (Hprune : forall later,
            inWindow rl' later (mkRequestRecord <$> times)
            = mkRequestRecord <$> filter (λ t, later - t < 60 * 60 * 1000) times).
  { intros later. rewrite Hwin', Hwin. clear.
    induction times as [|t times IH]; [done |].
    rewrite fmap_cons. destruct (decide (later - t < 60 * 60 * 1000)) as [Hin|Hout].
    - rewrite !filter_cons_True by done. by rewrite fmap_cons, IH.
    - rewrite !filter_cons_False by done. exact IH. }
  split.
  - rewrite canMakeRequest_spec, Hlist, Hmax', Hmax.
    rewrite inWindow_all.
    + rewrite length_fmap, bool_decide_eq_false. lia.
    + rewrite Hwin', Hwin. apply Forall_fmap.
      eapply Forall_impl; [exact Htimes |]. cbn. intros t [_ Ht]. exact Ht.
  - intros later counted. split; [| split].
    + by rewrite cleanup_endpointRequests, Hlist, Hprune.
    + rewrite getRemainingRequests_spec, Hlist, Hprune, length_fmap.
      by rewrite Hmax', Hmax.
    + intros oldest rest <- Hold. split.
      * unfold counted. rewrite list_elem_of_filter. intros [Hin _]. lia.
      * unfold counted. apply (length_filter_lt _ _ oldest); [| lia].
        apply list_elem_of_here.
Qed.

(** Twelve requests, one a minute from time 0 on: at minute 20 the limit
    is reached; the scenario continues below. *)
Lemma sliding_window_rate_limit_witness :
  let times := (λ i : nat, 60000 * Z.of_nat i) <$> seq 0 12 in
  let rl' := recordAll rateLimiter "x" times in
  ((canMakeRequest rl' 1200000 "x").1 = false <-> (12 <= length times)%nat)
  /\ (forall later,
        let counted :=
          filter (λ t, later - t < 60 * 60 * 1000) times in
        endpointRequests (cleanupOldRequests rl' later "x") "x"
          = mkRequestRecord <$> counted
        /\ (getRemainingRequests rl' later "x").1
             = Z.max 0 (12 - Z.of_nat (length counted))
        /\ (forall oldest rest,
              oldest :: rest = times -> 60 * 60 * 1000 <= later - oldest ->
              (oldest ∉ counted) /\ (length counted < length times)%nat)).
Proof.
  intros times.
  apply (sliding_window_rate_limit rateLimiter "x" times 1200000);
    [reflexivity | reflexivity | reflexivity |].
  unfold times. cbn. repeat constructor; lia.
Defined.

(** The fourth end-to-end scenario: after twelve requests the limiter
    refuses, and once the clock has passed one hour from the last of them
    it accepts again. *)
Example twelve_requests_then_an_hour :
  let rl' := recordAll rateLimiter "x" ((λ i : nat, 60000 * Z.of_nat i) <$> seq 0 12) in
  (canMakeRequest rl' 1200000 "x").1 = false
  /\ (canMakeRequest rl' (660000 + 3600000) "x").1 = true
  /\ (getRemainingRequests rl' (3600000 + 125000) "x").1 = 3.
Proof. vm_compute. done. Qed.

(** *** The order of the request lists *)

Lemma StronglySorted_filter {A} (R : relation A) (P : A -> Prop)
    `{!forall x, Decision (P x)} (l : list A) :
  StronglySorted R l -> StronglySorted R (filter P l).
Proof.
  intros Hsorted. induction Hsorted as [|x l Hl IH Hx]; [constructor |].
  destruct (decide (P x)).
  - rewrite filter_cons_True by done. constructor; [exact IH |].
    apply Forall_forall. intros y [_ Hy]%list_elem_of_filter.
    by eapply Forall_forall in Hx.
  - by rewrite filter_cons_False.
Qed.

Lemma Forall_filter_weak {A} (Q P : A -> Prop)
    `{!forall x, Decision (P x)} (l : list A) :
  Forall Q l -> Forall Q (filter P l).
Proof.
  rewrite !Forall_forall. intros HQ x [_ Hx]%list_elem_of_filter. by apply HQ.
Qed.

Lemma ordered_later now now' rl : now <= now' -> ordered now rl -> ordered now' rl.
Proof.
  intros Hle Hord endpoint l Hl. destruct (Hord endpoint l Hl) as [Hs Hb].
  split; [exact Hs |]. eapply Forall_impl; [exact Hb |]. cbn. lia.
Qed.

Lemma ordered_cleanup now rl endpoint :
  ordered now rl -> ordered now (cleanupOldRequests rl now endpoint).
Proof.
  intros Hord other l. destruct (decide (endpoint = other)) as [<-|Hne].
  - rewrite cleanup_lookup.
    destruct (requests rl !! endpoint) as [l0|] eqn:Hl0; [| done].
    case_decide; [done |]. intros [= <-].
    destruct (Hord endpoint l0 Hl0) as [Hs Hb].
    split; [by apply StronglySorted_filter | by apply Forall_filter_weak].
  - rewrite cleanup_lookup_ne by done. apply Hord.
Qed.

Lemma ordered_endpointRequests now rl endpoint :
  ordered now rl ->
  StronglySorted older (endpointRequests rl endpoint)
  /\ Forall (λ record, timestamp record <= now) (endpointRequests rl endpoint).
Proof.
  intros Hord. unfold endpointRequests.
  destruct (requests rl !! endpoint) as [l|] eqn:Hl; cbn.
  - by apply (Hord endpoint).
  - split; constructor.
Qed.

Lemma ordered_recordRequest now rl endpoint :
  ordered now rl -> ordered now (recordRequest rl now endpoint).
Proof.
  intros Hord%(ordered_cleanup _ _ endpoint) other l.
  unfold recordRequest. cbn. destruct (decide (endpoint = other)) as [<-|Hne].
  - rewrite lookup_insert_eq. intros [= <-].
    destruct (ordered_endpointRequests _ _ endpoint Hord) as [Hs Hb].
    split.
    + apply StronglySorted_app_2; [| exact Hs | repeat constructor].
      intros x1 x2 Hx1 ->%list_elem_of_singleton.
      eapply Forall_forall in Hb; [| exact Hx1]. exact Hb.
    + apply Forall_app. split; [exact Hb |]. apply Forall_singleton. cbn. lia.
  - rewrite lookup_insert_ne by done. apply Hord.
Qed.

Lemma ordered_reset now rl (target : option string) :
  ordered now rl -> ordered now (reset rl target).
Proof.
  intros Hord other l. unfold reset.
  destruct target as [e|]; [case_decide |]; cbn; try by rewrite lookup_empty.
  destruct (decide (e = other)) as [<-|Hne].
  - by rewrite lookup_delete_eq.
  - rewrite lookup_delete_ne by done. apply Hord.
Qed.

Lemma ordered_run now rl c : ordered now rl -> ordered now (run rl now c).
Proof.
  intros Hord. destruct c as [e|e|e|e|e|]; cbn.
  - by apply ordered_cleanup.
  - by apply ordered_recordRequest.
  - by apply ordered_cleanup.
  - apply (ordered_cleanup _ _ e) in Hord. unfold getTimeUntilNextRequest.
    case_bool_decide; [done |].
    by destruct (endpointRequests _ e !! 0%nat).
  - by apply ordered_reset.
  - done.
Qed.

Lemma reachable_ordered max win now rl : reachable max win now rl -> ordered now rl.
Proof.
  induction 1 as [t | t t' rl c _ IH Hle].
  - intros endpoint l. cbn. by rewrite lookup_empty.
  - apply ordered_run. by apply (ordered_later t).
Qed.

(** In a sorted list the element at index 0 is the oldest. *)
Lemma sorted_head_oldest l (first record : RequestRecord) :
  StronglySorted older l -> l !! 0%nat = Some first -> record ∈ l ->
  timestamp first <= timestamp record.
Proof.
  intros Hs Hfirst Hin. destruct l as [|r l]; [done |].
  injection Hfirst as ->. apply StronglySorted_inv in Hs as [_ Hall].
  apply elem_of_cons in Hin as [-> | Hin]; [done |].
  by eapply Forall_forall in Hall.
Qed.

(** C10: when the clock never runs backwards, every state that a
    sequence of calls reaches from a fresh limiter keeps the list of each
    endpoint sorted by ascending time; the element at index 0 is then the
    oldest of the list, and the element at index 0 of the pruned list that
    [getTimeUntilNextRequest] reads at a later time is the oldest of the
    requests that are still inside the window. *)
Theorem rate_window_ordered max win now rl :
  reachable max win now rl ->
  forall endpoint,
    StronglySorted older (endpointRequests rl endpoint)
    /\ (forall first record,
          endpointRequests rl endpoint !! 0%nat = Some first ->
          record ∈ endpointRequests rl endpoint ->
          timestamp first <= timestamp record)
    /\ (forall later first record,
          now <= later ->
          endpointRequests (cleanupOldRequests rl later endpoint) endpoint !! 0%nat
            = Some first ->
          record ∈ endpointRequests rl endpoint ->
          later - timestamp record < windowMs rl ->
          later - timestamp first < windowMs rl
          /\ first ∈ endpointRequests rl endpoint
          /\ timestamp first <= timestamp record).
Proof.
  intros Hreach endpoint.
  pose proof (reachable_ordered _ _ _ _ Hreach) as Hord.
  destruct (ordered_endpointRequests _ _ endpoint Hord) as [Hs _].
  split; [exact Hs |]. split.
  - intros first record. by apply sorted_head_oldest.
  - intros later first record Hle Hfirst Hin Hwin.
    rewrite cleanup_endpointRequests in Hfirst.
    assert (Hf : first ∈ inWindow rl later (endpointRequests rl endpoint))
      by (apply list_elem_of_lookup; eauto).
    pose proof Hf as [Hfw Hfin]%list_elem_of_filter.
    repeat split; [exact Hfw | exact Hfin |].
    apply (sorted_head_oldest (inWindow rl later (endpointRequests rl endpoint)));
      [by apply StronglySorted_filter | exact Hfirst |].
    apply list_elem_of_filter. done.
Qed.

(** A history of three calls with a clock that stands still once. *)
Lemma rate_window_ordered_witness :
  let rl :=
    run (run (run (new 12 3600000) 10 (RecordRequest "cyclone"))
             10 (CanMakeRequest "cyclone"))
        25 (RecordRequest "cyclone") in
  StronglySorted older (endpointRequests rl "cyclone")
  /\ (forall first record,
        endpointRequests rl "cyclone" !! 0%nat = Some first ->
        record ∈ endpointRequests rl "cyclone" ->
        timestamp first <= timestamp record)
  /\ (forall later first record,
        25 <= later ->
        endpointRequests (cleanupOldRequests rl later "cyclone") "cyclone" !! 0%nat
          = Some first ->
        record ∈ endpointRequests rl "cyclone" ->
        later - timestamp record < windowMs rl ->
        later - timestamp first < windowMs rl
        /\ first ∈ endpointRequests rl "cyclone"
        /\ timestamp first <= timestamp record).
Proof.
  intros rl. apply (rate_window_ordered 12 3600000 25 rl).
  unfold rl.
  apply (reachable_call _ _ 10); [| lia].
  apply (reachable_call _ _ 10); [| lia].
  apply (reachable_call _ _ 0); [| lia].
  apply reachable_new.
Defined.

End RateLimitFacts.

(** ** Further properties of the rate limiter *)

Module RateLimitLaws.
Import RateLimit RateLimitRun RateLimitFacts.
Implicit Types (rl : RateLimiter) (endpoint : string) (now : Z)
  (l : list RequestRecord).

Lemma getTimeUntilNextRequest_spec rl now endpoint :
  (getTimeUntilNextRequest rl now endpoint).1 =
    let pruned := inWindow rl now (endpointRequests rl endpoint) in
    if bool_decide (Z.of_nat (length pruned) < maxRequests rl) then Ok 0
    else
      match pruned !! 0%nat with
      | None =>
          Throw (handleRateLimitError (JsError undefined_timestamp_message)
                   "getTimeUntilNextRequest")
      | Some oldestRequest =>
          Ok (Z.max 0 ((timestamp oldestRequest + windowMs rl) - now))
      end.
Proof.
  unfold getTimeUntilNextRequest. cbv zeta.
  rewrite cleanup_endpointRequests.
  destruct (cleanup_config rl now endpoint) as [-> ->].
  case_bool_decide; [done |].
  by destruct (inWindow rl now (endpointRequests rl endpoint) !! 0%nat).
Qed.

(** The answers about an endpoint depend on its list and on the two
    limits only. *)
Lemma sameAnswers_lookup rl rl' endpoint :
  requests rl' !! endpoint = requests rl !! endpoint ->
  maxRequests rl' = maxRequests rl -> windowMs rl' = windowMs rl ->
  sameAnswers rl rl' endpoint.
Proof.
  intros Hl Hmax Hwin now.
  rewrite !canMakeRequest_spec, !getRemainingRequests_spec,
    !getTimeUntilNextRequest_spec.
  unfold endpointRequests. by rewrite Hl, Hmax, Hwin.
Qed.

(** The head of a pruned list is inside the window. *)
Lemma pruned_head_inside rl now l (first : RequestRecord) :
  inWindow rl now l !! 0%nat = Some first -> now - timestamp first < windowMs rl.
Proof.
  intros H. assert (Hin : first ∈ inWindow rl now l)
    by (apply list_elem_of_lookup; eauto).
  by apply list_elem_of_filter in Hin as [? _].
Qed.

Lemma questions_leave_pruned_state rl now endpoint :
  (canMakeRequest rl now endpoint).2 = cleanupOldRequests rl now endpoint
  /\ (getRemainingRequests rl now endpoint).2 = cleanupOldRequests rl now endpoint
  /\ (getTimeUntilNextRequest rl now endpoint).2 = cleanupOldRequests rl now endpoint.
Proof.
  split; [done |]. split; [done |].
  unfold getTimeUntilNextRequest. cbv zeta. case_bool_decide; [done |].
  by destruct (endpointRequests _ endpoint !! 0%nat).
Qed.

(** X13: the three questions agree.  At any one time
    [canMakeRequest] says yes exactly when [getRemainingRequests] is
    positive and exactly when [getTimeUntilNextRequest] is 0; the three
    leave the limiter in the same state, that of the pruning. *)
Theorem limiter_answers_agree rl now endpoint :
  ((canMakeRequest rl now endpoint).1 = true
     <-> 0 < (getRemainingRequests rl now endpoint).1)
  /\ ((canMakeRequest rl now endpoint).1 = true
        <-> (getTimeUntilNextRequest rl now endpoint).1 = Ok 0)
  /\ (canMakeRequest rl now endpoint).2 = cleanupOldRequests rl now endpoint
  /\ (getRemainingRequests rl now endpoint).2 = cleanupOldRequests rl now endpoint
  /\ (getTimeUntilNextRequest rl now endpoint).2 = cleanupOldRequests rl now endpoint.
Proof.
  rewrite canMakeRequest_spec, getRemainingRequests_spec,
    getTimeUntilNextRequest_spec. cbv zeta.
  split; [| split; [| split; [done | split; [done |]]]].
  - rewrite bool_decide_eq_true. lia.
  - rewrite bool_decide_eq_true. case_bool_decide as Hlt; [done |].
    split; [done |].
    destruct (inWindow rl now (endpointRequests rl endpoint) !! 0%nat)
      as [first|] eqn:Hfirst; [| done].
    apply pruned_head_inside in Hfirst. intros [= E]. lia.
  - unfold getTimeUntilNextRequest. cbv zeta. case_bool_decide; [done |].
    by destruct (endpointRequests _ endpoint !! 0%nat).
Qed.

Lemma inWindow_later rl now later l :
  now <= later -> inWindow rl later (inWindow rl now l) = inWindow rl later l.
Proof.
  intros Hle. induction l as [|r l IH]; [done |].
  destruct (decide (later - timestamp r < windowMs rl)) as [Hin | Hout].
  - rewrite (filter_cons_True (λ record, now - timestamp record < windowMs rl))
      by (cbn; lia).
    rewrite !(filter_cons_True (λ record, later - timestamp record < windowMs rl))
      by done.
    by rewrite IH.
  - rewrite (filter_cons_False (λ record, later - timestamp record < windowMs rl) r l)
      by done.
    destruct (decide (now - timestamp r < windowMs rl)).
    + rewrite (filter_cons_True (λ record, now - timestamp record < windowMs rl))
        by done.
      by rewrite filter_cons_False.
    + by rewrite (filter_cons_False (λ record, now - timestamp record < windowMs rl)).
Qed.

(** X14: [getTimeUntilNextRequest] is the exact waiting time.  For a
    limiter whose lists are in order, with a limit of at least one
    request and no more requests of the endpoint inside the window than
    the limit allows, the method returns a time [wait] between 0 and the
    length of the window such that [canMakeRequest] says yes at
    [now + wait] and says no at every time from [now] up to then. *)
Theorem wait_time_is_exact rl now endpoint :
  ordered now rl ->
  1 <= maxRequests rl ->
  Z.of_nat (length (endpointRequests (cleanupOldRequests rl now endpoint) endpoint))
    <= maxRequests rl ->
  exists wait,
    (getTimeUntilNextRequest rl now endpoint).1 = Ok wait
    /\ 0 <= wait <= Z.max 0 (windowMs rl)
    /\ (canMakeRequest rl (now + wait) endpoint).1 = true
    /\ (forall t, now <= t < now + wait ->
          (canMakeRequest rl t endpoint).1 = false).
Proof.
  intros Hord Hmax Hcount. rewrite cleanup_endpointRequests in Hcount.
  destruct (ordered_endpointRequests _ _ endpoint Hord) as [Hsorted Hpast].
  rewrite getTimeUntilNextRequest_spec. cbv zeta.
  set (pruned := inWindow rl now (endpointRequests rl endpoint)) in *.
  case_bool_decide as Hlt.
  - exists 0. split; [done |]. split; [lia |]. split; [| lia].
    rewrite Z.add_0_r, canMakeRequest_spec. by apply bool_decide_true.
  - destruct pruned as [|first rest] eqn:Hpruned; [cbn in Hlt; lia |].
    cbn [lookup list_lookup]. cbn in Hlt, Hcount.
    assert (Hin : first ∈ inWindow rl now (endpointRequests rl endpoint))
      by (fold pruned; rewrite Hpruned; apply list_elem_of_here).
    apply list_elem_of_filter in Hin as [Hinside Hfirst].
    assert (Hnow : timestamp first <= now)
      by (by eapply Forall_forall in Hpast).
    exists (timestamp first + windowMs rl - now).
    split; [f_equal; lia |]. split; [lia |]. split.
    + rewrite canMakeRequest_spec. apply bool_decide_true.
      rewrite <- (inWindow_later rl now) by lia. fold pruned. rewrite Hpruned.
      rewrite filter_cons_False by (cbn; lia).
      pose proof (length_filter
                    (λ record, now + (timestamp first + windowMs rl - now)
                               - timestamp record < windowMs rl) rest).
      lia.
    + intros t Ht. rewrite canMakeRequest_spec. apply bool_decide_false.
      rewrite <- (inWindow_later rl now) by lia. fold pruned. rewrite Hpruned.
      rewrite inWindow_all; [cbn; lia |].
      assert (Hs : StronglySorted older (first :: rest)).
      { rewrite <- Hpruned. by apply StronglySorted_filter. }
      apply Forall_forall. intros record Hrecord.
      pose proof (sorted_head_oldest (first :: rest) first record Hs eq_refl Hrecord).
      lia.
Qed.

(** A limiter of two requests an hour that has recorded two; the wait
    is the time until the first of them leaves the window. *)
Lemma wait_time_is_exact_witness :
  let rl :=
    run (run (new 2 3600000) 10 (RecordRequest "cyclone"))
        25 (RecordRequest "cyclone") in
  exists wait,
    (getTimeUntilNextRequest rl 100 "cyclone").1 = Ok wait
    /\ 0 <= wait <= Z.max 0 (windowMs rl)
    /\ (canMakeRequest rl (100 + wait) "cyclone").1 = true
    /\ (forall t, 100 <= t < 100 + wait ->
          (canMakeRequest rl t "cyclone").1 = false).
Proof.
  intros rl. apply (wait_time_is_exact rl 100 "cyclone").
  - apply (ordered_later 25); [lia |].
    apply (reachable_ordered 2 3600000). unfold rl.
    apply (reachable_call _ _ 10); [| lia].
    apply (reachable_call _ _ 0); [| lia].
    apply reachable_new.
  - by vm_compute.
  - by vm_compute.
Defined.

(** X15: the endpoints are independent.  A call that names one
    endpoint changes no answer about another endpoint, at any time. *)
Theorem endpoints_are_independent rl now endpoint other :
  endpoint ≠ other ->
  sameAnswers rl (canMakeRequest rl now endpoint).2 other
  /\ sameAnswers rl (recordRequest rl now endpoint) other
  /\ sameAnswers rl (getRemainingRequests rl now endpoint).2 other
  /\ sameAnswers rl (getTimeUntilNextRequest rl now endpoint).2 other
  /\ (endpoint ≠ "" -> sameAnswers rl (reset rl (Some endpoint)) other).
Proof.
  intros Hne.
  assert (Hclean : sameAnswers rl (cleanupOldRequests rl now endpoint) other).
  { destruct (cleanup_config rl now endpoint).
    apply sameAnswers_lookup; [by apply cleanup_lookup_ne | done..]. }
  destruct (questions_leave_pruned_state rl now endpoint) as (-> & -> & ->).
  split; [exact Hclean |]. split; [| split; [exact Hclean |]].
  - destruct (recordRequest_config rl now endpoint).
    apply sameAnswers_lookup; [| done..].
    unfold recordRequest. cbn. rewrite lookup_insert_ne by done.
    by apply cleanup_lookup_ne.
  - split; [exact Hclean |]. intros Hk.
    apply sameAnswers_lookup; unfold reset; rewrite decide_False by done;
      [| done..].
    cbn. by rewrite lookup_delete_ne.
Qed.

Lemma endpoints_are_independent_witness :
  let rl := recordRequest rateLimiter 1000 "districts" in
  sameAnswers rl (canMakeRequest rl 2000 "cyclone").2 "districts"
  /\ sameAnswers rl (recordRequest rl 2000 "cyclone") "districts"
  /\ sameAnswers rl (getRemainingRequests rl 2000 "cyclone").2 "districts"
  /\ sameAnswers rl (getTimeUntilNextRequest rl 2000 "cyclone").2 "districts"
  /\ sameAnswers rl (reset rl (Some "cyclone")) "districts".
Proof.
  intros rl.
  destruct (endpoints_are_independent rl 2000 "cyclone" "districts")
    as (H1 & H2 & H3 & H4 & H5); [done |].
  split; [exact H1 | split; [exact H2 | split; [exact H3 | split; [exact H4 |]]]].
  by apply H5.
Defined.

(** X16: [reset] gives the full quota back.  After [reset(endpoint)],
    and after [reset()] or [reset("")] (an empty name resets every
    endpoint, as no name does), the endpoint has all its requests left;
    with a limit of at least one request a request can be made at
    once. *)
Theorem reset_restores_quota rl (target : option string) endpoint now :
  target = None \/ target = Some "" \/ target = Some endpoint ->
  let rl' := reset rl target in
  (getRemainingRequests rl' now endpoint).1 = Z.max 0 (maxRequests rl)
  /\ (1 <= maxRequests rl ->
      (canMakeRequest rl' now endpoint).1 = true
      /\ (getTimeUntilNextRequest rl' now endpoint).1 = Ok 0).
Proof.
  intros Htarget rl'.
  assert (Hnone : requests rl' !! endpoint = None).
  { unfold rl', reset. destruct Htarget as [-> | [-> | ->]]; cbn;
      try apply lookup_empty.
    case_decide; cbn; [apply lookup_empty | apply lookup_delete_eq]. }
  assert (Hcfg : maxRequests rl' = maxRequests rl /\ windowMs rl' = windowMs rl).
  { unfold rl', reset. destruct target as [e|]; [case_decide |]; done. }
  destruct Hcfg as [Hmax Hwin].
  rewrite canMakeRequest_spec, getRemainingRequests_spec,
    getTimeUntilNextRequest_spec. cbv zeta.
  unfold endpointRequests. rewrite Hnone, Hmax. cbn.
  split; [f_equal; lia |]. intros H1.
  rewrite bool_decide_true by lia. done.
Qed.

Lemma reset_restores_quota_witness :
  let rl := recordAll rateLimiter "x" ((λ i : nat, 60000 * Z.of_nat i) <$> seq 0 12) in
  (getRemainingRequests (reset rl (Some "")) 1200000 "x").1 = Z.max 0 (maxRequests rl)
  /\ (canMakeRequest (reset rl (Some "")) 1200000 "x").1 = true
  /\ (getTimeUntilNextRequest (reset rl (Some "")) 1200000 "x").1 = Ok 0.
Proof.
  intros rl.
  destruct (reset_restores_quota rl (Some "") "x" 1200000) as [H1 H2];
    [by right; left |].
  split; [exact H1 |]. apply H2. by vm_compute.
Defined.

End RateLimitLaws.

(** ** Properties of the API client *)

Module APIClientFacts.
Import APIClient.
Section WithData.
Context {T : Type}.
Implicit Types (cfg : RetryConfig) (transport : Z -> FetchOutcome T)
  (endpoint : string) (retryCount : Z).

(** The decimal notation of a status is left alone in these proofs. *)
Local Opaque pretty.

Lemma fetchWithRetry_eq cfg transport endpoint retryCount :
  fetchWithRetry cfg transport endpoint retryCount =
    emit [Requested endpoint]
      match transport retryCount with
      | NetworkFailure error =>
          handleFetchError cfg error endpoint retryCount
            (λ _, fetchWithRetry cfg transport endpoint (retryCount + 1))
      | Responded response =>
          if negb (ok response) then
            handleHTTPError cfg response endpoint retryCount
              (λ _, fetchWithRetry cfg transport endpoint (retryCount + 1))
          else
            match json (body response) with
            | Throw error =>
                handleFetchError cfg error endpoint retryCount
                  (λ _, fetchWithRetry cfg transport endpoint (retryCount + 1))
            | Ok data =>
                match validateResponse data endpoint with
                | Throw error =>
                    handleFetchError cfg error endpoint retryCount
                      (λ _, fetchWithRetry cfg transport endpoint (retryCount + 1))
                | Ok data => ([], Ok data)
                end
            end
      end.
Proof. by rewrite fetchWithRetry_equation_1. Qed.

Lemma attempts_emit (events : list event) (r : Run T) :
  attempts (emit events r) = (attempts (events, r.2) + attempts r)%nat.
Proof. unfold attempts, emit. cbn. by rewrite omap_app, length_app. Qed.

(** A response that is neither a success nor a 5xx fails the call at
    once: one request, one log entry, an [API_ERROR]. *)
Lemma client_error_fails_at_once cfg transport endpoint retryCount response :
  transport retryCount = Responded response ->
  ok response = false ->
  ~ (500 <= status response < 600) ->
  fetchWithRetry cfg transport endpoint retryCount =
    ([Requested endpoint;
      Logged "HTTP Error" ("HTTP " +:+ pretty (status response)) endpoint],
     Throw (Dashboard {|
       err_type := API_ERROR;
       err_message :=
         "API request failed with status " +:+ pretty (status response)
           +:+ ": " +:+ endpoint;
       retryable := bool_decide (500 <= status response) |})).
Proof.
  intros Htr Hok Hnot. rewrite fetchWithRetry_eq, Htr, Hok. cbn [negb].
  unfold handleHTTPError, emit, logError. cbn [fst snd app error_message].
  destruct (bool_decide (500 <= status response)
            && bool_decide (status response < 600)) eqn:H5; [| done].
  apply andb_true_iff in H5 as [H1%bool_decide_eq_true H2%bool_decide_eq_true].
  lia.
Qed.

(** A 5xx response below the retry budget is followed by a pause and
    another request. *)
Lemma server_error_is_retried cfg transport endpoint retryCount response :
  transport retryCount = Responded response ->
  500 <= status response < 600 ->
  retryCount < maxRetries cfg ->
  fetchWithRetry cfg transport endpoint retryCount =
    emit [Requested endpoint;
          Logged "HTTP Error" ("HTTP " +:+ pretty (status response)) endpoint;
          Slept (calculateBackoffDelay cfg retryCount)]
      (fetchWithRetry cfg transport endpoint (retryCount + 1)).
Proof.
  intros Htr Hst Hlt. rewrite fetchWithRetry_eq, Htr.
  assert (Hok : ok response = false).
  { unfold ok. apply andb_false_iff. right. apply bool_decide_eq_false. lia. }
  rewrite Hok. cbn [negb]. unfold handleHTTPError.
  rewrite !bool_decide_true by lia. cbn [andb].
  destruct (decide (retryCount < maxRetries cfg)); [| done].
  unfold emit, logError. cbn [fst snd app error_message]. done.
Qed.

(** So is a network failure. *)
Lemma network_failure_is_retried cfg transport endpoint retryCount error :
  transport retryCount = NetworkFailure error ->
  retryCount < maxRetries cfg ->
  fetchWithRetry cfg transport endpoint retryCount =
    emit [Requested endpoint;
          Logged "Fetch Error" (error_message error) endpoint;
          Slept (calculateBackoffDelay cfg retryCount)]
      (fetchWithRetry cfg transport endpoint (retryCount + 1)).
Proof.
  intros Htr Hlt. rewrite fetchWithRetry_eq, Htr.
  unfold handleFetchError.
  destruct (decide (retryCount < maxRetries cfg)); [| done].
  unfold emit, logError. cbn [fst snd app]. done.
Qed.

(** And so is a successful response whose body is [null]: the
    [VALIDATION_ERROR] that [validateResponse] throws is caught by the
    [catch] of [fetchWithRetry] and handled as a fetch error. *)
Lemma null_body_is_retried cfg transport endpoint retryCount response :
  transport retryCount = Responded response ->
  ok response = true ->
  body response = BodyNull ->
  retryCount < maxRetries cfg ->
  fetchWithRetry cfg transport endpoint retryCount =
    emit [Requested endpoint;
          Logged "Fetch Error"
            ("Invalid response from " +:+ endpoint
               +:+ ": data is null or undefined") endpoint;
          Slept (calculateBackoffDelay cfg retryCount)]
      (fetchWithRetry cfg transport endpoint (retryCount + 1)).
Proof.
  intros Htr Hok Hbody Hlt. rewrite fetchWithRetry_eq, Htr, Hok, Hbody.
  cbn [negb json validateResponse]. unfold handleFetchError.
  destruct (decide (retryCount < maxRetries cfg)); [| done].
  unfold emit, logError. cbn [fst snd app error_message err_message]. done.
Qed.

Lemma attempts_requested endpoint (r : Run T) :
  attempts (emit [Requested endpoint] r) = S (attempts r).
Proof. done. Qed.

Lemma attempts_logged operation message context (r : Run T) :
  attempts (emit [Logged operation message context] r) = attempts r.
Proof. done. Qed.

Lemma attempts_slept ms (r : Run T) :
  attempts (emit [Slept ms] r) = attempts r.
Proof. done. Qed.

Lemma attempts_nil (x : result T) : attempts ([], x) = 0%nat.
Proof. done. Qed.




End WithData.

(** C2 at the failing input: with the default configuration, a server
    that answers every request with status 200 and the body [null] is
    asked four times, with pauses of 2, 4 and 8 seconds, and the call
    fails with a retryable [NETWORK_ERROR]; it does not fail at the first
    attempt.  A 404 at the same place fails at once. *)
Theorem null_body_exhausts_retry_budget :
  let answersNull : Z -> FetchOutcome nat :=
    λ _, Responded {| status := 200; body := BodyNull |} in
  let answers404 : Z -> FetchOutcome nat :=
    λ _, Responded {| status := 404; body := BodyNull |} in
  let run := fetchWithRetry DEFAULT_RETRY_CONFIG answersNull "/cyclone/current" 0 in
  attempts run = 4%nat
  /\ pauses run = [2000; 4000; 8000]
  /\ (exists e, run.2 = Throw (Dashboard e)
                /\ err_type e = NETWORK_ERROR /\ retryable e = true)
  /\ attempts (fetchWithRetry DEFAULT_RETRY_CONFIG answers404 "/cyclone/current" 0)
     = 1%nat.
Proof.
  cbv zeta. split; [vm_compute; reflexivity |].
  split; [vm_compute; reflexivity |].
  split; [| vm_compute; reflexivity].
  eexists. split; [vm_compute; reflexivity |]. split; reflexivity.
Qed.

End APIClientFacts.

(** ** Further properties of the API client *)

Module APIClientLaws.
Import APIClient APIClientFacts.
Section WithData.
Context {T : Type}.
Implicit Types (cfg : RetryConfig) (transport : Z -> FetchOutcome T)
  (endpoint : string) (retryCount : Z).

Local Opaque pretty.

Lemma pauses_requested endpoint (r : Run T) :
  pauses (emit [Requested endpoint] r) = pauses r.
Proof. done. Qed.

Lemma pauses_logged operation message context (r : Run T) :
  pauses (emit [Logged operation message context] r) = pauses r.
Proof. done. Qed.

Lemma pauses_slept ms (r : Run T) :
  pauses (emit [Slept ms] r) = ms :: pauses r.
Proof. done. Qed.

Lemma pauses_nil (x : result T) : pauses ([], x) = [].
Proof. done. Qed.

(** One more round: a request, its log entry, a pause and then a run
    from the next retry count. *)
Lemma shaped_round cfg transport endpoint retryCount operation message context
    (rest : Run T) :
  shaped cfg transport (retryCount + 1) rest ->
  shaped cfg transport retryCount
    (emit [Requested endpoint]
       (emit [Logged operation message context]
          (emit [Slept (calculateBackoffDelay cfg retryCount)] rest))).
Proof.
  intros (Hn & Hp & He). unfold shaped.
  rewrite attempts_requested, attempts_logged, attempts_slept.
  rewrite pauses_requested, pauses_logged, pauses_slept.
  split; [lia |]. split.
  - replace (S (attempts rest) - 1)%nat with (S (attempts rest - 1)) by lia.
    cbn [seq fmap list_fmap]. f_equal; [f_equal; lia |].
    rewrite Hp, <- fmap_S_seq, <- list_fmap_compose.
    apply list_fmap_ext. intros _ i _. cbn. f_equal. lia.
  - replace (retryCount + Z.of_nat (S (attempts rest)) - 1)
      with (retryCount + 1 + Z.of_nat (attempts rest) - 1) by lia.
    exact He.
Qed.

Lemma shaped_handleFetchError cfg transport endpoint retryCount error
    (retry : retryCount < maxRetries cfg -> Run T) :
  (forall H, shaped cfg transport (retryCount + 1) (retry H)) ->
  shaped cfg transport retryCount
    (emit [Requested endpoint]
       (handleFetchError cfg error endpoint retryCount retry)).
Proof.
  intros Hretry. unfold handleFetchError, logError.
  destruct (decide (retryCount < maxRetries cfg)) as [Hlt | Hge].
  - by apply shaped_round.
  - unfold shaped. rewrite attempts_requested, attempts_logged, attempts_nil.
    split; [done |]. split; [done |].
    replace (retryCount + Z.of_nat 1 - 1) with retryCount by lia.
    unfold endsWith. cbn [snd emit].
    eexists. split; [reflexivity |]. left. cbn [err_type retryable].
    repeat split. lia.
Qed.

Lemma shaped_handleHTTPError cfg transport endpoint retryCount response
    (retry : retryCount < maxRetries cfg -> Run T) :
  transport retryCount = Responded response -> ok response = false ->
  (forall H, shaped cfg transport (retryCount + 1) (retry H)) ->
  shaped cfg transport retryCount
    (emit [Requested endpoint]
       (handleHTTPError cfg response endpoint retryCount retry)).
Proof.
  intros Htr Hok Hretry. unfold handleHTTPError, logError.
  assert (Hfail : forall reason :
            status response < 500 \/ 600 <= status response
            \/ maxRetries cfg <= retryCount,
            shaped cfg transport retryCount
              (emit [Requested endpoint]
                 (emit [Logged "HTTP Error"
                          (error_message (JsError ("HTTP " +:+ pretty (status response))))
                          endpoint]
                    ([], Throw (Dashboard {|
                       err_type := API_ERROR;
                       err_message :=
                         "API request failed with status "
                           +:+ pretty (status response) +:+ ": " +:+ endpoint;
                       retryable := bool_decide (500 <= status response) |}))))).
  { intros reason. unfold shaped.
    rewrite attempts_requested, attempts_logged, attempts_nil.
    split; [done |]. split; [done |].
    replace (retryCount + Z.of_nat 1 - 1) with retryCount by lia.
    unfold endsWith. cbn [snd emit].
    eexists. split; [reflexivity |]. right. cbn [err_type retryable].
    split; [done |]. by exists response. }
  destruct (bool_decide (500 <= status response)
            && bool_decide (status response < 600)) eqn:H5.
  - destruct (decide (retryCount < maxRetries cfg)) as [Hlt | Hge].
    + by apply shaped_round.
    + apply Hfail. right. right. lia.
  - apply Hfail. apply andb_false_iff in H5 as [H5 | H5];
      apply bool_decide_eq_false in H5; lia.
Qed.

(** Every run has that shape. *)
Lemma fetchWithRetry_shaped cfg transport endpoint retryCount :
  shaped cfg transport retryCount (fetchWithRetry cfg transport endpoint retryCount).
Proof.
  remember (Z.to_nat (maxRetries cfg - retryCount)) as fuel eqn:Hfuel.
  revert retryCount Hfuel.
  induction fuel as [fuel IH] using lt_wf_ind. intros retryCount Hfuel.
  assert (Hrec : forall H : retryCount < maxRetries cfg,
            shaped cfg transport (retryCount + 1)
              (fetchWithRetry cfg transport endpoint (retryCount + 1))).
  { intros Hlt. apply (IH (Z.to_nat (maxRetries cfg - (retryCount + 1))));
      [lia | done]. }
  rewrite fetchWithRetry_eq.
  destruct (transport retryCount) as [error | response] eqn:Htr.
  - by apply shaped_handleFetchError.
  - destruct (ok response) eqn:Hok; cbn [negb].
    + destruct (json (body response)) as [data | error] eqn:Hjson.
      * destruct (validateResponse data endpoint) as [d | error] eqn:Hvalid.
        -- unfold shaped. rewrite attempts_requested, attempts_nil.
           split; [done |]. split; [done |].
           replace (retryCount + Z.of_nat 1 - 1) with retryCount by lia.
           unfold endsWith. cbn [snd emit].
           exists response. split; [done |]. split; [done |].
           destruct (body response); cbn in Hjson; [| | done].
           ++ injection Hjson as <-. cbn in Hvalid. by injection Hvalid as <-.
           ++ injection Hjson as <-. done.
        -- by apply shaped_handleFetchError.
      * by apply shaped_handleFetchError.
    + by apply shaped_handleHTTPError.
Qed.



(** X18: how a call ends.  A value returned is the body of the
    response to the last request, which had a success status.  An error
    thrown is a [DashboardError], either a retryable [NETWORK_ERROR]
    thrown when no retry was left, or an [API_ERROR] for the status of
    the last response, retryable from status 500 on and thrown for a 5xx
    status only when no retry was left; a [VALIDATION_ERROR] never
    reaches the caller.  When no status is 600 or more, a retryable
    error means that every retry has been used. *)
Theorem outcome_of_a_run cfg transport endpoint :
  let run := fetchWithRetry cfg transport endpoint 0 in
  let last := Z.of_nat (attempts run) - 1 in
  match run.2 with
  | Ok data =>
      exists response,
        transport last = Responded response
        /\ ok response = true /\ body response = BodyData data
  | Throw e =>
      exists d,
        e = Dashboard d
        /\ ((err_type d = NETWORK_ERROR /\ retryable d = true
             /\ maxRetries cfg <= last)
            \/ (err_type d = API_ERROR
                /\ exists response,
                     transport last = Responded response
                     /\ ok response = false
                     /\ retryable d = bool_decide (500 <= status response)
                     /\ (status response < 500 \/ 600 <= status response
                         \/ maxRetries cfg <= last)))
        /\ err_type d ≠ VALIDATION_ERROR
        /\ ((forall n response,
               transport n = Responded response -> status response < 600) ->
            retryable d = true -> maxRetries cfg <= last)
  end.
Proof.
  intros run last.
  destruct (fetchWithRetry_shaped cfg transport endpoint 0) as (_ & _ & He).
  fold run in He. rewrite Z.add_0_l in He. fold last in He.
  unfold endsWith in He. destruct (run.2) as [data | e]; [exact He |].
  destruct He as (d & -> & Hd). exists d. split; [done |]. split; [exact Hd |].
  split.
  - destruct Hd as [(-> & _) | (-> & _)]; done.
  - intros Hstatus Hretryable.
    destruct Hd as [(_ & _ & H) | (_ & response & Htr & _ & Hr & H)]; [done |].
    rewrite Hretryable in Hr. symmetry in Hr. apply bool_decide_eq_true in Hr.
    specialize (Hstatus _ _ Htr). lia.
Qed.

(** A success status with a body that does not parse is handled as a
    fetch error as well. *)
Lemma unparsable_body_is_retried cfg transport endpoint retryCount response message :
  transport retryCount = Responded response ->
  ok response = true ->
  body response = BodyUnparsable message ->
  retryCount < maxRetries cfg ->
  fetchWithRetry cfg transport endpoint retryCount =
    emit [Requested endpoint;
          Logged "Fetch Error" message endpoint;
          Slept (calculateBackoffDelay cfg retryCount)]
      (fetchWithRetry cfg transport endpoint (retryCount + 1)).
Proof.
  intros Htr Hok Hbody Hlt. rewrite fetchWithRetry_eq, Htr, Hok, Hbody.
  cbn [negb json]. unfold handleFetchError.
  destruct (decide (retryCount < maxRetries cfg)); [| done].
  unfold emit, logError. cbn [fst snd app error_message]. done.
Qed.

Lemma transient_round cfg transport endpoint retryCount :
  transient (transport retryCount) -> retryCount < maxRetries cfg ->
  exists events,
    fetchWithRetry cfg transport endpoint retryCount =
      emit (Requested endpoint :: events)
        (fetchWithRetry cfg transport endpoint (retryCount + 1))
    /\ attempts (events, Ok tt) = 0%nat.
Proof.
  intros Htransient Hlt. unfold transient in Htransient.
  destruct (transport retryCount) as [error | response] eqn:Htr.
  - eexists. split; [by apply network_failure_is_retried |]. done.
  - destruct Htransient as [H5 | [Hok Hbody]].
    + eexists. split; [by apply server_error_is_retried |]. done.
    + destruct (body response) as [data | | message] eqn:Hb.
      * by destruct (Hbody data).
      * eexists. split; [by eapply null_body_is_retried |]. done.
      * eexists. split; [by eapply unparsable_body_is_retried |]. done.
Qed.

Lemma success_after_transients cfg transport endpoint (k : nat) response data :
  forall retryCount,
    retryCount + Z.of_nat k <= maxRetries cfg ->
    (forall j : nat, (j < k)%nat -> transient (transport (retryCount + Z.of_nat j))) ->
    transport (retryCount + Z.of_nat k) = Responded response ->
    ok response = true -> body response = BodyData data ->
    (fetchWithRetry cfg transport endpoint retryCount).2 = Ok data
    /\ attempts (fetchWithRetry cfg transport endpoint retryCount) = S k.
Proof.
  induction k as [|k IH]; intros retryCount Hk Htransient Htr Hok Hbody.
  - rewrite Z.add_0_r in Htr.
    rewrite fetchWithRetry_eq, Htr, Hok, Hbody. done.
  - pose proof (Htransient 0%nat ltac:(lia)) as H0. rewrite Z.add_0_r in H0.
    destruct (transient_round cfg transport endpoint retryCount H0 ltac:(lia))
      as (events & -> & Hevents).
    destruct (IH (retryCount + 1)) as [Hresult Hattempts].
    + lia.
    + intros j Hj. replace (retryCount + 1 + Z.of_nat j)
        with (retryCount + Z.of_nat (S j)) by lia. apply Htransient. lia.
    + by replace (retryCount + 1 + Z.of_nat k)
        with (retryCount + Z.of_nat (S k)) by lia.
    + done.
    + done.
    + split; [exact Hresult |].
      rewrite attempts_emit. cbn [snd].
      change (attempts (Requested endpoint :: events, _))
        with (S (attempts (events, (fetchWithRetry cfg transport endpoint
                                      (retryCount + 1)).2))).
      unfold attempts in *. cbn [fst] in *. rewrite Hevents. lia.
Qed.

(** X19: transient failures are overcome.  When the first [k]
    requests fail in a way that is retried (no response, a 5xx status,
    or a success status with an unusable body), [k] is within the number
    of retries, and the next request is answered with a success status
    and a body of data, the call returns that data after [k + 1]
    requests. *)
Theorem transient_failures_are_overcome cfg transport endpoint
    (k : nat) response data :
  Z.of_nat k <= maxRetries cfg ->
  (forall j : nat, (j < k)%nat -> transient (transport (Z.of_nat j))) ->
  transport (Z.of_nat k) = Responded response ->
  ok response = true -> body response = BodyData data ->
  let run := fetchWithRetry cfg transport endpoint 0 in
  run.2 = Ok data /\ attempts run = S k.
Proof.
  intros Hk Htransient Htr Hok Hbody.
  by apply (success_after_transients cfg transport endpoint k response data 0).
Qed.


End WithData.

(** A server that fails twice, with a network failure and a 503, and
    then answers. *)
Lemma transient_failures_are_overcome_witness :
  let transport : Z -> FetchOutcome nat := λ n,
    if decide (n = 0) then NetworkFailure (JsError "Failed to fetch")
    else if decide (n = 1) then Responded {| status := 503; body := BodyNull |}
    else Responded {| status := 200; body := BodyData 7%nat |} in
  let run := fetchWithRetry DEFAULT_RETRY_CONFIG transport "/cyclone/current" 0 in
  run.2 = Ok 7%nat /\ attempts run = 3%nat.
Proof.
  intros transport.
  apply (transient_failures_are_overcome DEFAULT_RETRY_CONFIG transport
           "/cyclone/current" 2 {| status := 200; body := BodyData 7%nat |} 7%nat).
  - by vm_compute.
  - intros [|[|j]] Hj; [exact I | left; by vm_compute | lia].
  - reflexivity.
  - reflexivity.
  - reflexivity.
Defined.

(** A server that answers every request with status 503. *)
Lemma outcome_of_a_run_witness :
  let transport : Z -> FetchOutcome nat :=
    λ _, Responded {| status := 503; body := BodyNull |} in
  let run := fetchWithRetry DEFAULT_RETRY_CONFIG transport "/cyclone/current" 0 in
  exists d,
    run.2 = Throw (Dashboard d)
    /\ err_type d ≠ VALIDATION_ERROR
    /\ maxRetries DEFAULT_RETRY_CONFIG <= Z.of_nat (attempts run) - 1.
Proof.
  intros transport run.
  pose proof (outcome_of_a_run DEFAULT_RETRY_CONFIG transport "/cyclone/current")
    as H.
  cbv zeta in H. fold run in H.
  destruct (run.2) as [data | e] eqn:E.
  - exfalso. vm_compute in E. discriminate E.
  - destruct H as (d & -> & _ & Hnot & Hexhausted).
    exists d. split; [done |]. split; [exact Hnot |].
    apply Hexhausted.
    + intros n response [= <-]. cbn. lia.
    + vm_compute in E. by injection E as <-.
Defined.


End APIClientLaws.
(** ** Properties of the data provider *)

Module DataContextFacts.
Import DataContext.
Section WithData.
Context {T : Type} (truthy : T -> bool).
Implicit Types (s : Services T) (endpoint : string) (fetchFn : Settled T).

(** When the first [get] finds no valid entry it returns [null] and
    leaves no entry under the key. *)
Lemma get_without_valid_entry s now endpoint :
  Cache.isValid (cacheManager s) now endpoint = false ->
  exists cache,
    Cache.get (cacheManager s) now endpoint = (None, cache)
    /\ cache !! endpoint = None.
Proof.
  intros Hinv. unfold Cache.get.
  destruct (cacheManager s !! endpoint) as [entry|] eqn:Hk.
  - rewrite Hinv. cbn. eexists. split; [done |]. apply lookup_delete_eq.
  - eexists. split; [done |]. exact Hk.
Qed.

(** A valid entry is returned without a look at the limiter or the
    network. *)
Lemma valid_entry_is_served s now later endpoint fetchFn ttl entry :
  cacheManager s !! endpoint = Some entry ->
  now - Cache.timestamp entry < Cache.ttl entry ->
  fetchWithCacheAndRateLimit truthy s now later endpoint fetchFn ttl =
    (Ok (Some (Cache.data entry)), s).
Proof.
  intros Hk Hage. unfold fetchWithCacheAndRateLimit.
  rewrite (CacheFacts.get_valid _ _ _ _ Hk Hage).
  assert (Hv : Cache.isValid (cacheManager s) now endpoint = true).
  { unfold Cache.isValid. rewrite Hk. by apply bool_decide_eq_true. }
  rewrite Hv. cbn. by destruct s.
Qed.

(** Throttled without a valid entry: the answer is [null], whatever the
    cache held. *)
Lemma throttled_returns_null s now later endpoint fetchFn ttl :
  Cache.isValid (cacheManager s) now endpoint = false ->
  (RateLimit.canMakeRequest (rateLimiter s) now endpoint).1 = false ->
  (fetchWithCacheAndRateLimit truthy s now later endpoint fetchFn ttl).1 = Ok None.
Proof.
  intros Hinv Hdeny. unfold fetchWithCacheAndRateLimit.
  destruct (get_without_valid_entry s now endpoint Hinv) as (cache & -> & _).
  rewrite bool_decide_false by (by intros [? ?]). cbn [andb].
  destruct (RateLimit.canMakeRequest _ _ _) as [allowed limiter].
  cbn in Hdeny. by rewrite Hdeny.
Qed.

(** A failed fetch without a valid entry: the error goes to the caller,
    whatever the cache held. *)
Lemma failure_is_propagated s now later endpoint ttl err :
  Cache.isValid (cacheManager s) now endpoint = false ->
  (RateLimit.canMakeRequest (rateLimiter s) now endpoint).1 = true ->
  (fetchWithCacheAndRateLimit truthy s now later endpoint (Rejected err) ttl).1
    = Throw err.
Proof.
  intros Hinv Hallow. unfold fetchWithCacheAndRateLimit.
  destruct (get_without_valid_entry s now endpoint Hinv) as (cache & -> & Hgone).
  rewrite bool_decide_false by (by intros [? ?]). cbn [andb].
  destruct (RateLimit.canMakeRequest _ _ _) as [allowed limiter].
  cbn in Hallow. rewrite Hallow. cbn [negb].
  by rewrite (CacheFacts.get_absent _ _ _ Hgone).
Qed.

End WithData.

(** C1 at the failing input.  The cache holds the cyclone data "Fengal",
    stored at time 0 with a TTL of five minutes, and the call is made at
    minute ten.  With the twelve requests of the hour used up the call
    answers [null], and with a request left but the network down it
    throws the network's error: in neither case is the expired value
    returned, because the [get] that opens the call has deleted it. *)
Theorem expired_entry_is_not_served :
  let truthy := λ d : string, negb (String.eqb d "") in
  let cache : gmap string (Cache.CacheEntry string) :=
    Cache.set ∅ 0 "cyclone" "Fengal" 300000 in
  let used := RateLimitRun.recordAll RateLimit.rateLimiter "cyclone"
                ((λ i : nat, 1000 * Z.of_nat i) <$> seq 0 12) in
  let throttled := {| cacheManager := cache; rateLimiter := used |} in
  let free := {| cacheManager := cache; rateLimiter := RateLimit.rateLimiter |} in
  let failed := Rejected (JsError "Failed to fetch") in
  cache !! "cyclone" = Some {| Cache.data := "Fengal"; Cache.timestamp := 0;
                               Cache.ttl := 300000 |}
  /\ (RateLimit.canMakeRequest used 600000 "cyclone").1 = false
  /\ (fetchWithCacheAndRateLimit truthy throttled 600000 601000 "cyclone"
        failed 300000).1 = Ok None
  /\ (fetchWithCacheAndRateLimit truthy free 600000 601000 "cyclone"
        failed 300000).1 = Throw (JsError "Failed to fetch")
  /\ cacheManager (fetchWithCacheAndRateLimit truthy free 600000 601000 "cyclone"
        failed 300000).2 !! "cyclone" = None.
Proof. vm_compute. repeat split. Qed.

End DataContextFacts.

(** ** Further properties of the data provider *)

Module DataContextLaws.
Import DataContext DataContextFacts.
Section WithData.
Context {T : Type} (truthy : T -> bool).
Implicit Types (s : Services T) (endpoint : string) (fetchFn : Settled T).

(** The call when it gets as far as the network: no valid entry, and
    the limiter allows a request. *)
Lemma fetch_reached s now later endpoint fetchFn ttl :
  Cache.isValid (cacheManager s) now endpoint = false ->
  (RateLimit.canMakeRequest (rateLimiter s) now endpoint).1 = true ->
  exists cache,
    Cache.get (cacheManager s) now endpoint = (None, cache)
    /\ cache !! endpoint = None
    /\ fetchWithCacheAndRateLimit truthy s now later endpoint fetchFn ttl =
         let limiter := RateLimit.cleanupOldRequests (rateLimiter s) now endpoint in
         match fetchFn with
         | Fulfilled data =>
             (Ok (Some data),
              {| cacheManager := Cache.set cache later endpoint data ttl;
                 rateLimiter := RateLimit.recordRequest limiter later endpoint |})
         | Rejected err =>
             (Throw err, {| cacheManager := cache; rateLimiter := limiter |})
         end.
Proof.
  intros Hinv Hallow.
  destruct (get_without_valid_entry s now endpoint Hinv) as (cache & Hget & Hgone).
  exists cache. split; [exact Hget |]. split; [exact Hgone |].
  unfold fetchWithCacheAndRateLimit. rewrite Hget.
  rewrite bool_decide_false by (by intros [? ?]). cbn [andb].
  destruct (RateLimitLaws.questions_leave_pruned_state (rateLimiter s) now endpoint)
    as (Hstate & _).
  destruct (RateLimit.canMakeRequest _ _ _) as [allowed limiter].
  cbn in Hallow, Hstate. rewrite Hallow, Hstate. cbn [negb].
  destruct fetchFn as [data | err]; [done |].
  by rewrite (CacheFacts.get_absent _ _ _ Hgone).
Qed.

(** X21: a fetched value is cached and counted once.  When the call
    reaches the network and the fetch succeeds, the value is returned,
    one request is put on record for the endpoint, and every further
    call for the endpoint made before the value is [ttl] old returns the
    same value and leaves the cache and the limiter as they are,
    whatever its fetch function would do. *)
Theorem fetched_value_is_cached s now later endpoint data ttl :
  Cache.isValid (cacheManager s) now endpoint = false ->
  (RateLimit.canMakeRequest (rateLimiter s) now endpoint).1 = true ->
  let first :=
    fetchWithCacheAndRateLimit truthy s now later endpoint (Fulfilled data) ttl in
  first.1 = Ok (Some data)
  /\ RateLimit.endpointRequests (rateLimiter first.2) endpoint
     = RateLimit.endpointRequests
         (RateLimit.cleanupOldRequests
            (RateLimit.cleanupOldRequests (rateLimiter s) now endpoint)
            later endpoint) endpoint
       ++ [ {| RateLimit.timestamp := later |} ]
  /\ (forall again later' fetchFn ttl',
        again - later < ttl ->
        fetchWithCacheAndRateLimit truthy first.2 again later' endpoint fetchFn ttl'
        = (Ok (Some data), first.2)).
Proof.
  intros Hinv Hallow first.
  destruct (fetch_reached s now later endpoint (Fulfilled data) ttl Hinv Hallow)
    as (cache & _ & _ & Hfirst).
  fold first in Hfirst. cbv zeta in Hfirst. rewrite Hfirst. cbn [fst snd].
  split; [done |]. split.
  - cbn [rateLimiter]. rewrite RateLimitFacts.recordRequest_endpointRequests.
    f_equal. symmetry. apply RateLimitFacts.cleanup_endpointRequests.
  - intros again later' fetchFn ttl' Hage.
    apply (valid_entry_is_served truthy _ again later' endpoint fetchFn ttl'
             {| Cache.data := data; Cache.timestamp := later; Cache.ttl := ttl |}).
    + cbn [cacheManager]. apply lookup_insert_eq.
    + exact Hage.
Qed.

Lemma length_filter_le {A} (P : A -> Prop) `{!forall x, Decision (P x)}
    (l : list A) (bound : Z) :
  Z.of_nat (length l) <= bound -> Z.of_nat (length (filter P l)) <= bound.
Proof. pose proof (length_filter P l). lia. Qed.

Lemma cleanup_lengths (rl : RateLimit.RateLimiter) now endpoint other (bound : Z) :
  Z.of_nat (length (RateLimit.endpointRequests rl other)) <= bound ->
  Z.of_nat (length (RateLimit.endpointRequests
                      (RateLimit.cleanupOldRequests rl now endpoint) other))
  <= bound.
Proof.
  intros H. destruct (decide (endpoint = other)) as [<- | Hne].
  - rewrite RateLimitFacts.cleanup_endpointRequests. by apply length_filter_le.
  - unfold RateLimit.endpointRequests.
    by rewrite RateLimitFacts.cleanup_lookup_ne.
Qed.

(** X22: the provider keeps within the limit.  If no endpoint has
    more requests on record than the limiter allows, as at the start,
    this is so again after each call of [fetchWithCacheAndRateLimit],
    however the call ends; and the call never changes the two limits. *)
Theorem provider_respects_limit s now later endpoint fetchFn ttl :
  withinLimit s ->
  let s' := (fetchWithCacheAndRateLimit truthy s now later endpoint fetchFn ttl).2 in
  withinLimit s'
  /\ RateLimit.maxRequests (rateLimiter s') = RateLimit.maxRequests (rateLimiter s)
  /\ RateLimit.windowMs (rateLimiter s') = RateLimit.windowMs (rateLimiter s).
Proof.
  intros Hwithin s'.
  destruct (RateLimitFacts.cleanup_config (rateLimiter s) now endpoint)
    as [Hmax Hwin].
  assert (Hclean : forall cache : gmap string (Cache.CacheEntry T),
            withinLimit {| cacheManager := cache;
                           rateLimiter :=
                             RateLimit.cleanupOldRequests (rateLimiter s) now endpoint |}).
  { intros cache other. cbn [rateLimiter]. rewrite Hmax.
    apply cleanup_lengths, Hwithin. }
  unfold s', fetchWithCacheAndRateLimit.
  destruct (Cache.get (cacheManager s) now endpoint) as [cached cache].
  destruct (bool_decide (is_Some cached) && Cache.isValid cache now endpoint).
  { cbn [snd]. split; [| done]. intros other. apply Hwithin. }
  destruct (RateLimitLaws.questions_leave_pruned_state (rateLimiter s) now endpoint)
    as (Hstate & _).
  pose proof (RateLimitFacts.canMakeRequest_spec (rateLimiter s) now endpoint)
    as Hspec.
  destruct (RateLimit.canMakeRequest _ _ _) as [allowed limiter].
  cbn in Hstate, Hspec. subst limiter.
  destruct allowed; cbn [negb].
  2: { cbn [snd rateLimiter]. split; [apply Hclean | done]. }
  symmetry in Hspec. apply bool_decide_eq_true in Hspec.
  destruct fetchFn as [data | err].
  - cbn [snd rateLimiter].
    destruct (RateLimitFacts.recordRequest_config
                (RateLimit.cleanupOldRequests (rateLimiter s) now endpoint)
                later endpoint) as [Hmax' Hwin'].
    split; [| by rewrite Hmax', Hwin'].
    intros other. cbn [rateLimiter]. rewrite Hmax', Hmax.
    destruct (decide (endpoint = other)) as [<- | Hne].
    + rewrite RateLimitFacts.recordRequest_endpointRequests,
        RateLimitFacts.cleanup_endpointRequests, length_app. cbn [length].
      pose proof (length_filter
                    (λ record, later - RateLimit.timestamp record
                               < RateLimit.windowMs
                                   (RateLimit.cleanupOldRequests (rateLimiter s)
                                      now endpoint))
                    (filter (λ record, now - RateLimit.timestamp record
                                       < RateLimit.windowMs (rateLimiter s))
                       (RateLimit.endpointRequests (rateLimiter s) endpoint))).
      lia.
    + unfold RateLimit.endpointRequests, RateLimit.recordRequest. cbn.
      rewrite lookup_insert_ne by done.
      rewrite !RateLimitFacts.cleanup_lookup_ne by done. apply Hwithin.
  - destruct (Cache.get cache later endpoint) as [[entry|] cache'];
      cbn [snd rateLimiter]; (split; [apply Hclean | done]).
Qed.

(** X23: a failed fetch is not counted.  When the call reaches the
    network and the fetch fails, the caller gets the error of the fetch
    itself and no request is put on record: the limiter is left pruned,
    and answers [canMakeRequest] from then on as it would have before
    the call. *)
Theorem failed_fetch_is_not_counted s now later endpoint err ttl :
  Cache.isValid (cacheManager s) now endpoint = false ->
  (RateLimit.canMakeRequest (rateLimiter s) now endpoint).1 = true ->
  let failed :=
    fetchWithCacheAndRateLimit truthy s now later endpoint (Rejected err) ttl in
  failed.1 = Throw err
  /\ rateLimiter failed.2
     = RateLimit.cleanupOldRequests (rateLimiter s) now endpoint
  /\ (forall t other,
        now <= t ->
        (RateLimit.canMakeRequest (rateLimiter failed.2) t other).1
        = (RateLimit.canMakeRequest (rateLimiter s) t other).1).
Proof.
  intros Hinv Hallow failed.
  destruct (fetch_reached s now later endpoint (Rejected err) ttl Hinv Hallow)
    as (cache & _ & _ & Hfailed).
  fold failed in Hfailed. cbv zeta in Hfailed. rewrite Hfailed. cbn [fst snd].
  split; [done |]. split; [done |].
  intros t other Ht. cbn [rateLimiter].
  rewrite !RateLimitFacts.canMakeRequest_spec.
  destruct (RateLimitFacts.cleanup_config (rateLimiter s) now endpoint) as [-> ->].
  destruct (decide (endpoint = other)) as [<- | Hne].
  - rewrite RateLimitFacts.cleanup_endpointRequests.
    by rewrite RateLimitLaws.inWindow_later.
  - unfold RateLimit.endpointRequests.
    by rewrite RateLimitFacts.cleanup_lookup_ne.
Qed.

End WithData.

(** The provider at its start: an empty cache and the limiter of
    twelve requests an hour. *)
Lemma fetched_value_is_cached_witness :
  let truthy := λ d : string, negb (String.eqb d "") in
  let s := {| cacheManager := ∅; rateLimiter := RateLimit.rateLimiter |} in
  let first :=
    fetchWithCacheAndRateLimit truthy s 1000 1500 "cyclone"
      (Fulfilled "Fengal") 300000 in
  first.1 = Ok (Some "Fengal")
  /\ RateLimit.endpointRequests (rateLimiter first.2) "cyclone"
     = RateLimit.endpointRequests
         (RateLimit.cleanupOldRequests
            (RateLimit.cleanupOldRequests (rateLimiter s) 1000 "cyclone")
            1500 "cyclone") "cyclone"
       ++ [ {| RateLimit.timestamp := 1500 |} ]
  /\ fetchWithCacheAndRateLimit truthy first.2 200000 200500 "cyclone"
       (Rejected (JsError "Failed to fetch")) 300000
     = (Ok (Some "Fengal"), first.2).
Proof.
  intros truthy s first.
  destruct (fetched_value_is_cached truthy s 1000 1500 "cyclone" "Fengal" 300000)
    as (H1 & H2 & H3); [reflexivity | reflexivity |].
  split; [exact H1 |]. split; [exact H2 |]. apply H3. reflexivity.
Defined.

Lemma provider_respects_limit_witness :
  let truthy := λ d : string, negb (String.eqb d "") in
  let s := {| cacheManager := ∅; rateLimiter := RateLimit.rateLimiter |} in
  let s' :=
    (fetchWithCacheAndRateLimit truthy s 1000 1500 "cyclone"
       (Fulfilled "Fengal") 300000).2 in
  withinLimit s'
  /\ RateLimit.maxRequests (rateLimiter s') = RateLimit.maxRequests (rateLimiter s)
  /\ RateLimit.windowMs (rateLimiter s') = RateLimit.windowMs (rateLimiter s).
Proof.
  intros truthy s.
  apply (provider_respects_limit truthy s 1000 1500 "cyclone"
           (Fulfilled "Fengal") 300000).
  intros endpoint. unfold s, RateLimit.endpointRequests. cbn.
  rewrite lookup_empty. by vm_compute.
Defined.

Lemma failed_fetch_is_not_counted_witness :
  let truthy := λ d : string, negb (String.eqb d "") in
  let s := {| cacheManager := ∅; rateLimiter := RateLimit.rateLimiter |} in
  let failed :=
    fetchWithCacheAndRateLimit truthy s 1000 1500 "cyclone"
      (Rejected (JsError "Failed to fetch")) 300000 in
  failed.1 = Throw (JsError "Failed to fetch")
  /\ rateLimiter failed.2
     = RateLimit.cleanupOldRequests (rateLimiter s) 1000 "cyclone"
  /\ (RateLimit.canMakeRequest (rateLimiter failed.2) 1500 "cyclone").1
     = (RateLimit.canMakeRequest (rateLimiter s) 1500 "cyclone").1.
Proof.
  intros truthy s failed.
  destruct (failed_fetch_is_not_counted truthy s 1000 1500 "cyclone"
              (JsError "Failed to fetch") 300000)
    as (H1 & H2 & H3); [reflexivity | reflexivity |].
  split; [exact H1 |]. split; [exact H2 |]. apply H3. lia.
Defined.

End DataContextLaws.

(** ** Properties of the storage manager *)

Module StorageFacts.
Import Storage.

Lemma slot_put_eq ls key v : slot (put ls key v) key = v.
Proof. by destruct key. Qed.

Lemma slot_put_ne ls key key' v : key ≠ key' -> slot (put ls key v) key' = slot ls key'.
Proof. by destruct key, key'. Qed.

Lemma refuses_put ls key v : refuses (put ls key v) = refuses ls.
Proof. by destruct key. Qed.

Lemma put_slot ls key : put ls key (slot ls key) = ls.
Proof. by destruct ls, key. Qed.

(** *** Computations that only delete *)

Lemma onlyDeletes_refl ls : onlyDeletes ls ls.
Proof. repeat split. by left. Qed.

Lemma onlyDeletes_trans ls1 ls2 ls3 :
  onlyDeletes ls1 ls2 -> onlyDeletes ls2 ls3 -> onlyDeletes ls1 ls3.
Proof.
  intros (Hr1 & Hl1 & Hs1) (Hr2 & Hl2 & Hs2). repeat split; [congruence.. |].
  intros key. destruct (Hs2 key) as [-> | ->]; [apply Hs1 | by right].
Qed.

Lemma onlyDeletes_remove ls key :
  key ≠ LANGUAGE_PREFERENCE -> onlyDeletes ls (put ls key None).
Proof.
  intros Hne. repeat split.
  - apply refuses_put.
  - by apply slot_put_ne.
  - intros key'. destruct (decide (key = key')) as [<- | Hne'].
    + right. apply slot_put_eq.
    + left. by apply slot_put_ne.
Qed.

Section Deleting.
Context {A B : Type}.

Lemma deleting_ret (a : A) : deleting (mret a).
Proof. intros w. apply onlyDeletes_refl. Qed.

Lemma deleting_throw (e : js_error) : deleting (throw (A := A) e).
Proof. intros w. apply onlyDeletes_refl. Qed.

Lemma deleting_bind (m : M A) (f : A -> M B) :
  deleting m -> (forall a, deleting (f a)) -> deleting (m ≫= f).
Proof.
  intros Hm Hf w. unfold mbind, M_bind. specialize (Hm w).
  destruct (m w) as [[a|e] w1]; cbn in *; [| exact Hm].
  eapply onlyDeletes_trans; [exact Hm | apply Hf].
Qed.

Lemma deleting_try_catch (m : M A) (handler : js_error -> M A) :
  deleting m -> (forall e, deleting (handler e)) -> deleting (try_catch m handler).
Proof.
  intros Hm Hh w. unfold try_catch. specialize (Hm w).
  destruct (m w) as [[a|e] w1]; cbn in *; [exact Hm |].
  eapply onlyDeletes_trans; [exact Hm | apply Hh].
Qed.

End Deleting.

Lemma deleting_console_error line : deleting (console_error line).
Proof. intros w. apply onlyDeletes_refl. Qed.

Lemma deleting_getItem key : deleting (getItem key).
Proof.
  intros w. unfold getItem.
  destruct (refuses (localStorage w) GetItem); apply onlyDeletes_refl.
Qed.

Lemma deleting_removeItem key :
  key ≠ LANGUAGE_PREFERENCE -> deleting (removeItem key).
Proof.
  intros Hne w. unfold removeItem.
  destruct (refuses (localStorage w) RemoveItem); cbn;
    [apply onlyDeletes_refl | by apply onlyDeletes_remove].
Qed.

Lemma deleting_JSON_parse {A} (item : Item A) : deleting (JSON_parse item).
Proof. destruct item; [apply deleting_ret | apply deleting_throw]. Qed.

Lemma deleting_handleStorageError {A} error operation :
  deleting (handleStorageError (A := A) error operation).
Proof.
  apply deleting_bind; [apply deleting_console_error |].
  intros _. apply deleting_throw.
Qed.

Section WithSerializer.
Variable JSON_length : forall key, StoredData (payload key) -> N.

Lemma deleting_sumSizes keys total : deleting (sumSizes JSON_length keys total).
Proof.
  revert total. induction keys as [|key keys IH]; intros total; cbn.
  - apply deleting_ret.
  - apply deleting_bind; [apply deleting_getItem |].
    intros [item|]; [| apply IH]. destruct (falsy _ item); apply IH.
Qed.

Lemma deleting_getStorageSize : deleting (getStorageSize JSON_length).
Proof.
  apply deleting_try_catch; [apply deleting_sumSizes |].
  intros e. apply deleting_handleStorageError.
Qed.

Lemma deleting_collectItems keys items :
  deleting (collectItems JSON_length keys items).
Proof.
  revert items. induction keys as [|key keys IH]; intros items; cbn.
  - apply deleting_ret.
  - case_decide as Hkey; [apply IH |].
    apply deleting_bind; [apply deleting_getItem |].
    intros [item|]; [| apply IH]. destruct (falsy _ item); [apply IH |].
    apply deleting_bind; [| intros items'; apply IH].
    apply deleting_try_catch.
    + apply deleting_bind; [apply deleting_JSON_parse |].
      intros stored. apply deleting_ret.
    + intros _. apply deleting_bind; [by apply deleting_removeItem |].
      intros _. apply deleting_ret.
Qed.

(** The first loop makes no entry for the language preference. *)
Lemma collectItems_keys keys items w items' w' :
  Forall (λ item, quota_key item ≠ LANGUAGE_PREFERENCE) items ->
  collectItems JSON_length keys items w = (Ok items', w') ->
  Forall (λ item, quota_key item ≠ LANGUAGE_PREFERENCE) items'.
Proof.
  revert items w. induction keys as [|key keys IH]; intros items w Hitems; cbn.
  - by intros [= <- <-].
  - case_decide as Hkey; [by apply IH |].
    unfold mbind, M_bind at 1.
    destruct (getItem key w) as [[[item|]|e] w1]; [| by apply IH | done].
    destruct (falsy _ item); [by apply IH |].
    unfold mbind, M_bind at 1.
    destruct (try_catch _ _ w1) as [[items1|e] w2] eqn:Htry; [| done].
    apply IH. revert Htry. unfold try_catch, mbind, M_bind.
    destruct (JSON_parse item w1) as [[stored|e] w3].
    + cbn. intros [= <- <-]. apply Forall_app. split; [exact Hitems |].
      by apply Forall_singleton.
    + destruct (removeItem key w3) as [[[]|e'] w4]; cbn; [| done].
      by intros [= <- <-].
Qed.

Lemma deleting_removeOldest currentSize items removedSize :
  Forall (λ item, quota_key item ≠ LANGUAGE_PREFERENCE) items ->
  deleting (removeOldest currentSize items removedSize).
Proof.
  revert removedSize. induction items as [|item items IH]; intros removedSize Hitems; cbn.
  - apply deleting_ret.
  - apply Forall_cons in Hitems as [Hitem Hitems].
    case_bool_decide; [apply deleting_ret |].
    apply deleting_bind; [by apply deleting_removeItem |].
    intros _. by apply IH.
Qed.

Lemma deleting_bind_post {A B} (m : M A) (f : A -> M B) (Q : A -> Prop) :
  deleting m ->
  (forall w a w', m w = (Ok a, w') -> Q a) ->
  (forall a, Q a -> deleting (f a)) ->
  deleting (m ≫= f).
Proof.
  intros Hm HQ Hf w. unfold mbind, M_bind. specialize (Hm w). specialize (HQ w).
  destruct (m w) as [[a|e] w1]; cbn in *; [| exact Hm].
  eapply onlyDeletes_trans; [exact Hm |]. apply Hf. by eapply HQ.
Qed.

(** *** The sort *)

Lemma insertByTimestamp_perm item sorted :
  insertByTimestamp item sorted ≡ₚ item :: sorted.
Proof.
  induction sorted as [|other rest IH]; cbn; [done |].
  case_bool_decide; [done |]. rewrite IH. apply Permutation_swap.
Qed.

Lemma sortByTimestamp_perm items : sortByTimestamp items ≡ₚ items.
Proof.
  induction items as [|item items IH]; cbn; [done |].
  rewrite insertByTimestamp_perm. by rewrite IH.
Qed.

Lemma insertByTimestamp_sorted item sorted :
  StronglySorted olderItem sorted ->
  StronglySorted olderItem (insertByTimestamp item sorted).
Proof.
  induction 1 as [|other rest Hrest IH Hother]; cbn; [repeat constructor |].
  case_bool_decide as Hle.
  - constructor; [by constructor |]. constructor; [exact Hle |].
    eapply Forall_impl; [exact Hother |]. unfold olderItem. cbn. lia.
  - constructor; [exact IH |].
    apply Forall_forall. intros x Hx.
    rewrite insertByTimestamp_perm in Hx. apply elem_of_cons in Hx as [-> | Hx].
    + unfold olderItem. lia.
    + by eapply Forall_forall in Hother.
Qed.

Lemma sortByTimestamp_sorted items : StronglySorted olderItem (sortByTimestamp items).
Proof.
  induction items as [|item items IH]; cbn; [constructor |].
  by apply insertByTimestamp_sorted.
Qed.

Lemma deleting_manageStorageQuota : deleting (manageStorageQuota JSON_length).
Proof.
  apply deleting_try_catch; [| intros e; apply deleting_handleStorageError].
  apply deleting_bind; [apply deleting_getStorageSize |].
  intros currentSize. case_bool_decide; [| apply deleting_ret].
  apply (deleting_bind_post _ _
           (Forall (λ item, quota_key item ≠ LANGUAGE_PREFERENCE))).
  - apply deleting_collectItems.
  - intros w items w'. apply collectItems_keys. constructor.
  - intros items Hitems. apply deleting_removeOldest.
    by rewrite sortByTimestamp_perm.
Qed.

(** *** Runs on a host that accepts every call *)

Lemma getItem_ok w key :
  cooperative (localStorage w) ->
  getItem key w = (Ok (slot (localStorage w) key), w).
Proof. intros Hc. unfold getItem. by rewrite Hc. Qed.

Lemma removeItem_ok w key :
  cooperative (localStorage w) ->
  removeItem key w =
    (Ok tt, {| localStorage := put (localStorage w) key None;
               console := console w |}).
Proof. intros Hc. unfold removeItem. by rewrite Hc. Qed.

Lemma setItem_ok w key value :
  cooperative (localStorage w) ->
  setItem key value w =
    (Ok tt, {| localStorage := put (localStorage w) key (Some value);
               console := console w |}).
Proof. intros Hc. unfold setItem. by rewrite Hc. Qed.

Lemma cooperative_put ls key v : cooperative ls -> cooperative (put ls key v).
Proof. intros Hc c. rewrite refuses_put. apply Hc. Qed.

Lemma cooperative_removeKeys ls keys : cooperative ls -> cooperative (removeKeys ls keys).
Proof.
  unfold removeKeys. revert ls. induction keys as [|key keys IH]; intros ls Hc; [done |].
  cbn. apply IH. by apply cooperative_put.
Qed.

Lemma slotSizes_cons ls key keys :
  slotSizes JSON_length ls (key :: keys) =
    slotSize JSON_length ls key + slotSizes JSON_length ls keys.
Proof. done. Qed.

Lemma sumSizes_ok w keys total :
  cooperative (localStorage w) ->
  sumSizes JSON_length keys total w =
    (Ok (total + slotSizes JSON_length (localStorage w) keys), w).
Proof.
  intros Hc. revert total.
  induction keys as [|key keys IH]; intros total; cbn [sumSizes].
  - change (slotSizes _ _ []) with 0. by rewrite Z.add_0_r.
  - rewrite slotSizes_cons. unfold mbind, M_bind. rewrite getItem_ok by done. unfold slotSize at 1.
    destruct (slot (localStorage w) key) as [item|].
    + unfold falsy. case_bool_decide as Hlen; rewrite IH; do 2 f_equal.
      * rewrite Hlen. lia.
      * lia.
    + rewrite IH. do 2 f_equal.
Qed.

Lemma getStorageSize_ok w :
  cooperative (localStorage w) ->
  getStorageSize JSON_length w = (Ok (totalSize JSON_length (localStorage w)), w).
Proof.
  intros Hc. unfold getStorageSize, try_catch. rewrite sumSizes_ok by done.
  reflexivity.
Qed.

Lemma collectItems_ok w keys items :
  cooperative (localStorage w) ->
  parseable (localStorage w) ->
  collectItems JSON_length keys items w =
    (Ok (items ++ omap (quotaItemOf JSON_length (localStorage w)) keys), w).
Proof.
  intros Hc Hp. revert items. induction keys as [|key keys IH]; intros items; cbn.
  - by rewrite app_nil_r.
  - unfold quotaItemOf at 1. case_decide as Hkey; [apply IH |].
    unfold mbind, M_bind at 1. rewrite getItem_ok by done.
    destruct (slot (localStorage w) key) as [item|] eqn:Hslot; [| apply IH].
    destruct (falsy JSON_length item) eqn:Hfalsy; [apply IH |].
    destruct item as [stored | n message].
    + unfold mbind, M_bind, try_catch. cbn. rewrite IH.
      by rewrite <- app_assoc.
    + apply (Hp key n message Hkey) in Hslot. subst n.
      unfold falsy in Hfalsy. cbn in Hfalsy. by rewrite bool_decide_true in Hfalsy.
Qed.

Lemma sizeOf_cons item items : sizeOf (item :: items) = quota_size item + sizeOf items.
Proof. done. Qed.

(** The second loop removes a prefix of the list that it is given. *)
Lemma removeOldest_ok w currentSize items removedSize :
  cooperative (localStorage w) ->
  exists removed kept,
    items = removed ++ kept
    /\ removeOldest currentSize items removedSize w =
         (Ok tt, {| localStorage := removeKeys (localStorage w) (quota_key <$> removed);
                    console := console w |})
    /\ (forall before item after,
          removed = before ++ item :: after ->
          currentSize - (removedSize + sizeOf before) > STORAGE_CONFIG_maxSizeBytes)
    /\ (kept = []
        \/ currentSize - (removedSize + sizeOf removed) <= STORAGE_CONFIG_maxSizeBytes).
Proof.
  revert w removedSize.
  induction items as [|item items IH]; intros w removedSize Hc.
  - exists [], []. repeat split; [by destruct w | | by left].
    intros before item after Heq. by destruct before.
  - cbn [removeOldest]. case_bool_decide as Hstop.
    + exists [], (item :: items). repeat split; [by destruct w | |].
      * intros before item' after Heq. by destruct before.
      * right. change (sizeOf []) with 0. lia.
    + unfold mbind, M_bind. rewrite removeItem_ok by done.
      set (w1 := {| localStorage := put (localStorage w) (quota_key item) None;
                    console := console w |}).
      destruct (IH w1 (removedSize + quota_size item))
        as (removed & kept & -> & Hrun & Hbefore & Hstop');
        [by apply cooperative_put |].
      exists (item :: removed), kept. repeat split.
      * exact Hrun.
      * intros before item' after Heq. destruct before as [|b before].
        -- change (sizeOf []) with 0. lia.
        -- injection Heq as <- ->. specialize (Hbefore before item' after eq_refl).
           rewrite sizeOf_cons. lia.
      * destruct Hstop' as [-> | Hle]; [by left | right].
        rewrite sizeOf_cons. lia.
Qed.

(** *** Sizes after removals *)

Lemma slot_removeKeys ls keys key :
  slot (removeKeys ls keys) key = if decide (key ∈ keys) then None else slot ls key.
Proof.
  unfold removeKeys. revert ls. induction keys as [|k keys IH]; intros ls; cbn.
  - by rewrite decide_False by apply not_elem_of_nil.
  - rewrite IH. destruct (decide (k = key)) as [<- | Hne].
    + rewrite slot_put_eq. rewrite (decide_True (P := k ∈ k :: keys)) by left.
      by case_decide.
    + rewrite slot_put_ne by done.
      destruct (decide (key ∈ keys)) as [Hin | Hnin].
      * by rewrite decide_True by by right.
      * rewrite decide_False; [done |].
        intros [-> | Hin]%elem_of_cons; done.
Qed.

Lemma slotSize_put_None ls key key' :
  slotSize JSON_length (put ls key None) key' =
    if decide (key = key') then 0 else slotSize JSON_length ls key'.
Proof.
  unfold slotSize. case_decide as Hk.
  - subst key'. by rewrite slot_put_eq.
  - by rewrite slot_put_ne.
Qed.

Lemma totalSize_put_None ls key :
  totalSize JSON_length (put ls key None) =
    totalSize JSON_length ls - slotSize JSON_length ls key.
Proof.
  unfold totalSize, STORAGE_KEYS_values.
  rewrite !slotSizes_cons, !slotSize_put_None.
  change (slotSizes _ _ []) with 0.
  destruct key; repeat case_decide; try done; lia.
Qed.

Lemma slotSizes_put_None ls key keys :
  key ∉ keys ->
  slotSizes JSON_length (put ls key None) keys = slotSizes JSON_length ls keys.
Proof.
  induction keys as [|k keys IH]; intros Hnin; [done |].
  apply not_elem_of_cons in Hnin as [Hne Hnin].
  rewrite !slotSizes_cons, slotSize_put_None, decide_False by done.
  by rewrite IH.
Qed.

Lemma totalSize_removeKeys ls keys :
  NoDup keys ->
  totalSize JSON_length (removeKeys ls keys) =
    totalSize JSON_length ls - slotSizes JSON_length ls keys.
Proof.
  unfold removeKeys. intros Hnd. revert ls.
  induction Hnd as [|k keys Hnin Hnd IH]; intros ls; cbn [foldl].
  - change (slotSizes _ _ []) with 0. lia.
  - rewrite IH, totalSize_put_None, slotSizes_put_None, slotSizes_cons by done. lia.
Qed.

(** *** The entries of the first loop *)

Lemma quotaItemOf_Some ls key item :
  quotaItemOf JSON_length ls key = Some item ->
  quota_key item = key
  /\ key ≠ LANGUAGE_PREFERENCE
  /\ quota_size item = slotSize JSON_length ls key
  /\ 0 < slotSize JSON_length ls key
  /\ exists stored,
       slot ls key = Some (Written stored)
       /\ quota_timestamp item = timestamp stored.
Proof.
  unfold quotaItemOf, slotSize. case_decide as Hkey; [done |].
  destruct (slot ls key) as [it|]; [| done].
  unfold falsy. case_bool_decide as Hlen; [done |].
  destruct it as [stored | n message]; [| done].
  intros [= <-]. cbn in *. repeat split; [done | lia | by eexists].
Qed.

Lemma elem_of_candidates ls item :
  item ∈ candidates JSON_length ls <->
  quotaItemOf JSON_length ls (quota_key item) = Some item.
Proof.
  unfold candidates. rewrite list_elem_of_omap. split.
  - intros (key & _ & Hsome).
    by destruct (quotaItemOf_Some _ _ _ Hsome) as [<- _].
  - intros Hsome. exists (quota_key item). split; [| done].
    destruct (quota_key item); unfold STORAGE_KEYS_values; set_solver.
Qed.

Lemma NoDup_candidates ls : NoDup (quota_key <$> candidates JSON_length ls).
Proof.
  assert (Hkey : forall key item,
            quotaItemOf JSON_length ls key = Some item -> quota_key item = key).
  { intros key item Hsome. by destruct (quotaItemOf_Some _ _ _ Hsome) as [-> _]. }
  unfold candidates, STORAGE_KEYS_values. cbn [omap list_omap].
  destruct (quotaItemOf JSON_length ls LAST_CYCLONE) as [i1|] eqn:H1;
    destruct (quotaItemOf JSON_length ls SAVED_ROUTES) as [i2|] eqn:H2;
    destruct (quotaItemOf JSON_length ls CHECKLIST_STATE) as [i3|] eqn:H3;
    destruct (quotaItemOf JSON_length ls LANGUAGE_PREFERENCE) as [i4|] eqn:H4;
    cbn [fmap list_fmap];
    repeat match goal with
    | H : quotaItemOf _ _ _ = Some _ |- _ => apply Hkey in H; rewrite H
    end;
    apply NoDup_ListNoDup; repeat constructor; cbn; intuition discriminate.
Qed.

Lemma sizeOf_slotSizes ls items :
  (forall item, item ∈ items -> item ∈ candidates JSON_length ls) ->
  sizeOf items = slotSizes JSON_length ls (quota_key <$> items).
Proof.
  induction items as [|item items IH]; intros Hin; [done |].
  rewrite fmap_cons, sizeOf_cons, slotSizes_cons.
  rewrite IH by (intros x Hx; apply Hin; by right).
  assert (Hc : item ∈ candidates JSON_length ls) by (apply Hin; left).
  apply elem_of_candidates, quotaItemOf_Some in Hc as (_ & _ & -> & _). done.
Qed.

(** *** The eviction on a host that accepts every call, when every
    evictable text parses *)

Lemma manageStorageQuota_within_quota w :
  cooperative (localStorage w) ->
  totalSize JSON_length (localStorage w) <= STORAGE_CONFIG_maxSizeBytes ->
  manageStorageQuota JSON_length w = (Ok tt, w).
Proof.
  intros Hc Hle. unfold manageStorageQuota, try_catch, mbind, M_bind.
  rewrite getStorageSize_ok by done. by rewrite bool_decide_false by lia.
Qed.

Lemma manageStorageQuota_over_quota w :
  cooperative (localStorage w) ->
  parseable (localStorage w) ->
  totalSize JSON_length (localStorage w) > STORAGE_CONFIG_maxSizeBytes ->
  exists ls',
    manageStorageQuota JSON_length w =
      (Ok tt, {| localStorage := ls'; console := console w |})
    /\ evictsOldestFirst JSON_length (localStorage w) ls'.
Proof.
  intros Hc Hp Hgt. unfold manageStorageQuota, try_catch, mbind, M_bind.
  rewrite getStorageSize_ok by done. rewrite bool_decide_true by lia.
  rewrite collectItems_ok by done. cbn [app].
  fold (candidates JSON_length (localStorage w)).
  destruct (removeOldest_ok w (totalSize JSON_length (localStorage w))
              (sortByTimestamp (candidates JSON_length (localStorage w))) 0 Hc)
    as (removed & kept & Hsplit & -> & Hbefore & Hstop).
  eexists. split; [reflexivity |].
  assert (Hin : forall item, item ∈ removed ->
                  item ∈ candidates JSON_length (localStorage w)).
  { intros item Hitem. rewrite <- (sortByTimestamp_perm (candidates _ _)), Hsplit.
    apply elem_of_app. by left. }
  assert (Hnd : NoDup (quota_key <$> removed)).
  { pose proof (NoDup_candidates (localStorage w)) as Hnd.
    rewrite <- (sortByTimestamp_perm (candidates _ _)), Hsplit, fmap_app in Hnd.
    by apply NoDup_app in Hnd as [Hnd _]. }
  assert (Hsize : totalSize JSON_length
                    (removeKeys (localStorage w) (quota_key <$> removed))
                  = totalSize JSON_length (localStorage w) - sizeOf removed).
  { rewrite totalSize_removeKeys by done. by rewrite (sizeOf_slotSizes _ _ Hin). }
  exists removed, kept. repeat split.
  - exact Hsplit.
  - rewrite <- Hsplit. apply sortByTimestamp_sorted.
  - exact Hsize.
  - intros before item after Heq. specialize (Hbefore before item after Heq). lia.
  - destruct Hstop as [-> | Hle]; [by left | right]. rewrite Hsize. lia.
Qed.

Lemma quotaItemOf_Written ls key (stored : StoredData (payload key)) :
  key ≠ LANGUAGE_PREFERENCE ->
  slot ls key = Some (Written stored) ->
  0 < slotSize JSON_length ls key ->
  exists item,
    quotaItemOf JSON_length ls key = Some item
    /\ quota_key item = key
    /\ quota_timestamp item = timestamp stored.
Proof.
  intros Hkey Hslot Hpos. unfold quotaItemOf, slotSize in *.
  rewrite decide_False by done. rewrite Hslot in *.
  unfold falsy. rewrite bool_decide_false by lia. by eexists.
Qed.

Lemma slotSize_nonneg ls key : 0 <= slotSize JSON_length ls key.
Proof. unfold slotSize. destruct (slot ls key); lia. Qed.

Lemma sizeOf_app items items' : sizeOf (items ++ items') = sizeOf items + sizeOf items'.
Proof.
  induction items as [|item items IH]; [done |].
  rewrite <- app_comm_cons, !sizeOf_cons, IH. lia.
Qed.

(** What [evictsOldestFirst] says about the two states. *)
Lemma evictsOldestFirst_quotaProperty ls ls' :
  parseable ls ->
  evictsOldestFirst JSON_length ls ls' ->
  quotaProperty JSON_length ls ls'.
Proof.
  intros Hparse (removed & kept & Hsplit & Hsorted & -> & Hsize & Hbefore & Hstop).
  assert (Hcand : forall item,
            item ∈ removed ++ kept <-> item ∈ candidates JSON_length ls).
  { intros item. by rewrite <- Hsplit, sortByTimestamp_perm. }
  assert (Hnolang : LANGUAGE_PREFERENCE ∉ quota_key <$> removed).
  { intros (item & Hk & Hin)%list_elem_of_fmap.
    assert (Hc : item ∈ candidates JSON_length ls)
      by (apply Hcand, elem_of_app; by left).
    apply elem_of_candidates, quotaItemOf_Some in Hc as (_ & Hne & _).
    congruence. }
  assert (Hremoved : forall key,
            key ∈ quota_key <$> removed ->
            exists item, item ∈ removed /\ quota_key item = key
                         /\ quotaItemOf JSON_length ls key = Some item).
  { intros key (item & -> & Hin)%list_elem_of_fmap. exists item.
    repeat split; [done |]. apply elem_of_candidates, Hcand, elem_of_app. by left. }
  assert (Hkept : forall key item,
            key ∉ quota_key <$> removed ->
            quotaItemOf JSON_length ls key = Some item -> item ∈ kept).
  { intros key item Hnin Hsome.
    pose proof (quotaItemOf_Some _ _ _ Hsome) as (Hk & _).
    assert (Hin : item ∈ removed ++ kept) by (apply Hcand, elem_of_candidates; congruence).
    apply elem_of_app in Hin as [Hin | Hin]; [| done].
    exfalso. apply Hnin, list_elem_of_fmap. by exists item. }
  repeat split.
  - rewrite slot_removeKeys. by rewrite decide_False.
  - intros key. rewrite slot_removeKeys. case_decide; [by right | by left].
  - intros key key' stored stored' Hslot Hgone Hslot' Hne Hpos Hpos'.
    rewrite slot_removeKeys in Hgone, Hslot'.
    destruct (decide (key ∈ quota_key <$> removed)) as [Hin|]; [| congruence].
    destruct (decide (key' ∈ quota_key <$> removed)) as [| Hnin]; [done |].
    destruct (Hremoved key Hin) as (item & Hitem & _ & Hsome).
    apply quotaItemOf_Some in Hsome as (_ & _ & _ & _ & stored0 & Hslot0 & Hts).
    rewrite Hslot in Hslot0. injection Hslot0 as <-.
    destruct (quotaItemOf_Written ls key' stored' Hne Hslot' Hpos')
      as (item' & Hsome' & _ & Hts').
    pose proof (Hkept key' item' Hnin Hsome') as Hitem'.
    pose proof (StronglySorted_app_1_elem_of _ _ _ _ _ Hsorted Hitem Hitem') as Hle.
    unfold olderItem in Hle. lia.
  - destruct Hstop as [-> | Hle]; [right | by left].
    intros key Hne.
    destruct (decide (slotSize JSON_length (removeKeys ls (quota_key <$> removed)) key = 0))
      as [| Hsz]; [done |].
    exfalso. unfold slotSize in Hsz. rewrite slot_removeKeys in Hsz.
    destruct (decide (key ∈ quota_key <$> removed)) as [| Hnin]; [done |].
    destruct (slot ls key) as [[stored | n message]|] eqn:Hslot; [| | done].
    + assert (Hpos : 0 < slotSize JSON_length ls key).
      { unfold slotSize. rewrite Hslot. lia. }
      destruct (quotaItemOf_Written ls key stored Hne Hslot Hpos)
        as (item & Hsome & _).
      pose proof (Hkept key item Hnin Hsome) as Hin. by apply elem_of_nil in Hin.
    + apply (Hparse key n message Hne) in Hslot as ->. by cbn in Hsz.
  - intros (key & Hwas & Hgone). rewrite slot_removeKeys in Hgone.
    destruct (decide (key ∈ quota_key <$> removed)) as [Hin|]; [| congruence].
    destruct removed as [|first rest] using rev_ind; [by apply elem_of_nil in Hin |].
    clear IHrest Hin.
    assert (Hlast : first ∈ rest ++ [first]) by (apply elem_of_app; right; left).
    assert (Hc : quotaItemOf JSON_length ls (quota_key first) = Some first).
    { apply elem_of_candidates, Hcand, elem_of_app. by left. }
    pose proof (quotaItemOf_Some _ _ _ Hc) as (_ & _ & Hsz & _ & stored & Hslot & _).
    exists (quota_key first). repeat split.
    + by rewrite Hslot.
    + rewrite slot_removeKeys, decide_True; [done |].
      apply list_elem_of_fmap. by exists first.
    + specialize (Hbefore rest first [] eq_refl).
      rewrite Hsize, sizeOf_app, sizeOf_cons, Hsz. change (sizeOf []) with 0. lia.
Qed.

(** The first loop deletes every evictable text that is not empty
    and does not parse. *)
Lemma collectItems_unparsable w keys items :
  cooperative (localStorage w) ->
  exists items' w',
    collectItems JSON_length keys items w = (Ok items', w')
    /\ console w' = console w
    /\ cooperative (localStorage w')
    /\ onlyDeletes (localStorage w) (localStorage w')
    /\ forall key n message,
         key ∈ keys -> key ≠ LANGUAGE_PREFERENCE ->
         slot (localStorage w) key = Some (Unparsable n message) -> n ≠ 0%N ->
         slot (localStorage w') key = None.
Proof.
  revert w items. induction keys as [|key keys IH]; intros w items Hc.
  - exists items, w. repeat split; try done; [by left |].
    intros key n message Hin. by apply elem_of_nil in Hin.
  - assert (Hskip : forall items0,
              exists items' w',
                collectItems JSON_length keys items0 w = (Ok items', w')
                /\ console w' = console w
                /\ cooperative (localStorage w')
                /\ onlyDeletes (localStorage w) (localStorage w')
                /\ forall k n message,
                     k ∈ keys -> k ≠ LANGUAGE_PREFERENCE ->
                     slot (localStorage w) k = Some (Unparsable n message) -> n ≠ 0%N ->
                     slot (localStorage w') k = None)
      by (intros items0; by apply IH).
    cbn [collectItems]. case_decide as Hkey.
    { destruct (Hskip items) as (items' & w' & Hrun & Hcon & Hc' & Hdel & Hgone).
      exists items', w'. repeat split; try done; [apply Hdel.. |].
      intros k n message [-> | Hin]%elem_of_cons Hne Hk Hn;
        [done | by apply (Hgone k n message)]. }
    unfold mbind, M_bind at 1. rewrite getItem_ok by done.
    destruct (slot (localStorage w) key) as [item|] eqn:Hslot.
    2:{ destruct (Hskip items) as (items' & w' & Hrun & Hcon & Hc' & Hdel & Hgone).
        exists items', w'. repeat split; try done; [apply Hdel.. |].
        intros k n message [-> | Hin]%elem_of_cons Hne Hk Hn;
          [congruence | by apply (Hgone k n message)]. }
    destruct (falsy JSON_length item) eqn:Hfalsy.
    { destruct (Hskip items) as (items' & w' & Hrun & Hcon & Hc' & Hdel & Hgone).
      exists items', w'. repeat split; try done; [apply Hdel.. |].
      intros k n message [-> | Hin]%elem_of_cons Hne Hk Hn;
        [| by apply (Hgone k n message)].
      rewrite Hslot in Hk. injection Hk as ->. unfold falsy in Hfalsy. cbn in Hfalsy.
      by apply bool_decide_eq_true in Hfalsy. }
    destruct item as [stored | n0 message0].
    + unfold mbind, M_bind, try_catch. cbn [JSON_parse mret M_ret].
      destruct (Hskip (items ++ [ {| quota_key := key;
                                     quota_timestamp := timestamp stored;
                                     quota_size := Z.of_N (item_length JSON_length
                                                             (key := key) (Written stored)) * 2 |} ]))
        as (items' & w' & Hrun & Hcon & Hc' & Hdel & Hgone).
      exists items', w'. repeat split; try done; [apply Hdel.. |].
      intros k n message [-> | Hin]%elem_of_cons Hne Hk Hn;
        [congruence | by apply (Hgone k n message)].
    + unfold mbind, M_bind, try_catch. cbn [JSON_parse throw].
      rewrite removeItem_ok by done.
      set (w1 := {| localStorage := put (localStorage w) key None;
                    console := console w |}).
      destruct (IH w1 items) as (items' & w' & Hrun & Hcon & Hc' & Hdel & Hgone);
        [by apply cooperative_put |].
      exists items', w'. split; [exact Hrun |]. split; [exact Hcon |].
      split; [exact Hc' |]. split.
      * eapply onlyDeletes_trans; [| exact Hdel]. by apply onlyDeletes_remove.
      * intros k n message Hin Hne Hk Hn.
        destruct (decide (k = key)) as [-> | Hkk].
        -- destruct Hdel as (_ & _ & Hslots).
           destruct (Hslots key) as [Heq | Heq]; [| exact Heq].
           rewrite Heq. unfold w1. cbn [localStorage]. apply slot_put_eq.
        -- apply elem_of_cons in Hin as [-> | Hin]; [done |].
           apply (Hgone k n message Hin Hne); [| done].
           unfold w1. cbn [localStorage]. by rewrite slot_put_ne.
Qed.

Lemma manageStorageQuota_unparsable w key n message :
  cooperative (localStorage w) ->
  totalSize JSON_length (localStorage w) > STORAGE_CONFIG_maxSizeBytes ->
  key ≠ LANGUAGE_PREFERENCE ->
  slot (localStorage w) key = Some (Unparsable n message) -> n ≠ 0%N ->
  slot (localStorage (manageStorageQuota JSON_length w).2) key = None.
Proof.
  intros Hc Hgt Hne Hslot Hn. unfold manageStorageQuota, try_catch, mbind, M_bind.
  rewrite getStorageSize_ok by done. rewrite bool_decide_true by lia.
  destruct (collectItems_unparsable w STORAGE_KEYS_values [] Hc)
    as (items & w1 & -> & _ & Hc1 & _ & Hgone).
  destruct (removeOldest_ok w1 (totalSize JSON_length (localStorage w))
              (sortByTimestamp items) 0 Hc1)
    as (removed & kept & _ & -> & _).
  cbn [snd localStorage]. rewrite slot_removeKeys. case_decide; [done |].
  apply (Hgone key n message); try done.
  destruct key; unfold STORAGE_KEYS_values; set_solver.
Qed.

(** What [manageStorageQuota] does.  It never touches the language
    preference.  On a host that accepts the calls: within the quota of
    5 MB nothing changes; above it, the texts other than the language
    preference that do not parse are deleted outright; and when every
    such text parses, the records other than the language preference are
    deleted one at a time, oldest timestamp first, each deletion being
    made while the total still exceeds 5 MB, until the total is at most
    5 MB or no such record is left.  When some text does not parse, the
    second loop still counts its bytes, and may delete records that fit
    (see the sample state with two such texts below). *)
Theorem quota_eviction (w : World) :
  let ls := localStorage w in
  let ls' := localStorage (manageStorageQuota JSON_length w).2 in
  slot ls' LANGUAGE_PREFERENCE = slot ls LANGUAGE_PREFERENCE
  /\ (cooperative ls ->
      (totalSize JSON_length ls <= STORAGE_CONFIG_maxSizeBytes -> ls' = ls)
      /\ (totalSize JSON_length ls > STORAGE_CONFIG_maxSizeBytes ->
          (forall key n message,
             key ≠ LANGUAGE_PREFERENCE ->
             slot ls key = Some (Unparsable n message) -> n ≠ 0%N ->
             slot ls' key = None)
          /\ (parseable ls ->
              evictsOldestFirst JSON_length ls ls'
              /\ quotaProperty JSON_length ls ls'))).
Proof.
  intros ls ls'. split.
  - apply (deleting_manageStorageQuota w).
  - intros Hc. split.
    + intros Hle. unfold ls'. by rewrite manageStorageQuota_within_quota.
    + intros Hgt. split.
      * intros key n message Hne Hslot Hn.
        by apply (manageStorageQuota_unparsable w key n message).
      * intros Hp.
        destruct (manageStorageQuota_over_quota w Hc Hp Hgt) as (ls1 & Hrun & Hev).
        unfold ls'. rewrite Hrun. cbn [snd localStorage].
        split; [exact Hev |]. by apply evictsOldestFirst_quotaProperty.
Qed.

(** *** Whole records *)

(** What [getSavedRoutes] returns depends on the routes text alone,
    when the host lets it read: nothing for an absent text. *)
Lemma getSavedRoutes_absent now w :
  refuses (localStorage w) GetItem = None ->
  slot (localStorage w) SAVED_ROUTES = None ->
  getSavedRoutes JSON_length now w = (Ok [], w).
Proof.
  intros Hget Hslot. unfold getSavedRoutes, try_catch, mbind, M_bind, getItem.
  by rewrite Hget, Hslot.
Qed.

Lemma getSavedRoutes_written now w routes :
  refuses (localStorage w) GetItem = None ->
  slot (localStorage w) SAVED_ROUTES =
    Some (Written {| data := routes; timestamp := now |}) ->
  getSavedRoutes JSON_length now w = (Ok routes, w)
  \/ getSavedRoutes JSON_length now w = (Ok [], w).
Proof.
  intros Hget Hslot. unfold getSavedRoutes, try_catch, mbind, M_bind, getItem.
  rewrite Hget, Hslot. destruct (falsy _ _); [by right |]. left.
  cbn [JSON_parse mret M_ret timestamp data]. unfold isExpired.
  rewrite bool_decide_false; [done |]. unfold STORAGE_CONFIG_maxAgeMs. lia.
Qed.

(** A successful [getSavedRoutes] leaves the host as willing as before. *)
Lemma getSavedRoutes_refuses now w :
  refuses (localStorage (getSavedRoutes JSON_length now w).2) = refuses (localStorage w).
Proof.
  assert (Hdel : deleting (getSavedRoutes JSON_length now)).
  { apply deleting_try_catch; [| intros e; apply deleting_handleStorageError].
    apply deleting_bind; [apply deleting_getItem |].
    intros [item|]; [| apply deleting_ret].
    destruct (falsy _ item); [apply deleting_ret |].
    apply deleting_bind; [apply deleting_JSON_parse |]. intros stored.
    destruct (isExpired _ _ _); [| apply deleting_ret].
    apply deleting_bind; [| intros _; apply deleting_ret].
    apply deleting_try_catch; [by apply deleting_removeItem |].
    intros e. apply deleting_handleStorageError. }
  apply (Hdel w).
Qed.

Lemma getSavedRoutes_Ok_reads now w routes w1 :
  getSavedRoutes JSON_length now w = (Ok routes, w1) ->
  refuses (localStorage w) GetItem = None.
Proof.
  unfold getSavedRoutes, try_catch, mbind, M_bind, getItem.
  destruct (refuses (localStorage w) GetItem) as [message|]; [| done].
  unfold handleStorageError, console_error, throw, mbind, M_bind. done.
Qed.

(** A successful [saveRoute] leaves under the routes key the whole
    list, the old routes with the new one, or nothing. *)
Lemma saveRoute_Ok now route w w' :
  saveRoute JSON_length now route w = (Ok tt, w') ->
  exists routes w1,
    getSavedRoutes JSON_length now w = (Ok routes, w1)
    /\ refuses (localStorage w') GetItem = None
    /\ (slot (localStorage w') SAVED_ROUTES =
          Some (Written {| data := withRoute route routes; timestamp := now |})
        \/ slot (localStorage w') SAVED_ROUTES = None).
Proof.
  unfold saveRoute, try_catch at 1. unfold mbind at 1, M_bind at 1.
  destruct (getSavedRoutes JSON_length now w) as [[routes|e] w1] eqn:Hget;
    [| by unfold handleStorageError, console_error, throw, mbind, M_bind].
  unfold mbind, M_bind at 1. unfold setItem at 1.
  destruct (refuses (localStorage w1) SetItem) as [message|] eqn:Hset;
    [by unfold handleStorageError, console_error, throw, mbind, M_bind |].
  set (w2 := {| localStorage := put (localStorage w1) SAVED_ROUTES _;
                console := console w1 |}).
  pose proof (deleting_manageStorageQuota w2) as (Hr & _ & Hslots).
  destruct (manageStorageQuota JSON_length w2) as [[[]|e] w3] eqn:Hquota;
    [| by unfold handleStorageError, console_error, throw, mbind, M_bind].
  intros [= <-]. exists routes, w1. split; [done |]. cbn [snd] in *. split.
  - rewrite Hr. unfold w2. cbn [localStorage]. rewrite refuses_put.
    pose proof (getSavedRoutes_refuses now w) as Hsame. rewrite Hget in Hsame.
    cbn [snd] in Hsame. rewrite Hsame. by eapply getSavedRoutes_Ok_reads.
  - destruct (Hslots SAVED_ROUTES) as [-> | ->]; [left | by right].
    unfold w2. cbn [localStorage]. by rewrite slot_put_eq.
Qed.

(** C9: the saved routes are one record under the key
    "cyclone_saved_routes" and the checklist is one record under
    "cyclone_checklist_state".  The eviction leaves each record as it is
    or deletes it whole.  So after a successful [saveRoute] the routes
    key holds the complete list, the route just saved included, or
    nothing; a reader then gets the complete list or the empty list,
    never a part of it; and once the record is evicted the reader gets
    the empty list, the route just saved being gone with the others. *)
Theorem eviction_granularity (w : World) :
  STORAGE_KEYS SAVED_ROUTES = "cyclone_saved_routes"
  /\ STORAGE_KEYS CHECKLIST_STATE = "cyclone_checklist_state"
  /\ (forall key,
        let ls' := localStorage (manageStorageQuota JSON_length w).2 in
        slot ls' key = slot (localStorage w) key \/ slot ls' key = None)
  /\ (forall now route w',
        saveRoute JSON_length now route w = (Ok tt, w') ->
        exists routes,
          (getSavedRoutes JSON_length now w).1 = Ok routes
          /\ (slot (localStorage w') SAVED_ROUTES =
                Some (Written {| data := withRoute route routes; timestamp := now |})
              \/ slot (localStorage w') SAVED_ROUTES = None)
          /\ ((getSavedRoutes JSON_length now w').1 = Ok (withRoute route routes)
              \/ (getSavedRoutes JSON_length now w').1 = Ok [])
          /\ (slot (localStorage w') SAVED_ROUTES = None ->
              forall later, (getSavedRoutes JSON_length later w').1 = Ok [])).
Proof.
  split; [done |]. split; [done |]. split.
  - intros key. apply (deleting_manageStorageQuota w).
  - intros now route w' Hsave.
    destruct (saveRoute_Ok now route w w' Hsave) as (routes & w1 & Hget & Hread & Hslot).
    exists routes. rewrite Hget. split; [done |]. split; [exact Hslot |]. split.
    + destruct Hslot as [Hslot | Hslot].
      * destruct (getSavedRoutes_written now w' _ Hread Hslot) as [-> | ->];
          [by left | by right].
      * right. by rewrite getSavedRoutes_absent.
    + intros Hnone later. by rewrite getSavedRoutes_absent.
Qed.

(** *** Errors of the storage *)

Lemma handleStorageError_run {A} error operation w :
  handleStorageError (A := A) error operation w =
    (Throw (storageError operation error),
     {| localStorage := localStorage w;
        console := console w ++ [storageLogLine operation error] |}).
Proof. done. Qed.

(** A refused read makes [getSavedRoutes] throw. *)
Lemma getSavedRoutes_refused now w message :
  refuses (localStorage w) GetItem = Some message ->
  getSavedRoutes JSON_length now w =
    (Throw (storageError "getSavedRoutes" (JsError message)),
     {| localStorage := localStorage w;
        console := console w ++ [storageLogLine "getSavedRoutes" (JsError message)] |}).
Proof.
  intros Hget. unfold getSavedRoutes, try_catch, mbind, M_bind, getItem.
  by rewrite Hget, handleStorageError_run.
Qed.

(** So does a routes text that does not parse. *)
Lemma getSavedRoutes_unparsable now w n message :
  refuses (localStorage w) GetItem = None ->
  slot (localStorage w) SAVED_ROUTES = Some (Unparsable n message) ->
  n ≠ 0%N ->
  getSavedRoutes JSON_length now w =
    (Throw (storageError "getSavedRoutes" (JsError message)),
     {| localStorage := localStorage w;
        console := console w ++ [storageLogLine "getSavedRoutes" (JsError message)] |}).
Proof.
  intros Hget Hslot Hn. unfold getSavedRoutes, try_catch, mbind, M_bind, getItem.
  rewrite Hget, Hslot. unfold falsy. cbn [item_length].
  rewrite bool_decide_false by done. cbn [JSON_parse throw].
  by rewrite handleStorageError_run.
Qed.

(** The cases of the theorem below have one shape: run the operation
    up to the failing step, then the handler. *)
Ltac run_failing Hfail :=
  unfold invoke, saveLastCyclone, getLastCyclone, saveChecklistState,
    getChecklistState, saveLanguagePreference, getLanguagePreference,
    saveRoute, deleteRoute;
  unfold try_catch, mbind, M_bind, getItem, setItem;
  rewrite ?Hfail; cbn [JSON_parse throw];
  rewrite ?handleStorageError_run;
  eexists _, _; split; [reflexivity |];
  cbn [console localStorage]; split; [apply last_snoc | reflexivity].

(** How a failure of the storage leaves the manager.  Every [catch]
    of the class calls [handleStorageError], which logs and then throws;
    the [return] of a default that follows the call is never reached.  So
    when the host refuses the first call that an operation makes to it,
    or when the text that the operation parses is not empty and does not
    parse, the operation logs the error and throws a [DashboardError] of
    type [STORAGE_ERROR], not retryable, that names the operation; the
    storage is left as it was.  A read returns the empty or default
    result for an absent text only. *)
Theorem storage_failure_is_rethrown (now : Z) (c : call) (w : World) :
  ((exists message, refuses (localStorage w) (firstHostCall c) = Some message)
   \/ (refuses (localStorage w) GetItem = None
       /\ exists key n message,
            parsedKey c = Some key
            /\ slot (localStorage w) key = Some (Unparsable n message)
            /\ n ≠ 0%N) ->
   exists cause w',
     invoke JSON_length now c w = (Throw (storageError (operationName c) cause), w')
     /\ last (console w') = Some (storageLogLine (operationName c) cause)
     /\ localStorage w' = localStorage w)
  /\ (refuses (localStorage w) GetItem = None ->
      (exists key, parsedKey c = Some key /\ slot (localStorage w) key = None) ->
      defaultAnswer now c ≠ Done ->
      invoke JSON_length now c w = (Ok (defaultAnswer now c), w)).
Proof.
  split.
  - intros [[message Hrefused] | (Hget & key & n & message & Hkey & Hslot & Hn)].
    + destruct c; cbn [firstHostCall operationName] in *;
        try (run_failing Hrefused).
      * unfold invoke, saveRoute, try_catch at 1. unfold mbind at 1 2, M_bind at 1 2.
        rewrite (getSavedRoutes_refused _ _ _ Hrefused), handleStorageError_run.
        eexists _, _. split; [reflexivity |].
        cbn [console localStorage]. split; [apply last_snoc | reflexivity].
      * unfold invoke. unfold mbind at 1, M_bind at 1.
        rewrite (getSavedRoutes_refused _ _ _ Hrefused).
        eexists _, _. split; [reflexivity |].
        cbn [console localStorage]. split; [apply last_snoc | reflexivity].
      * unfold invoke, deleteRoute, try_catch at 1. unfold mbind at 1 2, M_bind at 1 2.
        rewrite (getSavedRoutes_refused _ _ _ Hrefused), handleStorageError_run.
        eexists _, _. split; [reflexivity |].
        cbn [console localStorage]. split; [apply last_snoc | reflexivity].
    + assert (Hfalsy : forall k (item : Item (payload k)),
                item = Unparsable n message -> falsy JSON_length item = false).
      { intros k item ->. unfold falsy. cbn [item_length].
        by apply bool_decide_eq_false. }
      destruct c; cbn [parsedKey operationName] in *; try discriminate Hkey;
        injection Hkey as <-; cbn [slot] in Hslot.
      * unfold invoke, getLastCyclone, try_catch, mbind, M_bind, getItem.
        rewrite Hget. cbn [slot]. rewrite Hslot, (Hfalsy LAST_CYCLONE) by done.
        cbn [JSON_parse throw]. rewrite handleStorageError_run.
        eexists _, _. split; [reflexivity |].
        cbn [console localStorage]. split; [apply last_snoc | reflexivity].
      * unfold invoke, saveRoute, try_catch at 1. unfold mbind at 1 2, M_bind at 1 2.
        rewrite (getSavedRoutes_unparsable _ _ _ _ Hget Hslot Hn), handleStorageError_run.
        eexists _, _. split; [reflexivity |].
        cbn [console localStorage]. split; [apply last_snoc | reflexivity].
      * unfold invoke. unfold mbind at 1, M_bind at 1.
        rewrite (getSavedRoutes_unparsable _ _ _ _ Hget Hslot Hn).
        eexists _, _. split; [reflexivity |].
        cbn [console localStorage]. split; [apply last_snoc | reflexivity].
      * unfold invoke, deleteRoute, try_catch at 1. unfold mbind at 1 2, M_bind at 1 2.
        rewrite (getSavedRoutes_unparsable _ _ _ _ Hget Hslot Hn), handleStorageError_run.
        eexists _, _. split; [reflexivity |].
        cbn [console localStorage]. split; [apply last_snoc | reflexivity].
      * unfold invoke, getChecklistState, try_catch, mbind, M_bind, getItem.
        rewrite Hget. cbn [slot]. rewrite Hslot, (Hfalsy CHECKLIST_STATE) by done.
        cbn [JSON_parse throw]. rewrite handleStorageError_run.
        eexists _, _. split; [reflexivity |].
        cbn [console localStorage]. split; [apply last_snoc | reflexivity].
      * unfold invoke, getLanguagePreference, try_catch, mbind, M_bind, getItem.
        rewrite Hget. cbn [slot]. rewrite Hslot, (Hfalsy LANGUAGE_PREFERENCE) by done.
        cbn [JSON_parse throw]. rewrite handleStorageError_run.
        eexists _, _. split; [reflexivity |].
        cbn [console localStorage]. split; [apply last_snoc | reflexivity].
  - intros Hget (key & Hkey & Hslot) Hread.
    destruct c; cbn [parsedKey defaultAnswer] in *; try done;
      injection Hkey as <-; cbn [slot] in Hslot;
      unfold invoke, getLastCyclone, getSavedRoutes, getChecklistState,
        getLanguagePreference, try_catch, mbind, M_bind, getItem;
      rewrite Hget; cbn [slot]; by rewrite Hslot.
Qed.

End WithSerializer.
End StorageFacts.

(** ** The storage manager on the sample states *)

Module StorageExamples.
Import Storage StorageSamples StorageFacts.

Lemma accepting_cooperative ls : refuses ls = accepting -> cooperative ls.
Proof. intros H c. by rewrite H. Qed.

(** C5: the code at the failing input.  In the state [damaged] two
    texts of 1.5 million characters do not parse.  [saveRoute] writes the
    routes record, 274 bytes, and calls [manageStorageQuota] in the state
    [damagedWithRoute], whose total of 6000352 bytes is above the quota
    of 5242880.  The first loop deletes the two texts, which leaves 352
    bytes; the second loop still compares the total read at the start
    with the quota, and deletes the routes record that was just written.
    The call returns normally, 78 bytes are left, and the saved route is
    gone: the deletions did not stop once the total was within the
    quota. *)
Lemma quota_eviction_goes_past_the_quota :
  let ls := localStorage damagedWithRoute in
  let ls' := localStorage (manageStorageQuota sampleLength damagedWithRoute).2 in
  saveRoute sampleLength 5000 chennaiToSalem damaged
    = (Ok tt, (manageStorageQuota sampleLength damagedWithRoute).2)
  /\ totalSize sampleLength ls = 6000352
  /\ totalSize sampleLength ls > STORAGE_CONFIG_maxSizeBytes
  /\ slotSize sampleLength ls SAVED_ROUTES = 274
  /\ totalSize sampleLength ls
       - slotSize sampleLength ls LAST_CYCLONE
       - slotSize sampleLength ls CHECKLIST_STATE = 352
  /\ slot ls' LAST_CYCLONE = None
  /\ slot ls' CHECKLIST_STATE = None
  /\ slot ls' SAVED_ROUTES = None
  /\ totalSize sampleLength ls' = 78
  /\ (getSavedRoutes sampleLength 5000
        (manageStorageQuota sampleLength damagedWithRoute).2).1 = Ok []
  /\ ~ quotaProperty sampleLength ls ls'.
Proof.
  cbv zeta. repeat (split; [by vm_compute |]).
  intros (_ & _ & _ & _ & Hlast).
  destruct Hlast as (key & Hwas & Hgone & Hsize).
  - exists SAVED_ROUTES. split; [done | by vm_compute].
  - destruct key; vm_compute in Hsize; discriminate Hsize.
Qed.

Lemma crowded_parseable : parseable (localStorage crowded).
Proof. intros [] n message Hne Hslot; [discriminate Hslot.. | done]. Qed.

(** In the state [crowded] the eviction deletes the cyclone id, the
    checklist and then the routes; in the state [tidy] it deletes
    nothing; in the state [damagedWithRoute] it deletes the text of the
    checklist, which does not parse. *)
Lemma quota_eviction_witness :
  (let ls := localStorage crowded in
   let ls' := localStorage (manageStorageQuota sampleLength crowded).2 in
   slot ls' LANGUAGE_PREFERENCE = slot ls LANGUAGE_PREFERENCE
   /\ evictsOldestFirst sampleLength ls ls'
   /\ quotaProperty sampleLength ls ls')
  /\ localStorage (manageStorageQuota sampleLength tidy).2 = localStorage tidy
  /\ slot (localStorage (manageStorageQuota sampleLength damagedWithRoute).2)
       CHECKLIST_STATE = None.
Proof.
  split; [| split].
  - cbv zeta. destruct (quota_eviction sampleLength crowded) as [Hlang Hrest].
    split; [exact Hlang |].
    apply Hrest.
    + by apply accepting_cooperative.
    + by vm_compute.
    + exact crowded_parseable.
  - destruct (quota_eviction sampleLength tidy) as [_ Hrest].
    apply Hrest.
    + by apply accepting_cooperative.
    + by vm_compute.
  - destruct (quota_eviction sampleLength damagedWithRoute) as [_ Hrest].
    assert (Hc : cooperative (localStorage damagedWithRoute))
      by (by apply accepting_cooperative).
    destruct (Hrest Hc) as [_ Hover].
    destruct Hover as [Hgone _]; [by vm_compute |].
    apply (Hgone CHECKLIST_STATE 1500000%N "Unexpected end of JSON input");
      [done | reflexivity | done].
Defined.

Example crowded_eviction :
  let ls' := localStorage (manageStorageQuota sampleLength crowded).2 in
  totalSize sampleLength (localStorage crowded) = 6120466
  /\ slot ls' LAST_CYCLONE = None
  /\ slot ls' CHECKLIST_STATE = None
  /\ slot ls' SAVED_ROUTES = None
  /\ slot ls' LANGUAGE_PREFERENCE = slot (localStorage crowded) LANGUAGE_PREFERENCE
  /\ totalSize sampleLength ls' = 78.
Proof. vm_compute. repeat split. Qed.

(** Saving a route in the state [tidy]. *)
Lemma eviction_granularity_witness :
  let w' := (saveRoute sampleLength 5000 chennaiToSalem tidy).2 in
  exists routes,
    (getSavedRoutes sampleLength 5000 tidy).1 = Ok routes
    /\ (slot (localStorage w') SAVED_ROUTES =
          Some (Written {| data := withRoute chennaiToSalem routes; timestamp := 5000 |})
        \/ slot (localStorage w') SAVED_ROUTES = None)
    /\ ((getSavedRoutes sampleLength 5000 w').1 = Ok (withRoute chennaiToSalem routes)
        \/ (getSavedRoutes sampleLength 5000 w').1 = Ok [])
    /\ (slot (localStorage w') SAVED_ROUTES = None ->
        forall later, (getSavedRoutes sampleLength later w').1 = Ok []).
Proof.
  cbv zeta.
  apply (proj2 (proj2 (proj2 (eviction_granularity sampleLength tidy)))
           5000 chennaiToSalem).
  by vm_compute.
Defined.

(** Saving a route in the state [crowded]: the call succeeds, the
    eviction that follows deletes the routes record, and the route just
    saved is gone with the thirty thousand others. *)
Example saved_route_is_evicted :
  let saved := saveRoute sampleLength 5000 chennaiToSalem crowded in
  saved.1 = Ok tt
  /\ slot (localStorage saved.2) SAVED_ROUTES = None
  /\ (getSavedRoutes sampleLength 5000 saved.2).1 = Ok [].
Proof. vm_compute. repeat split. Qed.

(** C3: the code at the failing inputs.  On a routes text that does
    not parse, and on a host that refuses the read, [getSavedRoutes]
    does not return the empty list: its [catch] logs the error and
    throws a [DashboardError] of type [STORAGE_ERROR], and the storage
    stays as it was. *)
Lemma storage_failure_escapes :
  slot (localStorage garbled) SAVED_ROUTES = Some (Unparsable 17 "Unexpected token")
  /\ getSavedRoutes sampleLength 5000 garbled
     = (Throw (storageError "getSavedRoutes" (JsError "Unexpected token")),
        {| localStorage := localStorage garbled;
           console := [storageLogLine "getSavedRoutes" (JsError "Unexpected token")] |})
  /\ ~ absorbsFailure sampleLength 5000 GetSavedRoutes garbled
  /\ refuses (localStorage denied) GetItem = Some "The operation is insecure."
  /\ getSavedRoutes sampleLength 5000 denied
     = (Throw (storageError "getSavedRoutes" (JsError "The operation is insecure.")),
        {| localStorage := localStorage denied;
           console :=
             [storageLogLine "getSavedRoutes" (JsError "The operation is insecure.")] |})
  /\ ~ absorbsFailure sampleLength 5000 GetSavedRoutes denied.
Proof.
  split; [done |]. split; [by vm_compute |]. split; [| split; [done |]].
  - unfold absorbsFailure. vm_compute. discriminate.
  - split; [by vm_compute |]. unfold absorbsFailure. vm_compute. discriminate.
Qed.

(** The same two runs, by the theorem. *)
Lemma storage_failure_is_rethrown_witness :
  (exists cause w',
     invoke sampleLength 5000 GetSavedRoutes garbled =
       (Throw (storageError "getSavedRoutes" cause), w')
     /\ last (console w') = Some (storageLogLine "getSavedRoutes" cause)
     /\ localStorage w' = localStorage garbled)
  /\ (exists cause w',
        invoke sampleLength 5000 (SaveRoute chennaiToSalem) denied =
          (Throw (storageError "saveRoute" cause), w')
        /\ last (console w') = Some (storageLogLine "saveRoute" cause)
        /\ localStorage w' = localStorage denied)
  /\ invoke sampleLength 5000 GetChecklistState tidy =
       (Ok (Checklist (defaultChecklistState 5000)), tidy).
Proof.
  split; [| split].
  - apply (proj1 (storage_failure_is_rethrown sampleLength 5000 GetSavedRoutes garbled)).
    right. split; [reflexivity |].
    exists SAVED_ROUTES, 17%N, "Unexpected token". by repeat split.
  - apply (proj1 (storage_failure_is_rethrown sampleLength 5000
                    (SaveRoute chennaiToSalem) denied)).
    left. by eexists.
  - apply (proj2 (storage_failure_is_rethrown sampleLength 5000 GetChecklistState tidy)).
    + reflexivity.
    + by exists CHECKLIST_STATE.
    + discriminate.
Defined.

End StorageExamples.

(** ** Further properties of the storage manager *)

Module StorageLaws.
Import Storage StorageSamples StorageFacts StorageExamples.

Section WithSerializer.
Variable JSON_length : forall key, StoredData (payload key) -> N.

(** [JSON.stringify] of a record is never the empty text. *)
Hypothesis JSON_nonempty : forall key stored, JSON_length key stored ≠ 0%N.

(** The world after a write or a removal that the host accepts. *)
Local Abbreviation updated w key v :=
  {| localStorage := put (localStorage w) key v; console := console w |}.

Lemma written_truthy key (stored : StoredData (payload key)) :
  falsy JSON_length (Written stored) = false.
Proof. unfold falsy. cbn [item_length]. by apply bool_decide_eq_false. Qed.

Lemma deleteItem_ok w key :
  cooperative (localStorage w) ->
  deleteItem key w = (Ok tt, updated w key None).
Proof. intros Hc. unfold deleteItem, try_catch. by rewrite removeItem_ok. Qed.

(** *** The cyclone id *)

Lemma saveLastCyclone_ok now cycloneId w :
  cooperative (localStorage w) ->
  saveLastCyclone now cycloneId w =
    (Ok tt, updated w LAST_CYCLONE
              (Some (Written {| data := cycloneId; timestamp := now |}))).
Proof. intros Hc. unfold saveLastCyclone, try_catch. by rewrite setItem_ok. Qed.

Lemma getLastCyclone_written now w stored :
  cooperative (localStorage w) ->
  slot (localStorage w) LAST_CYCLONE = Some (Written stored) ->
  getLastCyclone JSON_length now w =
    if isExpired now (timestamp stored) STORAGE_CONFIG_maxAgeMs
    then (Ok None, updated w LAST_CYCLONE None)
    else (Ok (Some (data stored)), w).
Proof.
  intros Hc Hslot. unfold getLastCyclone, try_catch, mbind, M_bind.
  rewrite getItem_ok, Hslot, written_truthy by done.
  cbn [JSON_parse mret M_ret].
  destruct (isExpired _ _ _); [| done].
  by rewrite deleteItem_ok.
Qed.

Lemma getLastCyclone_absent now w :
  cooperative (localStorage w) ->
  slot (localStorage w) LAST_CYCLONE = None ->
  getLastCyclone JSON_length now w = (Ok None, w).
Proof.
  intros Hc Hslot. unfold getLastCyclone, try_catch, mbind, M_bind.
  by rewrite getItem_ok, Hslot.
Qed.

(** X24: the cyclone id is read back for thirty days.  On a host
    that accepts the calls, [saveLastCyclone] writes the id and touches no
    other record; [getLastCyclone] returns it at any time up to thirty
    days after the write, that moment included, leaving the storage as
    it is; later it returns [null] and removes the record, so that the
    id never comes back. *)
Theorem last_cyclone_round_trip (now later : Z) (cycloneId : string) (w : World) :
  cooperative (localStorage w) ->
  let w1 := (saveLastCyclone now cycloneId w).2 in
  (saveLastCyclone now cycloneId w).1 = Ok tt
  /\ (forall key, key ≠ LAST_CYCLONE ->
        slot (localStorage w1) key = slot (localStorage w) key)
  /\ (later - now <= STORAGE_CONFIG_maxAgeMs ->
        getLastCyclone JSON_length later w1 = (Ok (Some cycloneId), w1))
  /\ (later - now > STORAGE_CONFIG_maxAgeMs ->
        let w2 := (getLastCyclone JSON_length later w1).2 in
        (getLastCyclone JSON_length later w1).1 = Ok None
        /\ slot (localStorage w2) LAST_CYCLONE = None
        /\ forall again, getLastCyclone JSON_length again w2 = (Ok None, w2)).
Proof.
  intros Hc w1. unfold w1. rewrite saveLastCyclone_ok by done. cbn [fst snd].
  set (stored := {| data := cycloneId; timestamp := now |}).
  assert (Hc1 : cooperative (localStorage (updated w LAST_CYCLONE (Some (Written stored)))))
    by (by apply cooperative_put).
  assert (Hslot : slot (localStorage (updated w LAST_CYCLONE (Some (Written stored))))
                    LAST_CYCLONE = Some (Written stored))
    by apply slot_put_eq.
  split; [done |]. split.
  { intros key Hne. cbn [localStorage]. by rewrite slot_put_ne. }
  rewrite (getLastCyclone_written later _ stored Hc1 Hslot).
  unfold isExpired. cbn [timestamp data stored]. split.
  - intros Hage. by rewrite bool_decide_false by lia.
  - intros Hage. rewrite bool_decide_true by lia. cbn [fst snd localStorage].
    split; [done |]. split; [apply slot_put_eq |].
    intros again. apply getLastCyclone_absent.
    + by apply cooperative_put.
    + apply slot_put_eq.
Qed.

(** *** The saved routes *)

Lemma getSavedRoutes_stored now w stored :
  cooperative (localStorage w) ->
  slot (localStorage w) SAVED_ROUTES = Some (Written stored) ->
  getSavedRoutes JSON_length now w =
    if isExpired now (timestamp stored) STORAGE_CONFIG_maxAgeMs
    then (Ok [], updated w SAVED_ROUTES None)
    else (Ok (data stored), w).
Proof.
  intros Hc Hslot. unfold getSavedRoutes, try_catch, mbind, M_bind.
  rewrite getItem_ok, Hslot, written_truthy by done.
  cbn [JSON_parse mret M_ret].
  destruct (isExpired _ _ _); [| done].
  by rewrite deleteItem_ok.
Qed.

(** A successful [getSavedRoutes] leaves the storage as it is or
    without the routes record. *)
Lemma getSavedRoutes_Ok_cases now w routes :
  cooperative (localStorage w) ->
  (getSavedRoutes JSON_length now w).1 = Ok routes ->
  (getSavedRoutes JSON_length now w).2 = w
  \/ (getSavedRoutes JSON_length now w).2 = updated w SAVED_ROUTES None.
Proof.
  intros Hc. destruct (slot (localStorage w) SAVED_ROUTES) as [[stored | n message]|]
    eqn:Hslot.
  - rewrite (getSavedRoutes_stored _ _ _ Hc Hslot).
    destruct (isExpired _ _ _); [by right | by left].
  - destruct (decide (n = 0%N)) as [-> | Hn].
    + unfold getSavedRoutes, try_catch, mbind, M_bind.
      rewrite getItem_ok, Hslot by done. by left.
    + by rewrite (getSavedRoutes_unparsable JSON_length now w n message (Hc _) Hslot Hn).
  - rewrite (getSavedRoutes_absent JSON_length now w (Hc _) Hslot). by left.
Qed.

Lemma getSavedRoutes_cooperative now w :
  cooperative (localStorage w) ->
  cooperative (localStorage (getSavedRoutes JSON_length now w).2).
Proof. intros Hc c. rewrite getSavedRoutes_refuses. apply Hc. Qed.

(** [withRoute] replaces the route of the same source and destination,
    or appends. *)
Lemma withRoute_cases (route : SavedRoute) (routes : list SavedRoute) :
  (exists i old,
     routes !! i = Some old
     /\ source old = source route /\ destination old = destination route
     /\ withRoute route routes = <[i := route]> routes)
  \/ (Forall (λ r, ~ (source r = source route /\ destination r = destination route))
        routes
      /\ withRoute route routes = routes ++ [route]).
Proof.
  unfold withRoute, findRoute.
  destruct (list_find _ routes) as [[i old]|] eqn:Hfind; cbn.
  - apply list_find_Some in Hfind as (Hi & [Hs Hd] & _). left. by exists i, old.
  - apply list_find_None in Hfind. by right.
Qed.

(** X25: saving a route replaces or appends.  The list that
    [saveRoute] writes holds the new route, in the place of the saved
    route of the same source and destination if there is one (the list
    then keeps its length) and at the end otherwise; a list without two
    routes of the same source and destination stays so.  On a host that
    accepts the calls, when the storage is within its quota after the
    write, [getSavedRoutes] returns that list for thirty days. *)
Theorem saveRoute_upserts (now later : Z) (route : SavedRoute) (w : World)
    (routes : list SavedRoute) :
  cooperative (localStorage w) ->
  (getSavedRoutes JSON_length now w).1 = Ok routes ->
  totalSize JSON_length
    (put (localStorage (getSavedRoutes JSON_length now w).2) SAVED_ROUTES
       (Some (Written {| data := withRoute route routes; timestamp := now |})))
    <= STORAGE_CONFIG_maxSizeBytes ->
  let w1 := (saveRoute JSON_length now route w).2 in
  (saveRoute JSON_length now route w).1 = Ok tt
  /\ (later - now <= STORAGE_CONFIG_maxAgeMs ->
        getSavedRoutes JSON_length later w1 = (Ok (withRoute route routes), w1))
  /\ route ∈ withRoute route routes
  /\ (Exists (λ r, source r = source route /\ destination r = destination route)
        routes ->
      length (withRoute route routes) = length routes)
  /\ (Forall (λ r, ~ (source r = source route /\ destination r = destination route))
        routes ->
      withRoute route routes = routes ++ [route])
  /\ (NoDup ((λ r, (source r, destination r)) <$> routes) ->
      NoDup ((λ r, (source r, destination r)) <$> withRoute route routes)).
Proof.
  intros Hc Hroutes Hquota w1.
  assert (Hrun : saveRoute JSON_length now route w =
                 (Ok tt, updated (getSavedRoutes JSON_length now w).2 SAVED_ROUTES
                           (Some (Written {| data := withRoute route routes;
                                             timestamp := now |})))).
  { pose proof (getSavedRoutes_cooperative now w Hc) as Hc0.
    unfold saveRoute, try_catch at 1. unfold mbind at 1, M_bind at 1.
    destruct (getSavedRoutes JSON_length now w) as [[routes'|e] w0];
      cbn [fst snd] in *; [| done].
    injection Hroutes as ->.
    unfold mbind, M_bind. rewrite setItem_ok by done.
    rewrite manageStorageQuota_within_quota; [done | | done].
    by apply cooperative_put. }
  unfold w1. rewrite Hrun. cbn [fst snd]. split; [done |]. split.
  { intros Hage.
    rewrite (getSavedRoutes_stored later _
               {| data := withRoute route routes; timestamp := now |}).
    - unfold isExpired. cbn [timestamp data]. by rewrite bool_decide_false by lia.
    - apply cooperative_put. by apply getSavedRoutes_cooperative.
    - apply slot_put_eq. }
  destruct (withRoute_cases route routes)
    as [(i & old & Hi & Hs & Hd & ->) | (Hnone & ->)].
  - split; [apply list_elem_of_insert; by eapply lookup_lt_Some |].
    split; [intros _; apply length_insert |]. split.
    + intros Hall. eapply Forall_forall in Hall;
        [| by eapply list_elem_of_lookup_2]. by destruct Hall.
    + intros Hnodup. rewrite list_fmap_insert, list_insert_id; [done |].
      rewrite list_lookup_fmap, Hi. cbn. by rewrite Hs, Hd.
  - split; [apply elem_of_app; right; apply list_elem_of_here |]. split.
    + intros Hex. apply Exists_exists in Hex as (r & Hr & Hsame).
      eapply Forall_forall in Hnone; [| exact Hr]. done.
    + split; [done |]. intros Hnodup. rewrite fmap_app. apply NoDup_app.
      split; [exact Hnodup |]. split; [| apply NoDup_singleton].
      intros pair Hin Hnew. apply list_elem_of_fmap in Hin as (r & -> & Hr).
      cbn in Hnew. apply list_elem_of_singleton in Hnew. injection Hnew as Hs Hd.
      eapply Forall_forall in Hnone; [| exact Hr]. by apply Hnone.
Qed.

(** X26: deleting a route.  On a host that accepts the calls,
    [deleteRoute] rewrites the routes record without the routes of the
    given id, the others in their order, and with the time of the call,
    so that the thirty days start again, also when no route had that
    id; no other record is touched and the quota is not looked at.
    [getSavedRoutes] then returns the shortened list. *)
Theorem deleteRoute_removes (now later : Z) (routeId : string) (w : World)
    (routes : list SavedRoute) :
  cooperative (localStorage w) ->
  (getSavedRoutes JSON_length now w).1 = Ok routes ->
  let w1 := (deleteRoute JSON_length now routeId w).2 in
  let kept := filter (λ r, id r ≠ routeId) routes in
  (deleteRoute JSON_length now routeId w).1 = Ok tt
  /\ slot (localStorage w1) SAVED_ROUTES
     = Some (Written {| data := kept; timestamp := now |})
  /\ (forall key, key ≠ SAVED_ROUTES ->
        slot (localStorage w1) key = slot (localStorage w) key)
  /\ (later - now <= STORAGE_CONFIG_maxAgeMs ->
        getSavedRoutes JSON_length later w1 = (Ok kept, w1))
  /\ (forall r, r ∈ kept <-> r ∈ routes /\ id r ≠ routeId)
  /\ kept `sublist_of` routes.
Proof.
  intros Hc Hroutes w1 kept.
  assert (Hrun : deleteRoute JSON_length now routeId w =
                 (Ok tt, updated (getSavedRoutes JSON_length now w).2 SAVED_ROUTES
                           (Some (Written {| data := kept; timestamp := now |})))).
  { pose proof (getSavedRoutes_cooperative now w Hc) as Hc0.
    unfold deleteRoute, try_catch at 1. unfold mbind at 1, M_bind at 1.
    destruct (getSavedRoutes JSON_length now w) as [[routes'|e] w0];
      cbn [fst snd] in *; [| done].
    injection Hroutes as ->. by rewrite setItem_ok. }
  unfold w1. rewrite Hrun. cbn [fst snd localStorage].
  split; [done |]. split; [apply slot_put_eq |]. split.
  { intros key Hne. rewrite slot_put_ne by done.
    destruct (getSavedRoutes_Ok_cases now w routes Hc Hroutes) as [-> | ->];
      [done |]. cbn [localStorage]. by rewrite slot_put_ne. }
  split.
  { intros Hage.
    rewrite (getSavedRoutes_stored later _ {| data := kept; timestamp := now |}).
    - unfold isExpired. cbn [timestamp data]. by rewrite bool_decide_false by lia.
    - apply cooperative_put. by apply getSavedRoutes_cooperative.
    - apply slot_put_eq. }
  split.
  - intros r. unfold kept. rewrite list_elem_of_filter. tauto.
  - apply sublist_filter.
Qed.

(** *** The checklist *)

Lemma getChecklistState_stored now w stored :
  cooperative (localStorage w) ->
  slot (localStorage w) CHECKLIST_STATE = Some (Written stored) ->
  getChecklistState JSON_length now w =
    if isExpired now (timestamp stored) STORAGE_CONFIG_maxAgeMs
    then (Ok (defaultChecklistState now), updated w CHECKLIST_STATE None)
    else (Ok (data stored), w).
Proof.
  intros Hc Hslot. unfold getChecklistState, try_catch, mbind, M_bind.
  rewrite getItem_ok, Hslot, written_truthy by done.
  cbn [JSON_parse mret M_ret].
  destruct (isExpired _ _ _); [| done].
  by rewrite deleteItem_ok.
Qed.

Lemma getChecklistState_absent now w :
  cooperative (localStorage w) ->
  slot (localStorage w) CHECKLIST_STATE = None ->
  getChecklistState JSON_length now w = (Ok (defaultChecklistState now), w).
Proof.
  intros Hc Hslot. unfold getChecklistState, try_catch, mbind, M_bind.
  by rewrite getItem_ok, Hslot.
Qed.

(** X27: the checklist is read back for thirty days.  On a host that
    accepts the calls, when the storage is within its quota after the
    write, [saveChecklistState] writes the state and
    [getChecklistState] returns it at any time up to thirty days later;
    after that, and when no state is stored, it returns the default
    state, without items and dated at the time of the reading, and an
    expired record is removed. *)
Theorem checklist_round_trip (now later : Z) (state : ChecklistState) (w : World) :
  cooperative (localStorage w) ->
  totalSize JSON_length
    (put (localStorage w) CHECKLIST_STATE
       (Some (Written {| data := state; timestamp := now |})))
    <= STORAGE_CONFIG_maxSizeBytes ->
  let w1 := (saveChecklistState JSON_length now state w).2 in
  (saveChecklistState JSON_length now state w).1 = Ok tt
  /\ (later - now <= STORAGE_CONFIG_maxAgeMs ->
        getChecklistState JSON_length later w1 = (Ok state, w1))
  /\ (later - now > STORAGE_CONFIG_maxAgeMs ->
        let w2 := (getChecklistState JSON_length later w1).2 in
        (getChecklistState JSON_length later w1).1
          = Ok {| items := ∅; lastUpdated := later |}
        /\ slot (localStorage w2) CHECKLIST_STATE = None)
  /\ (slot (localStorage w) CHECKLIST_STATE = None ->
        getChecklistState JSON_length later w
          = (Ok {| items := ∅; lastUpdated := later |}, w)).
Proof.
  intros Hc Hquota w1.
  set (stored := {| data := state; timestamp := now |}) in *.
  assert (Hrun : saveChecklistState JSON_length now state w =
                 (Ok tt, updated w CHECKLIST_STATE (Some (Written stored)))).
  { unfold saveChecklistState, try_catch, mbind, M_bind.
    rewrite setItem_ok by done.
    rewrite manageStorageQuota_within_quota; [done | | done].
    by apply cooperative_put. }
  unfold w1. rewrite Hrun. cbn [fst snd]. split; [done |].
  rewrite (getChecklistState_stored later _ stored);
    [| by apply cooperative_put | apply slot_put_eq].
  unfold isExpired. cbn [timestamp data stored]. split; [| split].
  - intros Hage. by rewrite bool_decide_false by lia.
  - intros Hage. rewrite bool_decide_true by lia. cbn [fst snd localStorage].
    split; [done | apply slot_put_eq].
  - intros Hnone. by apply getChecklistState_absent.
Qed.

(** *** Clearing everything *)

Lemma removeAll_ok keys w :
  cooperative (localStorage w) ->
  removeAll keys w =
    (Ok tt, {| localStorage := removeKeys (localStorage w) keys;
               console := console w |}).
Proof.
  revert w. induction keys as [|key keys IH]; intros w Hc; cbn [removeAll].
  - by destruct w.
  - unfold mbind, M_bind. rewrite removeItem_ok by done.
    rewrite IH by (by apply cooperative_put). done.
Qed.

(** X30: [clearAll] forgets everything.  On a host that accepts the
    calls it removes the four records, the language preference among
    them; the storage then has size 0, every read returns its empty or
    default result, and the interface starts in the language of the
    browser.  On a host that refuses removals it removes nothing and
    throws a [STORAGE_ERROR]. *)
Theorem clearAll_forgets (now : Z) (navigator : option Navigator) (w : World) :
  (cooperative (localStorage w) ->
   let w1 := (clearAll w).2 in
   (clearAll w).1 = Ok tt
   /\ (forall key, slot (localStorage w1) key = None)
   /\ getStorageSize JSON_length w1 = (Ok 0, w1)
   /\ getLastCyclone JSON_length now w1 = (Ok None, w1)
   /\ getSavedRoutes JSON_length now w1 = (Ok [], w1)
   /\ getChecklistState JSON_length now w1
      = (Ok {| items := ∅; lastUpdated := now |}, w1)
   /\ getLanguagePreference JSON_length w1 = (Ok None, w1)
   /\ initialLanguage JSON_length navigator w1
      = (Ok (detectBrowserLanguage navigator), w1))
  /\ (forall message,
        refuses (localStorage w) RemoveItem = Some message ->
        (clearAll w).1 = Throw (storageError "clearAll" (JsError message))
        /\ localStorage (clearAll w).2 = localStorage w).
Proof.
  clear JSON_nonempty.
  split.
  - intros Hc w1.
    assert (Hrun : clearAll w =
                   (Ok tt, {| localStorage :=
                                removeKeys (localStorage w) STORAGE_KEYS_values;
                              console := console w |})).
    { unfold clearAll, try_catch. by rewrite removeAll_ok. }
    assert (Hc1 : cooperative (localStorage w1)).
    { unfold w1. rewrite Hrun. cbn [snd localStorage].
      by apply cooperative_removeKeys. }
    assert (Hnone : forall key, slot (localStorage w1) key = None).
    { intros key. unfold w1. rewrite Hrun. cbn [snd localStorage].
      rewrite slot_removeKeys. rewrite decide_True; [done |].
      destruct key; unfold STORAGE_KEYS_values; set_solver. }
    assert (Hlang : getLanguagePreference JSON_length w1 = (Ok None, w1)).
    { unfold getLanguagePreference, try_catch, mbind, M_bind.
      by rewrite getItem_ok, Hnone. }
    split; [by rewrite Hrun |]. split; [exact Hnone |]. split.
    { rewrite getStorageSize_ok by done. do 2 f_equal.
      unfold totalSize, STORAGE_KEYS_values, slotSizes, slotSize. cbn [foldr].
      by rewrite !Hnone. }
    split; [by apply getLastCyclone_absent |].
    split; [by apply getSavedRoutes_absent |].
    split; [by apply getChecklistState_absent |].
    split; [exact Hlang |].
    unfold initialLanguage, mbind, M_bind. by rewrite Hlang.
  - intros message Hrefused.
    unfold clearAll, try_catch, STORAGE_KEYS_values. cbn [removeAll].
    unfold mbind, M_bind, removeItem. by rewrite Hrefused.
Qed.

(** *** Clearing old data *)

(** One turn of the loop of [clearOldData] on a key other than the
    language preference. *)
Lemma clearOld_turn now maxAgeMs key keys w :
  cooperative (localStorage w) ->
  key ≠ LANGUAGE_PREFERENCE ->
  clearOld JSON_length now maxAgeMs (key :: keys) w =
    clearOld JSON_length now maxAgeMs keys
      (updated w key (swept now maxAgeMs (slot (localStorage w) key))).
Proof.
  intros Hc Hne. cbn [clearOld]. rewrite decide_False by done.
  unfold mbind at 1, M_bind at 1. rewrite getItem_ok by done.
  assert (Hsame : forall v, v = slot (localStorage w) key -> updated w key v = w).
  { intros v ->. rewrite put_slot. by destruct w. }
  destruct (slot (localStorage w) key) as [[stored | n message]|] eqn:Hslot;
    cbn [swept].
  - rewrite written_truthy. unfold mbind, M_bind, try_catch.
    cbn [JSON_parse mret M_ret].
    destruct (isExpired now (timestamp stored) maxAgeMs).
    + by rewrite removeItem_ok.
    + by rewrite Hsame.
  - unfold falsy. cbn [item_length]. case_bool_decide as Hn.
    + rewrite decide_True by done. by rewrite Hsame.
    + rewrite decide_False by done. unfold mbind, M_bind, try_catch.
      cbn [JSON_parse throw]. by rewrite removeItem_ok.
  - by rewrite Hsame.
Qed.

Lemma clearOld_run now maxAgeMs keys w :
  cooperative (localStorage w) -> NoDup keys ->
  exists w1,
    clearOld JSON_length now maxAgeMs keys w = (Ok tt, w1)
    /\ console w1 = console w
    /\ refuses (localStorage w1) = refuses (localStorage w)
    /\ (forall key, key ∉ keys \/ key = LANGUAGE_PREFERENCE ->
          slot (localStorage w1) key = slot (localStorage w) key)
    /\ (forall key, key ∈ keys -> key ≠ LANGUAGE_PREFERENCE ->
          slot (localStorage w1) key
          = swept now maxAgeMs (slot (localStorage w) key)).
Proof.
  revert w. induction keys as [|key keys IH]; intros w Hc Hnodup.
  - exists w. split; [done |]. split; [done |]. split; [done |]. split; [done |].
    intros key Hin. by apply elem_of_nil in Hin.
  - apply NoDup_cons in Hnodup as [Hfresh Hnodup].
    destruct (decide (key = LANGUAGE_PREFERENCE)) as [-> | Hne].
    + cbn [clearOld]. rewrite decide_True by done.
      destruct (IH w Hc Hnodup) as (w1 & Hrun & Hcon & Href & Hkeep & Hswept).
      exists w1. split; [exact Hrun |]. split; [exact Hcon |].
      split; [exact Href |]. split.
      * intros key [Hnot | ->]; apply Hkeep; [| by right].
        left. intros Hin. apply Hnot. by right.
      * intros key Hin Hne. apply Hswept; [| done].
        apply elem_of_cons in Hin as [-> | Hin]; done.
    + rewrite clearOld_turn by done.
      set (w' := updated w key (swept now maxAgeMs (slot (localStorage w) key))).
      destruct (IH w') as (w1 & Hrun & Hcon & Href & Hkeep & Hswept);
        [by apply cooperative_put | done |].
      exists w1. split; [exact Hrun |]. split; [exact Hcon |].
      split; [by rewrite Href; apply refuses_put |]. split.
      * intros other Hother. rewrite Hkeep.
        -- unfold w'. cbn [localStorage]. apply slot_put_ne.
           destruct Hother as [Hnot | ->]; [| done].
           intros ->. apply Hnot. by left.
        -- destruct Hother as [Hnot | ->]; [| by right].
           left. intros Hin. apply Hnot. by right.
      * intros other Hin Hother. apply elem_of_cons in Hin as [-> | Hin].
        -- rewrite Hkeep by (by left). unfold w'. cbn [localStorage].
           apply slot_put_eq.
        -- rewrite Hswept by done. unfold w'. cbn [localStorage].
           rewrite slot_put_ne; [done |]. by intros ->.
Qed.

(** X29: what [clearOldData] clears.  On a host that accepts the
    calls it never throws and logs nothing; it leaves the language
    preference alone; of the other three records it removes those that
    are older than the given age (thirty days when none is given) and
    the texts that are not empty and do not parse, and leaves the rest
    as it is.  A second call right after changes nothing more. *)
Theorem clearOldData_sweeps (now : Z) (maxAgeMs : option Z) (w : World) :
  cooperative (localStorage w) ->
  let age := default STORAGE_CONFIG_maxAgeMs maxAgeMs in
  let w1 := (clearOldData JSON_length now maxAgeMs w).2 in
  (clearOldData JSON_length now maxAgeMs w).1 = Ok tt
  /\ console w1 = console w
  /\ slot (localStorage w1) LANGUAGE_PREFERENCE
     = slot (localStorage w) LANGUAGE_PREFERENCE
  /\ (forall key, key ≠ LANGUAGE_PREFERENCE ->
        slot (localStorage w1) key = swept now age (slot (localStorage w) key))
  /\ (clearOldData JSON_length now maxAgeMs w1).2 = w1.
Proof.
  intros Hc age w1.
  assert (Hnodup : NoDup STORAGE_KEYS_values).
  { apply NoDup_ListNoDup. repeat constructor; cbn; intuition discriminate. }
  assert (Hall : forall key, key ∈ STORAGE_KEYS_values).
  { intros key. destruct key; unfold STORAGE_KEYS_values; set_solver. }
  destruct (clearOld_run now age STORAGE_KEYS_values w Hc Hnodup)
    as (w' & Hrun & Hcon & Href & Hkeep & Hswept).
  assert (Hw1 : clearOldData JSON_length now maxAgeMs w = (Ok tt, w')).
  { unfold clearOldData, try_catch. fold age. by rewrite Hrun. }
  unfold w1. rewrite Hw1. cbn [fst snd].
  split; [done |]. split; [exact Hcon |].
  split; [apply Hkeep; by right |].
  split; [intros key Hne; by apply Hswept |].
  assert (Hc' : cooperative (localStorage w')) by (intros c; rewrite Href; apply Hc).
  destruct (clearOld_run now age STORAGE_KEYS_values w' Hc' Hnodup)
    as (w'' & Hrun' & Hcon' & Href' & Hkeep' & Hswept').
  unfold clearOldData, try_catch. fold age. rewrite Hrun'. cbn [snd].
  destruct w' as [ls' con'], w'' as [ls'' con'']. cbn [console localStorage] in *.
  f_equal; [| done].
  assert (Hslots : forall key, slot ls'' key = slot ls' key).
  { intros key. destruct (decide (key = LANGUAGE_PREFERENCE)) as [-> | Hne].
    - apply Hkeep'. by right.
    - rewrite Hswept' by done. rewrite (Hswept key) by done.
      destruct (slot (localStorage w) key) as [[stored | n message]|]; cbn [swept];
        [destruct (isExpired now (timestamp stored) age) eqn:E
        | destruct (decide (n = 0%N)) |]; cbn [swept]; try done.
      + by rewrite E.
      + by rewrite decide_True. }
  destruct ls', ls''. cbn [refuses] in Href'. subst.
  pose proof (Hslots LAST_CYCLONE). pose proof (Hslots SAVED_ROUTES).
  pose proof (Hslots CHECKLIST_STATE). pose proof (Hslots LANGUAGE_PREFERENCE).
  cbn [slot last_cyclone saved_routes checklist_state language_preference] in *.
  by subst.
Qed.

(** *** The language preference *)

Lemma spares_ret {A} (a : A) : sparesLanguage (mret a).
Proof. done. Qed.

Lemma spares_throw {A} (e : js_error) : sparesLanguage (throw (A := A) e).
Proof. done. Qed.

Lemma spares_bind {A B} (m : M A) (f : A -> M B) :
  sparesLanguage m -> (forall a, sparesLanguage (f a)) -> sparesLanguage (m ≫= f).
Proof.
  intros Hm Hf w. unfold mbind, M_bind. destruct (Hm w) as [Hr Hs].
  destruct (m w) as [[a|e] w1]; cbn [snd] in *; [| done].
  destruct (Hf a w1) as [Hr1 Hs1]. by rewrite Hr1, Hs1.
Qed.

Lemma spares_try_catch {A} (m : M A) (handler : js_error -> M A) :
  sparesLanguage m -> (forall e, sparesLanguage (handler e)) ->
  sparesLanguage (try_catch m handler).
Proof.
  intros Hm Hh w. unfold try_catch. destruct (Hm w) as [Hr Hs].
  destruct (m w) as [[a|e] w1]; cbn [snd] in *; [done |].
  destruct (Hh e w1) as [Hr1 Hs1]. by rewrite Hr1, Hs1.
Qed.

Lemma spares_getItem key : sparesLanguage (getItem key).
Proof. intros w. unfold getItem. by destruct (refuses _ _). Qed.

Lemma spares_setItem key value :
  key ≠ LANGUAGE_PREFERENCE -> sparesLanguage (setItem key value).
Proof.
  intros Hne w. unfold setItem. destruct (refuses _ _); [done |].
  cbn [snd localStorage]. by rewrite refuses_put, slot_put_ne.
Qed.

Lemma spares_removeItem key :
  key ≠ LANGUAGE_PREFERENCE -> sparesLanguage (removeItem key).
Proof.
  intros Hne w. unfold removeItem. destruct (refuses _ _); [done |].
  cbn [snd localStorage]. by rewrite refuses_put, slot_put_ne.
Qed.

Lemma spares_JSON_parse {A} (item : Item A) : sparesLanguage (JSON_parse item).
Proof. by destruct item. Qed.

Lemma spares_handleStorageError {A} error operation :
  sparesLanguage (handleStorageError (A := A) error operation).
Proof. done. Qed.

Lemma spares_deleting {A} (m : M A) : deleting m -> sparesLanguage m.
Proof. intros Hm w. by destruct (Hm w) as (? & ? & _). Qed.

(** The proofs that an operation leaves the language preference alone
    follow the structure of the operation. *)
Ltac spares :=
  repeat first
    [ apply spares_ret
    | apply spares_throw
    | apply spares_handleStorageError
    | apply spares_getItem
    | apply spares_JSON_parse
    | apply spares_setItem; discriminate
    | apply spares_removeItem; discriminate
    | apply spares_deleting, deleting_manageStorageQuota
    | apply spares_try_catch; [| intros ?]
    | apply spares_bind; [| intros ?]
    | match goal with
      | |- sparesLanguage (match ?x with _ => _ end) => destruct x
      end ].

Lemma spares_getSavedRoutes now : sparesLanguage (getSavedRoutes JSON_length now).
Proof. unfold getSavedRoutes, deleteItem. spares. Qed.

Lemma spares_invoke now (c : call) :
  (forall other, c ≠ SaveLanguagePreference other) ->
  sparesLanguage (invoke JSON_length now c).
Proof.
  intros Hc. destruct c; try (by destruct (Hc lang));
    unfold invoke, saveLastCyclone, getLastCyclone, saveRoute, deleteRoute,
      saveChecklistState, getChecklistState, getLanguagePreference, deleteItem;
    spares; apply spares_getSavedRoutes.
Qed.

Lemma spares_clearOld now maxAgeMs keys :
  sparesLanguage (clearOld JSON_length now maxAgeMs keys).
Proof.
  induction keys as [|key keys IH]; cbn [clearOld]; [apply spares_ret |].
  case_decide as Hkey; [exact IH |].
  apply spares_bind; [apply spares_getItem |]. intros [item|]; [| exact IH].
  destruct (falsy _ item); [exact IH |].
  apply spares_bind; [| intros _; exact IH].
  apply spares_try_catch.
  - apply spares_bind; [apply spares_JSON_parse |]. intros stored.
    destruct (isExpired _ _ _); [by apply spares_removeItem | apply spares_ret].
  - intros _. by apply spares_removeItem.
Qed.

Lemma spares_clearOldData now maxAgeMs :
  sparesLanguage (clearOldData JSON_length now maxAgeMs).
Proof.
  unfold clearOldData. apply spares_try_catch; [apply spares_clearOld |].
  intros e. apply spares_handleStorageError.
Qed.

Lemma spares_perform now (op : operation) :
  touchesLanguage op = false -> sparesLanguage (perform JSON_length now op).
Proof.
  intros Hop. destruct op as [c| | |]; cbn [perform]; try discriminate Hop.
  - apply spares_bind; [| intros ?; apply spares_ret].
    apply spares_invoke. intros other ->. discriminate Hop.
  - apply spares_clearOldData.
  - apply spares_bind; [| intros ?; apply spares_ret].
    apply spares_deleting, deleting_getStorageSize.
Qed.

Lemma spares_session (ops : list (Z * operation)) (w : World) :
  Forall (λ op, touchesLanguage op.2 = false) ops ->
  refuses (localStorage (session JSON_length ops w)) = refuses (localStorage w)
  /\ slot (localStorage (session JSON_length ops w)) LANGUAGE_PREFERENCE
     = slot (localStorage w) LANGUAGE_PREFERENCE.
Proof.
  unfold session. intros Hops. revert w.
  induction Hops as [|[t op] ops Hop _ IH]; intros w; [done |].
  cbn [foldl fst snd]. destruct (IH (perform JSON_length t op w).2) as [-> ->].
  by apply spares_perform.
Qed.

Lemma getLanguagePreference_stored w stored :
  refuses (localStorage w) GetItem = None ->
  slot (localStorage w) LANGUAGE_PREFERENCE = Some (Written stored) ->
  getLanguagePreference JSON_length w = (Ok (Some (data stored)), w).
Proof.
  intros Hget Hslot. unfold getLanguagePreference, try_catch, mbind, M_bind, getItem.
  by rewrite Hget, Hslot, written_truthy.
Qed.

(** X28: the chosen language persists.  Once [setLanguage] has
    stored a language on a host that accepts the calls, the interface
    starts in that language whatever the browser says, at any later time
    (the preference does not expire) and after any session of public
    methods of the manager that contains neither
    [saveLanguagePreference] nor [clearAll]: the other ten methods,
    [clearOldData] among them, leave the preference alone, thrown errors
    and evictions included.  [clearOldData] leaves it alone on every
    host.  Without a stored preference the interface starts in the
    language of the browser. *)
Theorem language_preference_persists (now : Z) (lang : Language)
    (ops : list (Z * operation)) (navigator : option Navigator) (w : World) :
  cooperative (localStorage w) ->
  Forall (λ op, touchesLanguage op.2 = false) ops ->
  let w1 := session JSON_length ops (setLanguage now lang w).2 in
  getLanguagePreference JSON_length w1 = (Ok (Some lang), w1)
  /\ initialLanguage JSON_length navigator w1 = (Ok lang, w1)
  /\ (forall later maxAgeMs,
        sparesLanguage (clearOldData JSON_length later maxAgeMs))
  /\ (slot (localStorage w) LANGUAGE_PREFERENCE = None ->
      initialLanguage JSON_length navigator w
        = (Ok (detectBrowserLanguage navigator), w)).
Proof.
  intros Hc Hops w1.
  assert (Hsaved : setLanguage now lang w =
                   (Ok tt, updated w LANGUAGE_PREFERENCE
                             (Some (Written {| data := lang; timestamp := now |})))).
  { unfold setLanguage, saveLanguagePreference, try_catch. by rewrite setItem_ok. }
  destruct (spares_session ops (setLanguage now lang w).2 Hops) as [Hr Hs].
  fold w1 in Hr, Hs. rewrite Hsaved in Hr, Hs. cbn [snd localStorage] in Hr, Hs.
  rewrite refuses_put in Hr. rewrite slot_put_eq in Hs.
  assert (Hread : getLanguagePreference JSON_length w1 = (Ok (Some lang), w1)).
  { apply (getLanguagePreference_stored w1 {| data := lang; timestamp := now |});
      [by rewrite Hr | exact Hs]. }
  split; [exact Hread |]. split.
  { unfold initialLanguage, mbind, M_bind. by rewrite Hread. }
  split; [intros later maxAgeMs; apply spares_clearOldData |].
  intros Hnone. unfold initialLanguage, getLanguagePreference, try_catch,
    mbind, M_bind. by rewrite getItem_ok, Hnone.
Qed.

End WithSerializer.

(** *** On the sample states *)

Lemma sampleLength_nonempty key (stored : StoredData (payload key)) :
  sampleLength key stored ≠ 0%N.
Proof.
  destruct key; cbn [sampleLength]; try lia.
  destruct (data stored) as [|route routes]; cbn [foldr]; lia.
Qed.

Lemma tidy_cooperative : cooperative (localStorage tidy).
Proof. by apply accepting_cooperative. Qed.

(** The id saved at time 5000 is read back thirty days later to the
    millisecond, and no longer one millisecond after that. *)
Lemma last_cyclone_round_trip_witness :
  let w1 := (saveLastCyclone 5000 "Michaung" tidy).2 in
  getLastCyclone sampleLength (5000 + STORAGE_CONFIG_maxAgeMs) w1
    = (Ok (Some "Michaung"), w1)
  /\ (getLastCyclone sampleLength (5001 + STORAGE_CONFIG_maxAgeMs) w1).1 = Ok None.
Proof.
  intros w1.
  destruct (last_cyclone_round_trip sampleLength sampleLength_nonempty
              5000 (5000 + STORAGE_CONFIG_maxAgeMs) "Michaung" tidy tidy_cooperative)
    as (_ & _ & Hkept & _).
  destruct (last_cyclone_round_trip sampleLength sampleLength_nonempty
              5000 (5001 + STORAGE_CONFIG_maxAgeMs) "Michaung" tidy tidy_cooperative)
    as (_ & _ & _ & Hgone).
  split.
  - apply Hkept. by vm_compute.
  - apply Hgone. by vm_compute.
Defined.

Lemma saveRoute_upserts_witness :
  let w1 := (saveRoute sampleLength 5000 chennaiToSalem tidy).2 in
  (saveRoute sampleLength 5000 chennaiToSalem tidy).1 = Ok tt
  /\ getSavedRoutes sampleLength 6000 w1
     = (Ok (withRoute chennaiToSalem [chennaiToMadurai]), w1)
  /\ withRoute chennaiToSalem [chennaiToMadurai]
     = [chennaiToMadurai] ++ [chennaiToSalem].
Proof.
  intros w1.
  destruct (saveRoute_upserts sampleLength sampleLength_nonempty
              5000 6000 chennaiToSalem tidy [chennaiToMadurai] tidy_cooperative)
    as (Hok & Hread & _ & _ & Happend & _); [reflexivity | by vm_compute |].
  split; [exact Hok |]. split.
  - apply Hread. by vm_compute.
  - apply Happend. repeat constructor. intros [_ Hd]. discriminate Hd.
Defined.

Lemma deleteRoute_removes_witness :
  let w1 := (deleteRoute sampleLength 5000 "r1" tidy).2 in
  (deleteRoute sampleLength 5000 "r1" tidy).1 = Ok tt
  /\ getSavedRoutes sampleLength 6000 w1
     = (Ok (filter (λ r, id r ≠ "r1") [chennaiToMadurai]), w1).
Proof.
  intros w1.
  destruct (deleteRoute_removes sampleLength sampleLength_nonempty
              5000 6000 "r1" tidy [chennaiToMadurai] tidy_cooperative)
    as (Hok & _ & _ & Hread & _); [reflexivity |].
  split; [exact Hok |]. apply Hread. by vm_compute.
Defined.

Lemma checklist_round_trip_witness :
  let state := {| items := {[ "torch" := true ]}; lastUpdated := 5000 |} in
  let w1 := (saveChecklistState sampleLength 5000 state tidy).2 in
  (saveChecklistState sampleLength 5000 state tidy).1 = Ok tt
  /\ getChecklistState sampleLength 6000 w1 = (Ok state, w1)
  /\ getChecklistState sampleLength 6000 tidy
     = (Ok {| items := ∅; lastUpdated := 6000 |}, tidy).
Proof.
  intros state w1.
  destruct (checklist_round_trip sampleLength sampleLength_nonempty
              5000 6000 state tidy tidy_cooperative)
    as (Hok & Hread & _ & Hdefault); [by vm_compute |].
  split; [exact Hok |]. split.
  - apply Hread. by vm_compute.
  - by apply Hdefault.
Defined.

(** Tamil is chosen in a browser set to English; a route is saved, the
    old data are cleared with an age of zero, the size is asked for and
    the cyclone id is read before the interface starts again. *)
Lemma language_preference_persists_witness :
  let ops :=
    [(6000, Call (SaveRoute chennaiToSalem)); (7000, ClearOldData (Some 0));
     (7500, GetStorageSize); (8000, Call GetLastCyclone)] in
  let navigator := Some {| language := Some "en-US"; userLanguage := None |} in
  let w1 := session sampleLength ops (setLanguage 5000 ta tidy).2 in
  getLanguagePreference sampleLength w1 = (Ok (Some ta), w1)
  /\ initialLanguage sampleLength navigator w1 = (Ok ta, w1).
Proof.
  intros ops navigator w1.
  destruct (language_preference_persists sampleLength sampleLength_nonempty
              5000 ta ops navigator tidy tidy_cooperative)
    as (Hread & Hstart & _).
  - repeat constructor.
  - split; [exact Hread | exact Hstart].
Defined.

(** In the state [garbled] the routes text does not parse. *)
Lemma clearOldData_sweeps_witness :
  let w1 := (clearOldData sampleLength 5000 None garbled).2 in
  (clearOldData sampleLength 5000 None garbled).1 = Ok tt
  /\ slot (localStorage w1) SAVED_ROUTES
     = swept 5000 STORAGE_CONFIG_maxAgeMs (slot (localStorage garbled) SAVED_ROUTES)
  /\ slot (localStorage w1) LAST_CYCLONE
     = swept 5000 STORAGE_CONFIG_maxAgeMs (slot (localStorage garbled) LAST_CYCLONE).
Proof.
  intros w1.
  destruct (clearOldData_sweeps sampleLength sampleLength_nonempty
              5000 None garbled)
    as (Hok & _ & _ & Hswept & _); [by apply accepting_cooperative |].
  split; [exact Hok |]. split; by apply Hswept.
Defined.

Lemma clearAll_forgets_witness :
  let navigator := Some {| language := Some "ta-IN"; userLanguage := None |} in
  let w1 := (clearAll tidy).2 in
  ((clearAll tidy).1 = Ok tt
   /\ slot (localStorage w1) LANGUAGE_PREFERENCE = None
   /\ initialLanguage sampleLength navigator w1
      = (Ok (detectBrowserLanguage navigator), w1))
  /\ ((clearAll denied).1
       = Throw (storageError "clearAll" (JsError "The operation is insecure."))
      /\ localStorage (clearAll denied).2 = localStorage denied).
Proof.
  intros navigator w1. split.
  - destruct (proj1 (clearAll_forgets sampleLength 5000 navigator tidy)
                tidy_cooperative)
      as (Hok & Hnone & _ & _ & _ & _ & _ & Hstart).
    split; [exact Hok |]. split; [apply Hnone | exact Hstart].
  - apply (proj2 (clearAll_forgets sampleLength 5000 navigator denied)).
    reflexivity.
Defined.

End StorageLaws.
